(** * mini_rdbms: the storage-and-constraint engine

    A shallow embedding of [db/column.py], [db/index.py], [db/table.py] and
    [db/engine.py], and the properties of the specification settled on it.

    Conventions of the embedding:
    - a Python value reaching the engine is [None], an [int] or a [str]
      (what [QueryParser] produces, plus [None] from programmatic callers);
      [int(s)] on a string is a parameter ([IntOfStr]);
    - a Python [dict] is an insertion-ordered association list ([Dict]),
      so that iteration order ([items()], [keys()]) is the source's;
    - a method that mutates [self] is a function from the state before the
      call to the state when the call returns or raises, paired with the
      outcome ([Ok] result or [Raise]d exception).  Keeping the state at
      the point of the [raise] is what makes "nothing was mutated on
      failure" a statement about the code and not about the encoding;
    - rows are values in [Table]; where it matters whether two rows are
      the same Python object ([select] and its callers), [ObjTable] keeps
      them in a store of objects.

    Results:
    - [insert] is all-or-nothing, stores what validation returns and
      treats [None] as a value in uniqueness;
    - on a table whose indexes hold the invariant of the data model,
      [insert] refuses duplicates of primary-key and unique values, the
      index path of [select] agrees with a full scan, and [delete]
      compacts rows and indexes alike; [insert], [delete] and every
      [update] that returns keep that invariant;
    - [Index.update] loses the reverse entry of its slot when [add]
      fails, and the forward one when [old_value] was the value indexed
      there;
    - an engine operation on one table leaves the other tables alone;
    - [update] is not atomic: it can raise after rewriting rows and
      indexes, which loses the index invariant; on the table it leaves,
      [insert] accepts a duplicate key, the index path of [select]
      misses a row and [delete] leaves a row without index entry;
    - [select] without condition returns the stored row objects
      themselves;
    - further: what [Index], [Column.validate_value], [Table.__init__]
      and the catalog operations of the engine return and raise; on a
      table that holds the invariant, [select] is a filter for every
      shape of condition, [delete] removes the matching rows and never
      raises, [update] of plain columns and of one row is exact; stored
      values keep the type of their column and unique columns hold
      distinct values. *)

From Stdlib Require Import ZArith Lia Ascii DecimalString.
From stdpp Require Import base decidable option list strings gmap.

Set Default Proof Using "Type".
Open Scope Z_scope.
Open Scope nat_scope.
Open Scope string_scope.
Open Scope list_scope.

(** ** Python values and exceptions *)

Inductive value : Type :=
| VNone
| VInt (z : Z)
| VStr (s : string).

#[global] Instance value_eq_dec : EqDecision value.
Proof. solve_decision. Defined.

(** The exceptions the engine raises, named after the taxonomy of the
    specification.  In the source [ValueCountError], [ConstraintViolation]
    and [SchemaError] are all [ValueError] (told apart by the raise site),
    [TypeError] is the [TypeError] re-raised by [Column.validate_value];
    [KeyError] and [IndexError] are the interpreter's own, raised by
    [d[k]] on a missing key and [l[i]] out of range. *)
Inductive error : Type :=
| ValueCountError
| TypeError
| ConstraintViolation
| SchemaError
| KeyError
| IndexError.

#[global] Instance error_eq_dec : EqDecision error.
Proof. solve_decision. Defined.

Inductive result (A : Type) : Type :=
| Ok (a : A)
| Raise (e : error).
Arguments Ok {A} a.
Arguments Raise {A} e.

Definition is_ok {A} (r : result A) : bool :=
  match r with Ok _ => true | Raise _ => false end.

(** ** State-and-exception monad

    [M S A] is a method body over a mutable receiver of type [S]: it
    returns the receiver as the body left it, also when it raises. *)

Definition M (S A : Type) : Type := S -> S * result A.

Definition ret {S A} (a : A) : M S A := fun s => (s, Ok a).
Definition raise {S A} (e : error) : M S A := fun s => (s, Raise e).
Definition bind {S A B} (m : M S A) (k : A -> M S B) : M S B :=
  fun s => match m s with
           | (s', Ok a) => k a s'
           | (s', Raise e) => (s', Raise e)
           end.
Definition read {S} : M S S := fun s => (s, Ok s).
Definition modify {S} (f : S -> S) : M S unit := fun s => (f s, Ok tt).
Definition lift {S A} (r : result A) : M S A := fun s => (s, r).

Notation "x <- m ;; k" := (bind m (fun x => k))
  (at level 100, m at next level, right associativity).
Notation "m ;;; k" := (bind m (fun _ => k))
  (at level 100, right associativity).

(** [for x in xs: body x] *)
Fixpoint for_each {S A} (xs : list A) (body : A -> M S unit) : M S unit :=
  match xs with
  | [] => ret tt
  | x :: xs' => body x ;;; for_each xs' body
  end.

(** ** Python dictionaries

    Insertion-ordered association lists.  A Python [dict] never holds a
    key twice; [Dict.wf] says so. *)

Module Dict.
Section dict.
Context {K V : Type} `{EqDecision K}.

(** [d.get(k)], with [None] for a missing key *)
Fixpoint get (k : K) (d : list (K * V)) : option V :=
  match d with
  | [] => None
  | (k', v) :: d' => if decide (k = k') then Some v else get k d'
  end.

(** [k in d] *)
Definition mem (k : K) (d : list (K * V)) : bool :=
  match get k d with Some _ => true | None => false end.

(** [d[k] = v]: overwrite in place, or append a new key at the end *)
Fixpoint set (k : K) (v : V) (d : list (K * V)) : list (K * V) :=
  match d with
  | [] => [(k, v)]
  | (k', v') :: d' =>
      if decide (k = k') then (k, v) :: d' else (k', v') :: set k v d'
  end.

(** [del d[k]]: on a dictionary, whose keys are distinct, the one entry
    of [k] goes (the source guards every [del] by a membership test) *)
Fixpoint del (k : K) (d : list (K * V)) : list (K * V) :=
  match d with
  | [] => []
  | (k', v') :: d' =>
      if decide (k = k') then del k d' else (k', v') :: del k d'
  end.

Definition keys (d : list (K * V)) : list K := map fst d.

Definition wf (d : list (K * V)) : Prop := NoDup (keys d).
End dict.
End Dict.

Abbreviation dict K V := (list (K * V)) (only parsing).

(** ** Column ([db/column.py]) *)

Inductive DataType : Type := INT | TEXT.

(** [int(s)] on a [str] is the interpreter's; the engine only relies on
    its outcome: an integer, or [ValueError] ([None] here). *)
Class IntOfStr := int_of_str : string -> option Z.

(** [str(z)] on an [int]: its decimal numeral *)
Definition str_of_int (z : Z) : string := NilZero.string_of_int (Z.to_int z).

Module Column.

Record t : Type := {
  name : string;
  data_type : DataType;
  is_primary_key : bool;
  is_unique : bool
}.

(** [Column.__init__] *)
Definition init (name : string) (data_type : DataType)
    (is_primary_key is_unique : bool) : t :=
  let u := is_unique || is_primary_key in
  {| name := name;
     data_type := data_type;
     is_primary_key := is_primary_key;
     is_unique := if is_primary_key && negb is_unique then true else u |}.

(** [col.is_primary_key or col.is_unique] *)
Definition indexed (c : t) : bool := is_primary_key c || is_unique c.

(** [self.data_type.value] *)
Definition data_type_value (d : DataType) : string :=
  match d with INT => "INT" | TEXT => "TEXT" end.

(** [Column.__repr__], which is also [str(col)] *)
Definition repr (self : t) : string :=
  let constraints :=
    if is_primary_key self then ["PRIMARY KEY"]
    else if is_unique self then ["UNIQUE"] else [] in
  let constraint_str := String.concat " " constraints in
  let constraint_str :=
    if decide (constraint_str = "") then constraint_str
    else (" " ++ constraint_str)%string in
  ("Column(" ++ name self ++ " " ++ data_type_value (data_type self)
   ++ constraint_str ++ ")")%string.

Section validate.
Context `{IntOfStr}.

(** [Column.validate_value] *)
Definition validate_value (self : t) (v : value) : result value :=
  match v with
  | VNone => Ok VNone
  | VInt z =>
      match data_type self with
      | INT => Ok (VInt z)
      | TEXT => Ok (VStr (str_of_int z))
      end
  | VStr s =>
      match data_type self with
      | INT => match int_of_str s with
               | Some z => Ok (VInt z)
               | None => Raise TypeError
               end
      | TEXT => Ok (VStr s)
      end
  end.
End validate.

End Column.

(** ** Index ([db/index.py]) *)

Module Index.

Record t : Type := {
  column_name : string;
  _index : dict value nat;          (* value -> row_index *)
  _reverse_index : dict nat value   (* row_index -> value *)
}.

(** [Index.__init__] *)
Definition init (column_name : string) : t :=
  {| column_name := column_name; _index := []; _reverse_index := [] |}.

(** [Index.__contains__] *)
Definition contains (self : t) (v : value) : bool := Dict.mem v (_index self).

(** [Index.add] *)
Definition add (v : value) (row_index : nat) : M t unit := fun self =>
  if Dict.mem v (_index self) then (self, Raise ConstraintViolation)
  else ({| column_name := column_name self;
           _index := Dict.set v row_index (_index self);
           _reverse_index := Dict.set row_index v (_reverse_index self) |},
        Ok tt).

(** [Index.get] *)
Definition get (self : t) (v : value) : option nat := Dict.get v (_index self).

(** [Index.remove] *)
Definition remove (v : value) (row_index : nat) : M t unit := fun self =>
  let fwd :=
    if bool_decide (Dict.get v (_index self) = Some row_index)
    then Dict.del v (_index self) else _index self in
  let rev :=
    if Dict.mem row_index (_reverse_index self)
    then Dict.del row_index (_reverse_index self) else _reverse_index self in
  ({| column_name := column_name self; _index := fwd; _reverse_index := rev |},
   Ok tt).

(** The loop of [Index.adjust_for_deletion] over [self._index.items()],
    threading the two dictionaries it builds. *)
Fixpoint adjust_loop (deleted_index : nat) (items : list (value * nat))
    (new_index : dict value nat) (new_reverse : dict nat value)
    : dict value nat * dict nat value :=
  match items with
  | [] => (new_index, new_reverse)
  | (v, idx) :: rest =>
      if decide (deleted_index < idx) then
        adjust_loop deleted_index rest
          (Dict.set v (idx - 1) new_index) (Dict.set (idx - 1) v new_reverse)
      else if decide (idx < deleted_index) then
        adjust_loop deleted_index rest
          (Dict.set v idx new_index) (Dict.set idx v new_reverse)
      else adjust_loop deleted_index rest new_index new_reverse
  end.

(** [Index.adjust_for_deletion] *)
Definition adjust_for_deletion (deleted_index : nat) : M t unit := fun self =>
  let '(new_index, new_reverse) :=
    adjust_loop deleted_index (_index self) [] [] in
  ({| column_name := column_name self;
      _index := new_index; _reverse_index := new_reverse |}, Ok tt).

(** [Index.update] *)
Definition update (old_value new_value : value) (row_index : nat) : M t unit :=
  remove old_value row_index ;;; add new_value row_index.

End Index.

(** ** Table ([db/table.py]) *)

Module Table.

Record t : Type := {
  name : string;
  columns : list Column.t;
  rows : list (dict string value);
  indexes : dict string Index.t
}.

Definition set_rows (rs : list (dict string value)) (self : t) : t :=
  {| name := name self; columns := columns self;
     rows := rs; indexes := indexes self |}.

Definition set_indexes (ixs : dict string Index.t) (self : t) : t :=
  {| name := name self; columns := columns self;
     rows := rows self; indexes := ixs |}.

(** [self.column_dict = {col.name: col for col in columns}]; the source
    computes it once in [__init__] and never reassigns it or [columns]. *)
Definition column_dict (self : t) : dict string Column.t :=
  fold_left (fun d c => Dict.set (Column.name c) c d) (columns self) [].

(** [Table.__init__] *)
Definition init (name : string) (columns : list Column.t) : result t :=
  match columns with
  | [] => Raise SchemaError
  | _ :: _ =>
      if decide (1 < length (filter (fun c => Column.is_primary_key c = true) columns))
      then Raise SchemaError
      else Ok {| name := name;
                 columns := columns;
                 rows := [];
                 indexes :=
                   fold_left
                     (fun d c =>
                        if Column.indexed c
                        then Dict.set (Column.name c) (Index.init (Column.name c)) d
                        else d)
                     columns [] |}
  end.

(** [d[k]], raising [KeyError] *)
Definition getitem {K V} `{EqDecision K} (k : K) (d : dict K V) : result V :=
  match Dict.get k d with
  | Some v => Ok v
  | None => Raise KeyError
  end.

(** [self.rows[idx]], raising [IndexError] *)
Definition getrow (idx : nat) : M t (dict string value) := fun self =>
  match rows self !! idx with
  | Some r => (self, Ok r)
  | None => (self, Raise IndexError)
  end.

(** [self.rows[idx][col_name] = v]: the row object in the store is
    written in place. *)
Definition setitem_row (idx : nat) (col_name : string) (v : value) : M t unit :=
  modify (fun s => set_rows (alter (Dict.set col_name v) idx (rows s)) s).

(** [self.indexes[col_name].op(...)]: the index object held by the table
    is mutated in place, also when [op] raises. *)
Definition on_index {A} (col_name : string) (op : M Index.t A) : M t A :=
  fun self =>
    match Dict.get col_name (indexes self) with
    | None => (self, Raise KeyError)
    | Some index =>
        let '(index', r) := op index in
        (set_indexes (Dict.set col_name index' (indexes self)) self, r)
    end.

(** [row.get(col_name)] *)
Definition row_get (row : dict string value) (col_name : string) : value :=
  default VNone (Dict.get col_name row).

(** The inner loop of the scan in [select]: every condition holds. *)
Fixpoint row_matches (conditions : dict string value)
    (row : dict string value) : bool :=
  match conditions with
  | [] => true
  | (col_name, v) :: rest =>
      if decide (row_get row col_name = v) then row_matches rest row else false
  end.

(** The scan loop of [select] ([row.copy()] is the row's value). *)
Fixpoint scan (rs : list (dict string value)) (conditions : dict string value)
    : list (dict string value) :=
  match rs with
  | [] => []
  | row :: rest =>
      if row_matches conditions row then row :: scan rest conditions
      else scan rest conditions
  end.

(** [Table.select]; it mutates nothing.  [not conditions] holds for
    [None] and for the empty dictionary. *)
Definition select (self : t) (conditions : option (dict string value))
    : result (list (dict string value)) :=
  match conditions with
  | None | Some [] => Ok (rows self)
  | Some ([(col_name, v)] as conds) =>
      match Dict.get col_name (indexes self) with
      | Some index =>
          match Index.get index v with
          | Some idx =>
              match rows self !! idx with
              | Some row => Ok [row]
              | None => Raise IndexError
              end
          | None => Ok []
          end
      | None => Ok (scan (rows self) conds)
      end
  | Some conds => Ok (scan (rows self) conds)
  end.

(** [all(r[col] == row[col] for col in r.keys())] *)
Fixpoint all_equal (cols : list string) (r row : dict string value)
    : result bool :=
  match cols with
  | [] => Ok true
  | col :: rest =>
      match Dict.get col r, Dict.get col row with
      | Some a, Some b =>
          if decide (a = b) then all_equal rest r row else Ok false
      | _, _ => Raise KeyError
      end
  end.

(** [for i, r in enumerate(self.rows): if all(...): indices.append(i); break] *)
Fixpoint find_row (rs : list (dict string value)) (i : nat)
    (row : dict string value) : result (option nat) :=
  match rs with
  | [] => Ok None
  | r :: rest =>
      match all_equal (Dict.keys r) r row with
      | Raise e => Raise e
      | Ok true => Ok (Some i)
      | Ok false => find_row rest (S i) row
      end
  end.

(** The slots of the target rows, each recovered by content equality. *)
Fixpoint row_indices (rs targets : list (dict string value))
    : result (list nat) :=
  match targets with
  | [] => Ok []
  | row :: rest =>
      match find_row rs 0 row with
      | Raise e => Raise e
      | Ok found =>
          match row_indices rs rest with
          | Raise e => Raise e
          | Ok indices =>
              Ok (match found with Some i => i :: indices | None => indices end)
          end
      end
  end.

(** [self.select(conditions) if conditions else self.rows], then the
    slots of those rows; shared by [update] and [delete]. *)
Definition target_indices (self : t) (conditions : option (dict string value))
    : result (list nat) :=
  match (match conditions with
         | Some (_ :: _) => select self conditions
         | _ => Ok (rows self)
         end) with
  | Raise e => Raise e
  | Ok targets => row_indices (rows self) targets
  end.

Section methods.
Context `{IntOfStr}.

(** The validation loop of [insert]: it builds the local [row] and
    reads the indexes; nothing of [self] is written. *)
Fixpoint insert_row (self : t) (pairs : list (Column.t * value))
    (row : dict string value) : result (dict string value) :=
  match pairs with
  | [] => Ok row
  | (col, v) :: rest =>
      match Column.validate_value col v with
      | Raise e => Raise e
      | Ok validated =>
          let row' := Dict.set (Column.name col) validated row in
          if Column.indexed col then
            match Dict.get (Column.name col) (indexes self) with
            | None => Raise KeyError
            | Some index =>
                if Index.contains index validated
                then Raise ConstraintViolation
                else insert_row self rest row'
            end
          else insert_row self rest row'
      end
  end.

(** [Table.insert] *)
Definition insert (values : list value) : M t unit := fun self =>
  if decide (length values <> length (columns self))
  then (self, Raise ValueCountError)
  else
    match insert_row self (zip (columns self) values) [] with
    | Raise e => (self, Raise e)
    | Ok row =>
        (modify (fun s => set_rows (rows s ++ [row]) s) ;;;
         for_each (Dict.keys (indexes self)) (fun col_name =>
           v <- lift (getitem col_name row) ;;
           s <- read ;;
           on_index col_name (Index.add v (length (rows s) - 1)))) self
    end.

(** The validation pass of [update] for one target slot. *)
Fixpoint check_updates (self : t) (idx : nat) (updates : dict string value)
    : result unit :=
  match updates with
  | [] => Ok tt
  | (col_name, new_value) :: rest =>
      match Dict.get col_name (indexes self) with
      | None => check_updates self idx rest
      | Some index =>
          match getitem col_name (column_dict self) with
          | Raise e => Raise e
          | Ok col =>
              match Column.validate_value col new_value with
              | Raise e => Raise e
              | Ok validated =>
                  match Index.get index validated with
                  | Some existing_idx =>
                      if decide (existing_idx = idx)
                      then check_updates self idx rest
                      else Raise ConstraintViolation
                  | None => check_updates self idx rest
                  end
              end
          end
      end
  end.

(** The validation pass of [update]: no mutation. *)
Fixpoint validate_updates (self : t) (indices : list nat)
    (updates : dict string value) : result unit :=
  match indices with
  | [] => Ok tt
  | idx :: rest =>
      match rows self !! idx with
      | None => Raise IndexError
      | Some _ =>
          match check_updates self idx updates with
          | Raise e => Raise e
          | Ok _ => validate_updates self rest updates
          end
      end
  end.

(** The body of the apply loop of [update] for one target slot. *)
Definition apply_update (updates : dict string value) (idx : nat) : M t unit :=
  _ <- getrow idx ;;
  for_each (Dict.keys updates) (fun col_name =>
    s <- read ;;
    if Dict.mem col_name (indexes s) then
      row <- getrow idx ;;
      old_value <- lift (getitem col_name row) ;;
      on_index col_name (Index.remove old_value idx)
    else ret tt) ;;;
  for_each updates (fun '(col_name, new_value) =>
    s <- read ;;
    col <- lift (getitem col_name (column_dict s)) ;;
    validated <- lift (Column.validate_value col new_value) ;;
    setitem_row idx col_name validated ;;;
    if Dict.mem col_name (indexes s)
    then on_index col_name (Index.add validated idx)
    else ret tt).

(** [Table.update] *)
Definition update (updates : dict string value)
    (conditions : option (dict string value)) : M t nat := fun self =>
  match target_indices self conditions with
  | Raise e => (self, Raise e)
  | Ok indices =>
      match validate_updates self indices updates with
      | Raise e => (self, Raise e)
      | Ok _ =>
          (for_each indices (apply_update updates) ;;;
           ret (length indices)) self
      end
  end.

End methods.

(** [indices.sort(reverse=True)]: the slots in descending order. *)
Fixpoint insert_desc (i : nat) (l : list nat) : list nat :=
  match l with
  | [] => [i]
  | j :: l' => if decide (j <= i) then i :: l else j :: insert_desc i l'
  end.

Definition sort_reverse (l : list nat) : list nat := foldr insert_desc [] l.

(** The body of the deletion loop of [delete] for one slot. *)
Definition delete_at (idx : nat) : M t unit :=
  row <- getrow idx ;;
  s <- read ;;
  for_each (Dict.keys (indexes s)) (fun col_name =>
    v <- lift (getitem col_name row) ;;
    on_index col_name (Index.remove v idx)) ;;;
  for_each (Dict.keys (indexes s)) (fun col_name =>
    on_index col_name (Index.adjust_for_deletion idx)) ;;;
  modify (fun s => set_rows (delete idx (rows s)) s).

(** [Table.delete] *)
Definition delete (conditions : option (dict string value)) : M t nat :=
  fun self =>
    match target_indices self conditions with
    | Raise e => (self, Raise e)
    | Ok indices =>
        (for_each (sort_reverse indices) delete_at ;;;
         ret (length indices)) self
    end.

End Table.

(** ** DatabaseEngine ([db/engine.py]) *)

Module DatabaseEngine.

Record t : Type := { tables : gmap string Table.t }.

(** [DatabaseEngine.__init__] *)
Definition init : t := {| tables := ∅ |}.

(** [DatabaseEngine._get_table] *)
Definition _get_table (self : t) (table_name : string) : result Table.t :=
  match tables self !! table_name with
  | Some table => Ok table
  | None => Raise SchemaError
  end.

(** [table = self._get_table(table_name); table.op(...)]: the table
    object registered under [table_name] is mutated in place. *)
Definition on_table {A} (table_name : string) (op : M Table.t A) : M t A :=
  fun self =>
    match _get_table self table_name with
    | Raise e => (self, Raise e)
    | Ok table =>
        let '(table', r) := op table in
        ({| tables := <[table_name := table']> (tables self) |}, r)
    end.

(** [DatabaseEngine.create_table] *)
Definition create_table (table_name : string) (columns : list Column.t)
    : M t unit := fun self =>
  match tables self !! table_name with
  | Some _ => (self, Raise SchemaError)
  | None =>
      match Table.init table_name columns with
      | Raise e => (self, Raise e)
      | Ok table => ({| tables := <[table_name := table]> (tables self) |}, Ok tt)
      end
  end.

(** [{col: row[col] for col in columns if col in row}] *)
Definition project (columns : list string) (row : dict string value)
    : dict string value :=
  fold_left
    (fun d col =>
       match Dict.get col row with
       | Some v => Dict.set col v d
       | None => d
       end)
    columns [].

(** [DatabaseEngine.select_from] *)
Definition select_from (table_name : string) (columns : option (list string))
    (where_ : option (dict string value)) : M t (list (dict string value)) :=
  fun self =>
    match _get_table self table_name with
    | Raise e => (self, Raise e)
    | Ok table =>
        match Table.select table where_ with
        | Raise e => (self, Raise e)
        | Ok rows =>
            match columns with
            | Some ((_ :: _) as cols) => (self, Ok (map (project cols) rows))
            | _ => (self, Ok rows)
            end
        end
    end.

(** [DatabaseEngine.drop_table] *)
Definition drop_table (table_name : string) : M t unit := fun self =>
  match tables self !! table_name with
  | None => (self, Raise SchemaError)
  | Some _ => ({| tables := delete table_name (tables self) |}, Ok tt)
  end.

Section methods.
Context `{IntOfStr}.

(** [DatabaseEngine.insert_into] *)
Definition insert_into (table_name : string) (values : list value) : M t unit :=
  on_table table_name (Table.insert values).

(** [DatabaseEngine.update_table] *)
Definition update_table (table_name : string) (updates : dict string value)
    (where_ : option (dict string value)) : M t nat :=
  on_table table_name (Table.update updates where_).

End methods.

(** [DatabaseEngine.delete_from] *)
Definition delete_from (table_name : string)
    (where_ : option (dict string value)) : M t nat :=
  on_table table_name (Table.delete where_).

(** The entry of one table in the result of [get_table_info]:
    [{"columns": [...], "row_count": n}] *)
Record table_info : Type := {
  info_columns : list string;
  row_count : nat
}.

(** [DatabaseEngine.get_table_info]; the result as a mapping from table
    names. *)
Definition get_table_info (self : t) : gmap string table_info :=
  (fun table =>
     {| info_columns := map Column.repr (Table.columns table);
        row_count := length (Table.rows table) |}) <$> tables self.

End DatabaseEngine.

(** ** A concrete [int] for closed examples

    ASCII decimal numerals with an optional sign are read as Python's
    [int] reads them; every other string is refused.  (Python's [int]
    also accepts surrounding blanks, underscores between digits and
    non-ASCII digits; the examples use none of these.) *)

Definition digit_of_ascii (c : ascii) : option Z :=
  let n := Ascii.nat_of_ascii c in
  if decide (48 <= n <= 57) then Some (Z.of_nat (n - 48)) else None.

Fixpoint digits_value (s : string) (acc : Z) : option Z :=
  match s with
  | EmptyString => Some acc
  | String c rest =>
      match digit_of_ascii c with
      | Some d => digits_value rest (10 * acc + d)%Z
      | None => None
      end
  end.

Definition decimal_int_of_str : IntOfStr := fun s =>
  match s with
  | EmptyString => None
  | String c rest =>
      if decide (c = "-"%char) then
        if decide (rest = "") then None else Z.opp <$> digits_value rest 0%Z
      else if decide (c = "+"%char) then
        if decide (rest = "") then None else digits_value rest 0%Z
      else digits_value s 0%Z
  end.

(** ** Well-formedness and the index invariant of the data model *)

(** The values of [values] validate, column by column, to [ws]. *)
Definition validates `{IntOfStr} (cols : list Column.t) (values ws : list value)
    : Prop :=
  Forall2 (fun cv w => Column.validate_value cv.1 cv.2 = Ok w) (zip cols values) ws
  /\ length values = length cols.

(** The row [insert] builds from validated values. *)
Definition make_row (cols : list Column.t) (ws : list value)
    (row : dict string value) : dict string value :=
  fold_left (fun r cw => Dict.set (Column.name cw.1) cw.2 r) (zip cols ws) row.

(** Column names are unique within the table, and the table holds one
    index per primary-key or unique column, as [Table.__init__] builds
    them. *)
Definition schema_ok (t : Table.t) : Prop :=
  NoDup (map Column.name (Table.columns t))
  /\ Dict.keys (Table.indexes t)
     = map Column.name (filter (fun c => Column.indexed c = true) (Table.columns t)).

(** Every stored row has exactly the table's columns as keys. *)
Definition rows_ok (t : Table.t) : Prop :=
  Forall (fun row => Dict.keys row = map Column.name (Table.columns t)) (Table.rows t).

(** The invariant of an index over the row store: one entry per row,
    mapping that row's value of the column to that row's slot; the
    reverse dictionary is the inverse of the forward one; every row has
    the column. *)
Definition index_inv (rs : list (dict string value)) (col_name : string)
    (index : Index.t) : Prop :=
  Dict.wf (Index._index index)
  /\ Dict.wf (Index._reverse_index index)
  /\ (forall v s, Dict.get v (Index._index index) = Some s <->
                  exists row, rs !! s = Some row /\ Dict.get col_name row = Some v)
  /\ (forall s v, Dict.get s (Index._reverse_index index) = Some v <->
                  Dict.get v (Index._index index) = Some s)
  /\ Forall (fun row => is_Some (Dict.get col_name row)) rs.

Definition table_inv (t : Table.t) : Prop :=
  schema_ok t /\ rows_ok t
  /\ forall col_name index,
       Dict.get col_name (Table.indexes t) = Some index ->
       index_inv (Table.rows t) col_name index.

(** The index after [Index.add] has recorded [v] at [slot]. *)
Definition index_added (v : value) (slot : nat) (index : Index.t) : Index.t :=
  {| Index.column_name := Index.column_name index;
     Index._index := Dict.set v slot (Index._index index);
     Index._reverse_index := Dict.set slot v (Index._reverse_index index) |}.

(** The slot of a surviving row once the row at [p] is gone. *)
Definition shifted (p s : nat) : nat := if decide (p < s) then s - 1 else s.

(** The specification's reference for [select] on one condition: a full
    scan of the row store keeping the rows [r] with [r[C] == v]. *)
Definition full_scan_filter (rs : list (dict string value)) (C : string)
    (v : value) : list (dict string value) :=
  filter (fun r => Dict.get C r = Some v) rs.

(** The table [insert] leaves on success: [row] stored at the next free
    slot and recorded, in every index, under its value of that index's
    column. *)
Definition inserted (row : dict string value) (t : Table.t) : Table.t :=
  {| Table.name := Table.name t;
     Table.columns := Table.columns t;
     Table.rows := Table.rows t ++ [row];
     Table.indexes :=
       map (fun ki => (ki.1, index_added (Table.row_get row ki.1)
                                         (length (Table.rows t)) ki.2))
           (Table.indexes t) |}.

(** The table the deletion loop of [delete] leaves after its body ran
    for slot [p], which held [row]: the row is gone from the store and
    every index has dropped the row's entry and renumbered the slots
    after [p]. *)
Definition deleted_at (p : nat) (row : dict string value) (t : Table.t) : Table.t :=
  {| Table.name := Table.name t;
     Table.columns := Table.columns t;
     Table.rows := delete p (Table.rows t);
     Table.indexes :=
       map (fun ki =>
              (ki.1, (Index.adjust_for_deletion p
                        (Index.remove (Table.row_get row ki.1) p ki.2).1).1))
           (Table.indexes t) |}.

(** The invariant of an index while the apply loop of [update] works on
    slot [idx] and has called [remove] but not yet [add] for the index's
    column: as [index_inv], with the entry of slot [idx] taken out. *)
Definition index_hole (rs : list (dict string value)) (col_name : string)
    (index : Index.t) (idx : nat) : Prop :=
  Dict.wf (Index._index index)
  /\ Dict.wf (Index._reverse_index index)
  /\ (forall v s, Dict.get v (Index._index index) = Some s <->
                  s <> idx
                  /\ exists row, rs !! s = Some row /\ Dict.get col_name row = Some v)
  /\ (forall s v, Dict.get s (Index._reverse_index index) = Some v <->
                  Dict.get v (Index._index index) = Some s)
  /\ Forall (fun row => is_Some (Dict.get col_name row)) rs.

(** The table inside the apply loop of [update] for slot [idx]: the
    indexes of the columns in [pending] lack their entry for [idx], the
    other indexes hold the invariant. *)
Definition table_inv_pending (idx : nat) (pending : list string) (t : Table.t)
    : Prop :=
  schema_ok t /\ rows_ok t /\ is_Some (Table.rows t !! idx)
  /\ forall col_name index,
       Dict.get col_name (Table.indexes t) = Some index ->
       if decide (col_name ∈ pending)
       then index_hole (Table.rows t) col_name index idx
       else index_inv (Table.rows t) col_name index.

(** ** Operation sequences on one table *)

Inductive op : Type :=
| OpInsert (values : list value)
| OpUpdate (updates : dict string value) (conditions : option (dict string value))
| OpDelete (conditions : option (dict string value)).

(** The table after one operation, whether it returned or raised. *)
Definition run_op `{IntOfStr} (o : op) (t : Table.t) : Table.t :=
  match o with
  | OpInsert values => (Table.insert values t).1
  | OpUpdate updates conditions => (Table.update updates conditions t).1
  | OpDelete conditions => (Table.delete conditions t).1
  end.

Definition run_ops `{IntOfStr} (ops : list op) (t : Table.t) : Table.t :=
  fold_left (fun t o => run_op o t) ops t.

(** The tables reached from a new table by [insert], [delete] (failed
    calls included) and by [update] calls that return. *)
Inductive reachable `{IntOfStr} : Table.t -> Prop :=
| reachable_init name cols t :
    NoDup (map Column.name cols) ->
    Table.init name cols = Ok t -> reachable t
| reachable_insert values t :
    reachable t -> reachable (Table.insert values t).1
| reachable_delete conditions t :
    reachable t -> reachable (Table.delete conditions t).1
| reachable_update updates conditions t t' n :
    reachable t -> Dict.wf updates ->
    Table.update updates conditions t = (t', Ok n) -> reachable t'.

(** ** Row objects and aliasing

    [select] hands Python objects to its caller.  To tell a returned row
    that is the stored row object from a copy of it, the rows live in a
    store of objects ([Heap]); the table's row list and the result of
    [select] are lists of references into it. *)

Module Heap.

Abbreviation t := (list (list (string * value))).

(** A new dictionary object holding [row]; its reference is fresh. *)
Definition alloc (row : dict string value) (h : t) : t * nat :=
  (h ++ [row], length h).

(** [obj[k] = v] on the object at [l] *)
Definition setitem (l : nat) (k : string) (v : value) (h : t) : t :=
  alter (Dict.set k v) l h.

(** The values of the objects a list of references points to. *)
Definition view (h : t) (refs : list nat) : list (dict string value) :=
  omap (fun l => h !! l) refs.

End Heap.

Module ObjTable.

(** The part of a [Table] object that [select] reads: [self.rows] as a
    list of references to row objects, and [self.indexes]. *)
Record t : Type := {
  rows : list nat;
  indexes : dict string Index.t
}.

(** The scan loop of [select]: [results.append(row.copy())] allocates
    a new object per matching row.  (A reference of the row list always
    points to an object; [IndexError] stands for the impossible case.) *)
Fixpoint scan (refs : list nat) (conditions : dict string value)
    : M Heap.t (list nat) := fun h =>
  match refs with
  | [] => (h, Ok [])
  | l :: rest =>
      match h !! l with
      | None => (h, Raise IndexError)
      | Some row =>
          if Table.row_matches conditions row then
            let '(h1, l') := Heap.alloc row h in
            match scan rest conditions h1 with
            | (h2, Ok ls) => (h2, Ok (l' :: ls))
            | (h2, Raise e) => (h2, Raise e)
            end
          else scan rest conditions h
      end
  end.

(** [Table.select] on objects.  [self.rows.copy()] is a new list of the
    same references; [self.rows[idx].copy()] and [row.copy()] are new
    objects. *)
Definition select (self : t) (conditions : option (dict string value))
    : M Heap.t (list nat) := fun h =>
  match conditions with
  | None | Some [] => (h, Ok (rows self))
  | Some ([(col_name, v)] as conds) =>
      match Dict.get col_name (indexes self) with
      | Some index =>
          match Index.get index v with
          | Some idx =>
              match rows self !! idx with
              | Some l =>
                  match h !! l with
                  | Some row => let '(h1, l') := Heap.alloc row h in (h1, Ok [l'])
                  | None => (h, Raise IndexError)
                  end
              | None => (h, Raise IndexError)
              end
          | None => (h, Ok [])
          end
      | None => scan (rows self) conds h
      end
  | Some conds => scan (rows self) conds h
  end.

(** The table of values an object table stands for. *)
Definition to_table (name : string) (columns : list Column.t) (h : Heap.t)
    (self : t) : Table.t :=
  {| Table.name := name; Table.columns := columns;
     Table.rows := Heap.view h (rows self); Table.indexes := indexes self |}.

End ObjTable.

(** ** Reference notions for conditions, slots and types *)

(** The conditions a call passes; [None] is no condition. *)
Definition where_list (conditions : option (dict string value))
    : dict string value :=
  default [] conditions.

(** Every condition holds of the row, under [row.get(col) == value]. *)
Definition row_satisfies (conditions : dict string value)
    (row : dict string value) : Prop :=
  Forall (fun cv => Table.row_get row cv.1 = cv.2) conditions.

#[global] Instance row_satisfies_dec conditions row :
  Decision (row_satisfies conditions row).
Proof. unfold row_satisfies. apply _. Defined.

(** The slots, counted from [i], of the rows of [rs] that satisfy [P],
    in ascending order. *)
Fixpoint slots_of (P : dict string value -> Prop) `{forall r, Decision (P r)}
    (rs : list (dict string value)) (i : nat) : list nat :=
  match rs with
  | [] => []
  | r :: rest =>
      if decide (P r) then i :: slots_of P rest (S i) else slots_of P rest (S i)
  end.

(** The rows of [rs] are dictionaries over the keys [ks]. *)
Definition rows_over (ks : list string) (rs : list (dict string value)) : Prop :=
  NoDup ks /\ Forall (fun r => Dict.keys r = ks) rs.

(** A list of slots in descending order, as [sort(reverse=True)] leaves
    it. *)
Fixpoint descending (l : list nat) : Prop :=
  match l with
  | [] => True
  | x :: l' => Forall (fun y => y <= x) l' /\ descending l'
  end.

(** A value a column of type [d] may hold: [None], an [int] in an [INT]
    column, a [str] in a [TEXT] column. *)
Definition value_typed (d : DataType) (w : value) : Prop :=
  match w, d with
  | VNone, _ => True
  | VInt _, INT => True
  | VStr _, TEXT => True
  | _, _ => False
  end.

(** Every stored value has the type of the column [column_dict] knows
    under its key. *)
Definition rows_typed (t : Table.t) : Prop :=
  forall row C w col,
    row ∈ Table.rows t -> Dict.get C row = Some w ->
    Dict.get C (Table.column_dict t) = Some col ->
    value_typed (Column.data_type col) w.

(** A table over the columns [cols] whose stored values are typed. *)
Definition typed_table (cols : list Column.t) (t : Table.t) : Prop :=
  Table.columns t = cols /\ rows_typed t.

(** The row the apply loop of [update] leaves for one target when every
    assignment validates: each assigned column holds its validated
    value. *)
Definition written `{IntOfStr} (t : Table.t) (updates : dict string value)
    (row : dict string value) : dict string value :=
  fold_left
    (fun r cv =>
       match Dict.get cv.1 (Table.column_dict t) with
       | Some col =>
           match Column.validate_value col cv.2 with
           | Ok w => Dict.set cv.1 w r
           | Raise _ => r
           end
       | None => r
       end)
    updates row.

(** An assignment list that only names plain (not indexed) columns the
    table declares, with values that validate. *)
Definition plain_updates `{IntOfStr} (t : Table.t) (updates : dict string value)
    : Prop :=
  Forall (fun cv =>
            Dict.get cv.1 (Table.indexes t) = None
            /\ exists col w, Dict.get cv.1 (Table.column_dict t) = Some col
                             /\ Column.validate_value col cv.2 = Ok w)
         updates.

(** An assignment list [update] can apply to the row at slot [idx]: every
    assigned column is declared, every value validates, and no other row
    holds the validated value of an assigned indexed column. *)
Definition applicable_updates `{IntOfStr} (t : Table.t) (idx : nat)
    (updates : dict string value) : Prop :=
  Forall (fun cv =>
            exists col w,
              Dict.get cv.1 (Table.column_dict t) = Some col
              /\ Column.validate_value col cv.2 = Ok w
              /\ (is_Some (Dict.get cv.1 (Table.indexes t)) ->
                  forall s row, s <> idx -> Table.rows t !! s = Some row ->
                                Dict.get cv.1 row <> Some w))
         updates.

(** ** Concrete tables used by the closed examples *)

Definition example_columns : list Column.t :=
  [Column.init "id" INT true false; Column.init "age" INT false false].

Definition example_empty : Table.t :=
  {| Table.name := "t"; Table.columns := example_columns;
     Table.rows := [];
     Table.indexes := [("id", Index.init "id")] |}.

(** [example_empty] after [insert([1, 10])] and [insert([2, 20])]. *)
Definition example_table : Table.t :=
  {| Table.name := "t"; Table.columns := example_columns;
     Table.rows := [[("id", VInt 1); ("age", VInt 10)];
                    [("id", VInt 2); ("age", VInt 20)]];
     Table.indexes :=
       [("id", {| Index.column_name := "id";
                  Index._index := [(VInt 1, 0); (VInt 2, 1)];
                  Index._reverse_index := [(0, VInt 1); (1, VInt 2)] |})] |}.

(** The same two rows as objects at references 0 and 1. *)
Definition example_heap : Heap.t :=
  [[("id", VInt 1); ("age", VInt 10)]; [("id", VInt 2); ("age", VInt 20)]].

Definition example_obj_table : ObjTable.t :=
  {| ObjTable.rows := [0; 1]; ObjTable.indexes := Table.indexes example_table |}.

(** [example_table] after [update({"id": 5})] raised: both rows carry
    [id = 5] and the index knows one of them. *)
Definition example_corrupt : Table.t :=
  {| Table.name := "t"; Table.columns := example_columns;
     Table.rows := [[("id", VInt 5); ("age", VInt 10)];
                    [("id", VInt 5); ("age", VInt 20)]];
     Table.indexes :=
       [("id", {| Index.column_name := "id";
                  Index._index := [(VInt 5, 0)];
                  Index._reverse_index := [(0, VInt 5)] |})] |}.

(** [example_table] after [update({"id": 7, "age": "abc"}, {"id": 1})]
    raised: row 0 and the index carry the new [id]. *)
Definition example_half_updated : Table.t :=
  {| Table.name := "t"; Table.columns := example_columns;
     Table.rows := [[("id", VInt 7); ("age", VInt 10)];
                    [("id", VInt 2); ("age", VInt 20)]];
     Table.indexes :=
       [("id", {| Index.column_name := "id";
                  Index._index := [(VInt 2, 1); (VInt 7, 0)];
                  Index._reverse_index := [(1, VInt 2); (0, VInt 7)] |})] |}.

(** [example_table] after [update({"age": "abc", "id": 7})] raised: the
    rows are as before and the index has lost the entry of row 0. *)
Definition example_stale : Table.t :=
  {| Table.name := "t"; Table.columns := example_columns;
     Table.rows := [[("id", VInt 1); ("age", VInt 10)];
                    [("id", VInt 2); ("age", VInt 20)]];
     Table.indexes :=
       [("id", {| Index.column_name := "id";
                  Index._index := [(VInt 2, 1)];
                  Index._reverse_index := [(1, VInt 2)] |})] |}.

(** [example_stale] after [insert([1, 99])] returned: two rows carry
    [id = 1]. *)
Definition example_doubled : Table.t :=
  {| Table.name := "t"; Table.columns := example_columns;
     Table.rows := [[("id", VInt 1); ("age", VInt 10)];
                    [("id", VInt 2); ("age", VInt 20)];
                    [("id", VInt 1); ("age", VInt 99)]];
     Table.indexes :=
       [("id", {| Index.column_name := "id";
                  Index._index := [(VInt 2, 1); (VInt 1, 2)];
                  Index._reverse_index := [(1, VInt 2); (2, VInt 1)] |})] |}.

(** [example_corrupt] after [delete({"id": 5})] returned: the row that
    stays has no index entry. *)
Definition example_orphaned : Table.t :=
  {| Table.name := "t"; Table.columns := example_columns;
     Table.rows := [[("id", VInt 5); ("age", VInt 20)]];
     Table.indexes :=
       [("id", {| Index.column_name := "id";
                  Index._index := [];
                  Index._reverse_index := [] |})] |}.

(** The scenario of the specification: [users(id INT PRIMARY KEY, email
    TEXT UNIQUE, name TEXT)] with the rows [(1, 'a@x.com', 'A')] and
    [(2, 'b@x.com', 'B')], driven through the engine. *)
Definition users_columns : list Column.t :=
  [Column.init "id" INT true false; Column.init "email" TEXT false true;
   Column.init "name" TEXT false false].

Definition users_engine : DatabaseEngine.t :=
  let e1 := (DatabaseEngine.create_table "users" users_columns
               DatabaseEngine.init).1 in
  let e2 := (@DatabaseEngine.insert_into decimal_int_of_str "users"
               [VInt 1; VStr "a@x.com"; VStr "A"] e1).1 in
  (@DatabaseEngine.insert_into decimal_int_of_str "users"
     [VInt 2; VStr "b@x.com"; VStr "B"] e2).1.

Definition users_renamed : DatabaseEngine.t :=
  (@DatabaseEngine.update_table decimal_int_of_str "users"
     [("name", VStr "A2")] (Some [("id", VInt 1)]) users_engine).1.

Definition users_deleted : DatabaseEngine.t :=
  (DatabaseEngine.delete_from "users" (Some [("id", VInt 1)]) users_renamed).1.

(** A table without key that stores the same row twice. *)
Definition example_bag : Table.t :=
  {| Table.name := "bag"; Table.columns := [Column.init "age" INT false false];
     Table.rows := [[("age", VInt 10)]; [("age", VInt 20)]; [("age", VInt 10)]];
     Table.indexes := [] |}.

(** The index of [id] in [example_table]. *)
Definition example_index : Index.t :=
  {| Index.column_name := "id";
     Index._index := [(VInt 1, 0); (VInt 2, 1)];
     Index._reverse_index := [(0, VInt 1); (1, VInt 2)] |}.

(** A catalog of two tables. *)
Definition example_engine : DatabaseEngine.t :=
  {| DatabaseEngine.tables :=
       <["users" := example_table]> (<["orders" := example_empty]> ∅) |}.

(** * Properties *)

(** ** Dictionaries *)

Section dict_facts.
Context {K V : Type} `{EqDecision K}.
Implicit Types (k : K) (v : V) (d : list (K * V)).

Lemma dict_get_set_eq k v d : Dict.get k (Dict.set k v d) = Some v.
Proof.
  induction d as [|[k' v'] d IH]; simpl.
  - by rewrite decide_True.
  - destruct (decide (k = k')) as [->|Hne]; simpl.
    + by rewrite decide_True.
    + by rewrite decide_False.
Qed.

Lemma dict_get_set_ne k k' v d :
  k <> k' -> Dict.get k' (Dict.set k v d) = Dict.get k' d.
Proof.
  intros Hne. induction d as [|[k0 v0] d IH]; simpl.
  - rewrite decide_False; [done | congruence].
  - destruct (decide (k = k0)) as [->|Hne0]; simpl.
    + rewrite !decide_False; [done | congruence | congruence].
    + destruct (decide (k' = k0)); [done | apply IH].
Qed.

Lemma dict_get_set k k' v d :
  Dict.get k' (Dict.set k v d)
  = if decide (k = k') then Some v else Dict.get k' d.
Proof.
  destruct (decide (k = k')) as [->|Hne].
  - apply dict_get_set_eq.
  - by apply dict_get_set_ne.
Qed.

Lemma dict_get_del_eq k d : Dict.get k (Dict.del k d) = None.
Proof.
  induction d as [|[k' v'] d IH]; simpl; [done |].
  destruct (decide (k = k')) as [->|Hne]; simpl; [done |].
  by rewrite decide_False.
Qed.

Lemma dict_get_del_ne k k' d :
  k <> k' -> Dict.get k' (Dict.del k d) = Dict.get k' d.
Proof.
  intros Hne. induction d as [|[k0 v0] d IH]; simpl; [done |].
  destruct (decide (k = k0)) as [->|Hne0]; simpl.
  - rewrite decide_False; [done | congruence].
  - destruct (decide (k' = k0)); [done | apply IH].
Qed.

Lemma dict_mem_true k d : Dict.mem k d = true <-> is_Some (Dict.get k d).
Proof.
  unfold Dict.mem. destruct (Dict.get k d); split; intros Hx; try done.
Qed.

Lemma dict_mem_false k d : Dict.mem k d = false <-> Dict.get k d = None.
Proof. unfold Dict.mem. by destruct (Dict.get k d). Qed.

Lemma dict_get_Some_elem k v d : Dict.get k d = Some v -> (k, v) ∈ d.
Proof.
  induction d as [|[k' v'] d IH]; simpl; [done |].
  destruct (decide (k = k')) as [->|Hne].
  - intros [= ->]. apply list_elem_of_here.
  - intros Hg. apply list_elem_of_further. by apply IH.
Qed.

Lemma dict_get_None_keys k d : Dict.get k d = None <-> k ∉ Dict.keys d.
Proof.
  unfold Dict.keys. induction d as [|[k' v'] d IH]; simpl.
  - split; [intros _; apply not_elem_of_nil | done].
  - rewrite not_elem_of_cons. destruct (decide (k = k')) as [->|Hne].
    + split; [done | intros [Hx _]; done].
    + rewrite IH. tauto.
Qed.

Lemma dict_get_is_Some_keys k d : is_Some (Dict.get k d) <-> k ∈ Dict.keys d.
Proof.
  rewrite <- not_eq_None_Some, dict_get_None_keys.
  split; [apply dec_stable | auto].
Qed.

Lemma dict_elem_get k v d : Dict.wf d -> (k, v) ∈ d -> Dict.get k d = Some v.
Proof.
  unfold Dict.wf, Dict.keys.
  induction d as [|[k' v'] d IH]; simpl; intros Hwf Hin.
  - by apply elem_of_nil in Hin.
  - apply NoDup_cons in Hwf as [Hnotin Hwf].
    apply elem_of_cons in Hin as [[= -> ->]|Hin].
    + by rewrite decide_True.
    + rewrite decide_False; [by apply IH |].
      intros ->. apply Hnotin. apply list_elem_of_fmap. by exists (k', v).
Qed.

(** Overwriting a present key keeps every key at its place. *)
Lemma dict_keys_set_present k v d :
  k ∈ Dict.keys d -> Dict.keys (Dict.set k v d) = Dict.keys d.
Proof.
  unfold Dict.keys. induction d as [|[k' v'] d IH]; simpl; intros Hin.
  - by apply elem_of_nil in Hin.
  - destruct (decide (k = k')) as [->|Hne]; simpl; [done |].
    f_equal. apply IH. apply elem_of_cons in Hin as [?|?]; [done | done].
Qed.

(** A new key goes to the end. *)
Lemma dict_set_absent k v d : k ∉ Dict.keys d -> Dict.set k v d = d ++ [(k, v)].
Proof.
  unfold Dict.keys. induction d as [|[k' v'] d IH]; simpl; intros Hnotin; [done |].
  apply not_elem_of_cons in Hnotin as [Hne Hnotin].
  rewrite decide_False; [| done]. f_equal. by apply IH.
Qed.

Lemma dict_set_same k v d : Dict.get k d = Some v -> Dict.set k v d = d.
Proof.
  induction d as [|[k' v'] d IH]; simpl; [done |].
  destruct (decide (k = k')) as [->|Hne].
  - by intros [= ->].
  - intros Hg. f_equal. by apply IH.
Qed.

Lemma dict_del_absent k d : Dict.get k d = None -> Dict.del k d = d.
Proof.
  induction d as [|[k' v'] d IH]; simpl; [done |].
  destruct (decide (k = k')) as [->|Hne]; [done |].
  intros Hg. f_equal. by apply IH.
Qed.

Lemma dict_keys_del_subset k d k' :
  k' ∈ Dict.keys (Dict.del k d) -> k' ∈ Dict.keys d.
Proof.
  rewrite <- !dict_get_is_Some_keys.
  destruct (decide (k = k')) as [->|Hne].
  - rewrite dict_get_del_eq. by intros [? ?].
  - by rewrite dict_get_del_ne.
Qed.

Lemma dict_wf_del k d : Dict.wf d -> Dict.wf (Dict.del k d).
Proof.
  unfold Dict.wf, Dict.keys.
  induction d as [|[k' v'] d IH]; simpl; intros Hwf; [done |].
  apply NoDup_cons in Hwf as [Hnotin Hwf].
  destruct (decide (k = k')) as [->|Hne]; [by apply IH |].
  simpl. apply NoDup_cons. split; [| by apply IH].
  intros Hin. apply Hnotin. by apply (dict_keys_del_subset k).
Qed.

Lemma dict_wf_set k v d : Dict.wf d -> Dict.wf (Dict.set k v d).
Proof.
  intros Hwf. destruct (decide (k ∈ Dict.keys d)) as [Hin|Hnotin].
  - unfold Dict.wf. by rewrite dict_keys_set_present.
  - rewrite dict_set_absent by done. unfold Dict.wf, Dict.keys.
    rewrite fmap_app. apply NoDup_app. split_and!; [done | | apply NoDup_singleton].
    intros x Hx Hx'. apply list_elem_of_singleton in Hx'. simpl in Hx'. by subst.
Qed.

End dict_facts.

(** ** Index *)

Lemma index_remove_ok (v : value) (slot : nat) (self : Index.t) :
  (Index.remove v slot self).2 = Ok tt.
Proof. done. Qed.

Lemma index_remove_get (v : value) (slot : nat) (self : Index.t) (v' : value) :
  Index.get (Index.remove v slot self).1 v'
  = if decide (v' = v /\ Index.get self v = Some slot) then None
    else Index.get self v'.
Proof.
  unfold Index.remove, Index.get. simpl.
  destruct (decide (v' = v /\ _)) as [[-> Hg]|Hn].
  - rewrite bool_decide_eq_true_2 by done. apply dict_get_del_eq.
  - case_bool_decide as Hg; [| done].
    apply dict_get_del_ne. intros ->. by apply Hn.
Qed.

Lemma index_remove_reverse_get (v : value) (slot : nat) (self : Index.t) (s : nat) :
  Dict.get s (Index._reverse_index (Index.remove v slot self).1)
  = if decide (s = slot) then None else Dict.get s (Index._reverse_index self).
Proof.
  unfold Index.remove. simpl.
  destruct (Dict.mem slot (Index._reverse_index self)) eqn:Hm.
  - destruct (decide (s = slot)) as [->|Hne].
    + apply dict_get_del_eq.
    + by apply dict_get_del_ne.
  - apply dict_mem_false in Hm. destruct (decide (s = slot)) as [->|Hne]; done.
Qed.

(** C7, amended: [Index.update(old_value, new_value, slot)] is
    [remove(old_value, slot)] followed by [add(new_value, slot)]; when
    [add] finds [new_value] already present, [update] raises the
    uniqueness error and leaves the index as [remove] left it: the
    reverse dictionary has no entry for [slot], and a forward entry maps
    to [slot] exactly for the values other than [old_value] that were
    indexed at [slot] before.  So no forward entry is left for [slot]
    exactly when no value other than [old_value] was indexed at [slot],
    as when [old_value] is the value the index holds for [slot]. *)
Theorem index_update_failure_drops_slot
    (old_value new_value : value) (slot : nat) (self : Index.t) :
  Index.contains (Index.remove old_value slot self).1 new_value = true ->
  let after := (Index.update old_value new_value slot self).1 in
  Index.update old_value new_value slot self
    = Index.add new_value slot (Index.remove old_value slot self).1
  /\ Index.update old_value new_value slot self
     = ((Index.remove old_value slot self).1, Raise ConstraintViolation)
  /\ Dict.get slot (Index._reverse_index after) = None
  /\ (forall v, Index.get after v = Some slot
                <-> Index.get self v = Some slot /\ v <> old_value)
  /\ ((forall v, Index.get after v <> Some slot)
      <-> (forall v, Index.get self v = Some slot -> v = old_value)).
Proof.
  intros Hdup after.
  assert (Hupd : Index.update old_value new_value slot self
                 = Index.add new_value slot (Index.remove old_value slot self).1).
  { done. }
  assert (Hraise : Index.add new_value slot (Index.remove old_value slot self).1
                   = ((Index.remove old_value slot self).1, Raise ConstraintViolation)).
  { unfold Index.add. unfold Index.contains in Hdup. by rewrite Hdup. }
  assert (Hafter : after = (Index.remove old_value slot self).1).
  { unfold after. by rewrite Hupd, Hraise. }
  assert (Hfwd : forall v, Index.get after v = Some slot
                           <-> Index.get self v = Some slot /\ v <> old_value).
  { intros v. rewrite Hafter, index_remove_get.
    destruct (decide (v = old_value /\ Index.get self old_value = Some slot))
      as [[-> Hg]|Hn].
    - split; [done | by intros [_ ?]].
    - split.
      + intros Hg. split; [done |]. intros ->. by apply Hn.
      + by intros [? _]. }
  split_and!; [done | by rewrite Hupd | | done |].
  - rewrite Hafter, index_remove_reverse_get. by rewrite decide_True.
  - split.
    + intros Hnone v Hg. destruct (decide (v = old_value)) as [|Hne]; [done |].
      destruct (Hnone v). by apply Hfwd.
    + intros Honly v Hg. apply Hfwd in Hg as [Hg Hne]. by apply Hne, Honly.
Qed.

Lemma index_update_failure_drops_slot_witness :
  Index.update (VInt 1) (VInt 2) 0 example_index
  = ({| Index.column_name := "id";
        Index._index := [(VInt 2, 1)];
        Index._reverse_index := [(1, VInt 2)] |}, Raise ConstraintViolation)
  /\ forall v, Index.get (Index.update (VInt 1) (VInt 2) 0 example_index).1 v
               <> Some 0.
Proof.
  destruct (index_update_failure_drops_slot (VInt 1) (VInt 2) 0 example_index
              eq_refl) as (_ & Hupd & _ & _ & Hnone).
  split; [exact Hupd |]. apply Hnone.
  intros v. unfold Index.get. simpl.
  repeat case_decide; intros; simplify_eq; done.
Defined.

(** The claim without its restriction fails: [remove] guards the forward
    entry against a stale caller, so with an [old_value] the index does
    not hold for [slot], [add] can fail on a present [new_value] while
    the forward entry of [slot] is still there. *)
Lemma index_update_failure_keeps_stale_entry :
  Index.contains (Index.remove (VInt 3) 0 example_index).1 (VInt 2) = true
  /\ (Index.update (VInt 3) (VInt 2) 0 example_index).2 = Raise ConstraintViolation
  /\ Index.get (Index.update (VInt 3) (VInt 2) 0 example_index).1 (VInt 1) = Some 0
  /\ ~ (forall v, Index.get (Index.update (VInt 3) (VInt 2) 0 example_index).1 v
                  <> Some 0).
Proof.
  split_and!; [done | done | done |]. intros Hnone. by apply (Hnone (VInt 1)).
Qed.

(** The index that call leaves: the forward entry of [slot] outlives the
    failed [update], the reverse entry does not. *)
Example index_update_stale_old_value :
  Index.update (VInt 3) (VInt 2) 0
    {| Index.column_name := "id";
       Index._index := [(VInt 1, 0); (VInt 2, 1)];
       Index._reverse_index := [(0, VInt 1); (1, VInt 2)] |}
  = ({| Index.column_name := "id";
        Index._index := [(VInt 1, 0); (VInt 2, 1)];
        Index._reverse_index := [(1, VInt 2)] |}, Raise ConstraintViolation).
Proof. reflexivity. Qed.

(** ** Engine *)

Lemma on_table_frame {A} (table_name other : string) (op : M Table.t A)
    (e : DatabaseEngine.t) :
  other <> table_name ->
  DatabaseEngine.tables (DatabaseEngine.on_table table_name op e).1 !! other
  = DatabaseEngine.tables e !! other.
Proof.
  intros Hne. unfold DatabaseEngine.on_table, DatabaseEngine._get_table.
  destruct (DatabaseEngine.tables e !! table_name) as [tb|]; [| done].
  destruct (op tb) as [tb' r]. simpl. by rewrite lookup_insert_ne.
Qed.

Section engine_facts.
Context `{IntOfStr}.

(** C10: an engine operation that targets the table named [table_name]
    leaves the catalog entry of every other table as it was (same
    columns, rows and indexes), whether the operation returns or
    raises. *)
Theorem engine_frame (e : DatabaseEngine.t) (table_name other : string) :
  other <> table_name ->
  (forall values,
      DatabaseEngine.tables (DatabaseEngine.insert_into table_name values e).1 !! other
      = DatabaseEngine.tables e !! other)
  /\ (forall columns where_,
      DatabaseEngine.tables
        (DatabaseEngine.select_from table_name columns where_ e).1 !! other
      = DatabaseEngine.tables e !! other)
  /\ (forall updates where_,
      DatabaseEngine.tables
        (DatabaseEngine.update_table table_name updates where_ e).1 !! other
      = DatabaseEngine.tables e !! other)
  /\ (forall where_,
      DatabaseEngine.tables (DatabaseEngine.delete_from table_name where_ e).1 !! other
      = DatabaseEngine.tables e !! other)
  /\ DatabaseEngine.tables (DatabaseEngine.drop_table table_name e).1 !! other
     = DatabaseEngine.tables e !! other.
Proof.
  intros Hne. split_and!.
  - intros values. by apply on_table_frame.
  - intros columns where_. unfold DatabaseEngine.select_from.
    destruct (DatabaseEngine._get_table e table_name) as [tb|err]; [| done].
    destruct (Table.select tb where_) as [rs|err]; [| done].
    by destruct columns as [[|c cols]|].
  - intros updates where_. by apply on_table_frame.
  - intros where_. by apply on_table_frame.
  - unfold DatabaseEngine.drop_table.
    destruct (DatabaseEngine.tables e !! table_name); [| done].
    simpl. by rewrite lookup_delete_ne.
Qed.

End engine_facts.

(** ** More on dictionaries: concatenation *)

Section dict_app.
Context {K V : Type} `{EqDecision K}.
Implicit Types (k : K) (v : V) (d : list (K * V)).

Lemma dict_get_app k d1 d2 :
  Dict.get k (d1 ++ d2)
  = match Dict.get k d1 with Some v => Some v | None => Dict.get k d2 end.
Proof.
  induction d1 as [|[k' v'] d1 IH]; simpl; [done |].
  by destruct (decide (k = k')).
Qed.

Lemma dict_set_app_absent k v d1 d2 :
  k ∉ Dict.keys d1 -> Dict.set k v (d1 ++ d2) = d1 ++ Dict.set k v d2.
Proof.
  unfold Dict.keys. induction d1 as [|[k' v'] d1 IH]; simpl; intros Hn; [done |].
  apply not_elem_of_cons in Hn as [Hne Hn].
  rewrite decide_False by done. f_equal. by apply IH.
Qed.

Lemma dict_keys_app d1 d2 : Dict.keys (d1 ++ d2) = Dict.keys d1 ++ Dict.keys d2.
Proof. unfold Dict.keys. apply fmap_app. Qed.

Lemma dict_get_map_values {W} (f : K -> V -> W) k d :
  Dict.get k (map (fun kv => (kv.1, f kv.1 kv.2)) d) = f k <$> Dict.get k d.
Proof.
  induction d as [|[k' v'] d IH]; simpl; [done |].
  by destruct (decide (k = k')) as [->|Hne].
Qed.

Lemma dict_keys_map_values {W} (f : K -> V -> W) d :
  Dict.keys (map (fun kv => (kv.1, f kv.1 kv.2)) d) = Dict.keys d.
Proof. unfold Dict.keys. induction d as [|[k' v'] d IH]; simpl; [done | by f_equal]. Qed.

End dict_app.

(** ** Loops over the table's indexes *)

(** A loop [for col_name, index in self.indexes.items()] whose body
    replaces the index under [col_name] by [f col_name index] rewrites
    every index of the table, in place. *)
Lemma for_each_keys_on_index (f : string -> Index.t -> Index.t)
    (body : string -> M Table.t unit) (s0 : Table.t) :
  forall post pre,
    NoDup (Dict.keys (pre ++ post)) ->
    (forall ixs k i,
        (k, i) ∈ post -> Dict.get k ixs = Some i ->
        body k (Table.set_indexes ixs s0)
        = (Table.set_indexes (Dict.set k (f k i) ixs) s0, Ok tt)) ->
    for_each (Dict.keys post) body (Table.set_indexes (pre ++ post) s0)
    = (Table.set_indexes (pre ++ map (fun ki => (ki.1, f ki.1 ki.2)) post) s0, Ok tt).
Proof.
  induction post as [|[k i] post IH]; intros pre Hnd Hbody; simpl.
  - done.
  - rewrite dict_keys_app in Hnd. simpl in Hnd.
    assert (Hk : k ∉ Dict.keys pre).
    { apply NoDup_app in Hnd as (_ & Hdisj & _). intros Hin.
      apply (Hdisj _ Hin). apply list_elem_of_here. }
    unfold bind at 1.
    rewrite (Hbody _ k i); [| apply list_elem_of_here |]; last first.
    { rewrite dict_get_app. apply dict_get_None_keys in Hk. rewrite Hk.
      simpl. by rewrite decide_True. }
    rewrite dict_set_app_absent by done. simpl. rewrite decide_True by done.
    replace (pre ++ (k, f k i) :: post) with ((pre ++ [(k, f k i)]) ++ post)
      by (by rewrite <- app_assoc).
    rewrite IH.
    + by rewrite <- app_assoc.
    + rewrite !dict_keys_app. simpl. by rewrite <- app_assoc.
    + intros ixs k' i' Hin Hg. apply Hbody; [by apply list_elem_of_further | done].
Qed.

Lemma for_each_indexes (f : string -> Index.t -> Index.t)
    (body : string -> M Table.t unit) (s : Table.t) :
  Dict.wf (Table.indexes s) ->
  (forall ixs k i,
      (k, i) ∈ Table.indexes s -> Dict.get k ixs = Some i ->
      body k (Table.set_indexes ixs s)
      = (Table.set_indexes (Dict.set k (f k i) ixs) s, Ok tt)) ->
  for_each (Dict.keys (Table.indexes s)) body s
  = (Table.set_indexes (map (fun ki => (ki.1, f ki.1 ki.2)) (Table.indexes s)) s, Ok tt).
Proof.
  intros Hwf Hbody.
  pose proof (for_each_keys_on_index f body s (Table.indexes s) [] Hwf Hbody) as Hloop.
  simpl in Hloop. by destruct s.
Qed.

(** ** Insert *)

Lemma make_row_get_other (cols : list Column.t) (ws : list value)
    (row0 : dict string value) (k : string) :
  k ∉ map Column.name cols ->
  Dict.get k (make_row cols ws row0) = Dict.get k row0.
Proof.
  unfold make_row. revert ws row0.
  induction cols as [|c cols IH]; intros [|w ws] row0 Hk; simpl; try done.
  simpl in Hk. apply not_elem_of_cons in Hk as [Hne Hk].
  rewrite IH by done. by apply dict_get_set_ne.
Qed.

Lemma make_row_get (cols : list Column.t) (ws : list value)
    (row0 : dict string value) (j : nat) (c : Column.t) (w : value) :
  NoDup (map Column.name cols) ->
  cols !! j = Some c -> ws !! j = Some w ->
  Dict.get (Column.name c) (make_row cols ws row0) = Some w.
Proof.
  revert ws row0 j.
  induction cols as [|c0 cols IH]; intros [|w0 ws] row0 j Hnd Hc Hw; try done.
  simpl in Hnd. apply NoDup_cons in Hnd as [Hnotin Hnd].
  destruct j as [|j]; simpl in *.
  - injection Hc as ->. injection Hw as ->.
    unfold make_row. simpl.
    pose proof (make_row_get_other cols ws
                  (Dict.set (Column.name c) w row0) (Column.name c) Hnotin) as Ho.
    unfold make_row in Ho. rewrite Ho. apply dict_get_set_eq.
  - unfold make_row. simpl. by apply (IH ws _ j).
Qed.

Lemma make_row_keys (cols : list Column.t) (ws : list value)
    (row0 : dict string value) :
  NoDup (Dict.keys row0 ++ map Column.name cols) ->
  length cols = length ws ->
  Dict.keys (make_row cols ws row0) = Dict.keys row0 ++ map Column.name cols.
Proof.
  unfold make_row. revert ws row0.
  induction cols as [|c cols IH]; intros [|w ws] row0 Hnd Hlen; simpl in *; try done.
  - by rewrite app_nil_r.
  - assert (Hc : Column.name c ∉ Dict.keys row0).
    { apply NoDup_app in Hnd as (_ & Hdisj & _). intros Hin.
      apply (Hdisj _ Hin). apply list_elem_of_here. }
    rewrite IH.
    + rewrite dict_set_absent by done. rewrite dict_keys_app. simpl.
      by rewrite <- app_assoc.
    + rewrite dict_set_absent by done. rewrite dict_keys_app. simpl.
      by rewrite <- app_assoc.
    + lia.
Qed.

Section insert_facts.
Context `{IntOfStr}.

Lemma insert_row_Ok (self : Table.t) (pairs : list (Column.t * value))
    (row0 row : dict string value) :
  Table.insert_row self pairs row0 = Ok row ->
  exists ws,
    Forall2
      (fun cv w =>
         Column.validate_value cv.1 cv.2 = Ok w
         /\ (Column.indexed cv.1 = true ->
             exists index,
               Dict.get (Column.name cv.1) (Table.indexes self) = Some index
               /\ Index.contains index w = false))
      pairs ws
    /\ row = make_row pairs.*1 ws row0.
Proof.
  revert row0. induction pairs as [|[c v] pairs IH]; intros row0; simpl.
  - intros [= <-]. exists []. split; [constructor | done].
  - destruct (Column.validate_value c v) as [w|e] eqn:Hv; [| done].
    destruct (Column.indexed c) eqn:Hi.
    + destruct (Dict.get (Column.name c) (Table.indexes self))
        as [index|] eqn:Hg; [| done].
      destruct (Index.contains index w) eqn:Hc; [done |].
      intros Hrow. destruct (IH _ Hrow) as (ws & HF & ->).
      exists (w :: ws). split; [| done].
      constructor; [| done]. simpl. split; [done |]. intros _. eauto.
    + intros Hrow. destruct (IH _ Hrow) as (ws & HF & ->).
      exists (w :: ws). split; [| done].
      constructor; [| done]. simpl. rewrite Hi. by split.
Qed.

Lemma insert_row_complete (self : Table.t) (pairs : list (Column.t * value))
    (ws : list value) (row0 : dict string value) :
  Forall2
    (fun cv w =>
       Column.validate_value cv.1 cv.2 = Ok w
       /\ (Column.indexed cv.1 = true ->
           exists index,
             Dict.get (Column.name cv.1) (Table.indexes self) = Some index
             /\ Index.contains index w = false))
    pairs ws ->
  Table.insert_row self pairs row0 = Ok (make_row pairs.*1 ws row0).
Proof.
  intros HF. revert row0.
  induction HF as [|[c v] w pairs ws [Hv Hfresh] HF IH]; intros row0; simpl in *.
  - done.
  - rewrite Hv. destruct (Column.indexed c) eqn:Hi.
    + destruct (Hfresh eq_refl) as (index & -> & ->). apply IH.
    + apply IH.
Qed.

(** When every value validates, the only way the loop can fail is a
    uniqueness conflict. *)
Lemma insert_row_validated (self : Table.t) (pairs : list (Column.t * value))
    (ws : list value) (row0 : dict string value) :
  Forall2 (fun cv w => Column.validate_value cv.1 cv.2 = Ok w) pairs ws ->
  (forall cv, cv ∈ pairs -> Column.indexed cv.1 = true ->
              is_Some (Dict.get (Column.name cv.1) (Table.indexes self))) ->
  Table.insert_row self pairs row0 = Ok (make_row pairs.*1 ws row0)
  \/ Table.insert_row self pairs row0 = Raise ConstraintViolation.
Proof.
  intros HF. revert row0.
  induction HF as [|[c v] w pairs ws Hv HF IH]; intros row0 Hix; simpl in *.
  - by left.
  - rewrite Hv.
    assert (Hix' : forall cv, cv ∈ pairs -> Column.indexed cv.1 = true ->
              is_Some (Dict.get (Column.name cv.1) (Table.indexes self))).
    { intros cv Hin. apply Hix. by apply list_elem_of_further. }
    destruct (Column.indexed c) eqn:Hi.
    + destruct (Hix (c, v) (list_elem_of_here _ _) Hi) as [index Hg].
      simpl in Hg. rewrite Hg.
      destruct (Index.contains index w); [by right | by apply IH].
    + by apply IH.
Qed.

End insert_facts.

(** ** What [schema_ok] gives *)

Lemma schema_indexes_wf (t : Table.t) : schema_ok t -> Dict.wf (Table.indexes t).
Proof.
  intros [Hnd Hkeys]. unfold Dict.wf. rewrite Hkeys.
  eapply sublist_NoDup; [exact Hnd |].
  apply fmap_sublist, sublist_filter.
Qed.

Lemma schema_index_column (t : Table.t) (k : string) :
  schema_ok t -> k ∈ Dict.keys (Table.indexes t) ->
  exists j c, Table.columns t !! j = Some c /\ Column.name c = k
              /\ Column.indexed c = true.
Proof.
  intros [_ Hkeys] Hin. rewrite Hkeys in Hin.
  apply list_elem_of_fmap in Hin as (c & -> & Hc).
  apply list_elem_of_filter in Hc as [Hi Hc].
  apply list_elem_of_lookup in Hc as [j Hj]. by exists j, c.
Qed.

Lemma schema_column_index (t : Table.t) (c : Column.t) :
  schema_ok t -> c ∈ Table.columns t -> Column.indexed c = true ->
  is_Some (Dict.get (Column.name c) (Table.indexes t)).
Proof.
  intros [_ Hkeys] Hc Hi. apply dict_get_is_Some_keys. rewrite Hkeys.
  apply list_elem_of_fmap. exists c. split; [done |].
  by apply list_elem_of_filter.
Qed.

Lemma schema_ok_inserted (row : dict string value) (t : Table.t) :
  schema_ok t -> schema_ok (inserted row t).
Proof.
  intros [Hnd Hkeys]. split; [done |].
  unfold inserted. cbn [Table.indexes Table.columns].
  by rewrite (dict_keys_map_values
                (fun k i => index_added (Table.row_get row k)
                                        (length (Table.rows t)) i)).
Qed.

Section insert_theorems.
Context `{IntOfStr}.

Lemma validates_lookup (cols : list Column.t) (values ws : list value)
    (j : nat) (c : Column.t) :
  validates cols values ws -> cols !! j = Some c ->
  exists v w, values !! j = Some v /\ ws !! j = Some w
              /\ Column.validate_value c v = Ok w.
Proof.
  intros [HF Hlen] Hc.
  destruct (lookup_lt_is_Some_2 values j) as [v Hv].
  { rewrite Hlen. by eapply lookup_lt_Some. }
  assert (Hz : zip cols values !! j = Some (c, v)) by by apply lookup_zip_Some.
  destruct (Forall2_lookup_l _ _ _ _ _ HF Hz) as (w & Hw & Hval).
  by exists v, w.
Qed.

Lemma validates_length (cols : list Column.t) (values ws : list value) :
  validates cols values ws -> length ws = length cols.
Proof.
  intros [HF Hlen]. apply Forall2_length in HF.
  rewrite length_zip in HF. lia.
Qed.

(** A successful validation loop has checked, for every index of the
    table, the value the new row carries for that index's column. *)
Lemma insert_row_index_fresh (t : Table.t) (values : list value)
    (row : dict string value) :
  schema_ok t ->
  length values = length (Table.columns t) ->
  Table.insert_row t (zip (Table.columns t) values) [] = Ok row ->
  exists ws,
    validates (Table.columns t) values ws
    /\ row = make_row (Table.columns t) ws []
    /\ forall k i, (k, i) ∈ Table.indexes t ->
         exists v, Dict.get k row = Some v /\ Dict.mem v (Index._index i) = false.
Proof.
  intros Hs Hlen Hrow.
  destruct (insert_row_Ok _ _ _ _ Hrow) as (ws & HF & Hmk).
  rewrite fst_zip in Hmk by lia.
  assert (Hval : validates (Table.columns t) values ws).
  { split; [| done]. eapply Forall2_impl; [exact HF |]. by intros ? ? [? _]. }
  exists ws. split_and!; [done | done |].
  intros k i Hki.
  assert (Hk : k ∈ Dict.keys (Table.indexes t)).
  { apply list_elem_of_fmap. by exists (k, i). }
  destruct (schema_index_column t k Hs Hk) as (j & c & Hc & <- & Hi).
  destruct (validates_lookup _ _ _ _ _ Hval Hc) as (v & w & Hv & Hw & _).
  assert (Hz : zip (Table.columns t) values !! j = Some (c, v))
    by by apply lookup_zip_Some.
  pose proof (Forall2_lookup_lr _ _ _ _ _ _ HF Hz Hw) as [_ Hfresh].
  destruct (Hfresh Hi) as (index & Hg & Hc').
  pose proof (dict_elem_get _ _ _ (schema_indexes_wf t Hs) Hki) as Hg'.
  simpl in Hg. rewrite Hg in Hg'. injection Hg' as ->.
  exists w. split; [| exact Hc'].
  subst row. eapply make_row_get; [apply Hs | done | done].
Qed.

(** [insert] after a successful validation loop: the append and the
    loop over the indexes cannot raise. *)
Lemma insert_success (t : Table.t) (values : list value)
    (row : dict string value) :
  schema_ok t ->
  length values = length (Table.columns t) ->
  Table.insert_row t (zip (Table.columns t) values) [] = Ok row ->
  Table.insert values t = (inserted row t, Ok tt).
Proof.
  intros Hs Hlen Hrow.
  destruct (insert_row_index_fresh t values row Hs Hlen Hrow)
    as (ws & _ & _ & Hfresh).
  unfold Table.insert. rewrite decide_False by (intros Hne; by apply Hne).
  rewrite Hrow. unfold bind at 1, modify at 1.
  set (s := Table.set_rows (Table.rows t ++ [row]) t).
  change (Table.indexes t) with (Table.indexes s).
  rewrite (for_each_indexes
             (fun k i => index_added (Table.row_get row k) (length (Table.rows t)) i)).
  - done.
  - apply (schema_indexes_wf t Hs).
  - intros ixs k i Hki Hg.
    destruct (Hfresh k i Hki) as (v & Hv & Hm).
    unfold bind, lift, read, Table.getitem, Table.on_index. rewrite Hv. simpl.
    rewrite Hg. unfold Index.add. rewrite Hm.
    rewrite length_app. simpl. rewrite Nat.add_sub.
    unfold Table.row_get. rewrite Hv. done.
Qed.

(** The three ways [insert] ends. *)
Lemma insert_outcome (t : Table.t) (values : list value) :
  schema_ok t ->
  Table.insert values t = (t, Raise ValueCountError)
  \/ (exists e, Table.insert values t = (t, Raise e)
                /\ Table.insert_row t (zip (Table.columns t) values) [] = Raise e)
  \/ (exists row,
        length values = length (Table.columns t)
        /\ Table.insert_row t (zip (Table.columns t) values) [] = Ok row
        /\ Table.insert values t = (inserted row t, Ok tt)).
Proof.
  intros Hs.
  destruct (decide (length values = length (Table.columns t))) as [Hlen|Hlen].
  - destruct (Table.insert_row t (zip (Table.columns t) values) []) as [row|e] eqn:Hrow.
    + right; right. exists row. split_and!; [done | done |].
      by apply insert_success.
    + right; left. exists e. split; [| done].
      unfold Table.insert. rewrite decide_False by (intros Hne; by apply Hne).
      by rewrite Hrow.
  - left. unfold Table.insert. by rewrite decide_True.
Qed.

(** A value that validates to one already present in an index of its
    column makes [insert] raise the uniqueness error. *)
Lemma insert_conflict (t : Table.t) (values ws : list value) (j : nat)
    (c : Column.t) (w : value) (index : Index.t) :
  schema_ok t ->
  validates (Table.columns t) values ws ->
  Table.columns t !! j = Some c -> Column.indexed c = true ->
  ws !! j = Some w ->
  Dict.get (Column.name c) (Table.indexes t) = Some index ->
  Index.contains index w = true ->
  Table.insert values t = (t, Raise ConstraintViolation).
Proof.
  intros Hs Hval Hc Hi Hw Hg Hdup.
  pose proof Hval as [HF Hlen].
  assert (Hcases := insert_row_validated t _ ws [] HF).
  destruct Hcases as [Hok|Hraise].
  { intros [c' v'] Hin Hi'. apply (schema_column_index t c' Hs); [| done].
    apply elem_of_zip_l in Hin. done. }
  - exfalso.
    destruct (insert_row_Ok _ _ _ _ Hok) as (ws' & HF' & _).
    destruct (validates_lookup _ _ _ _ _ Hval Hc) as (v & w0 & Hv & Hw0 & Hvw).
    assert (w0 = w) as -> by congruence.
    assert (Hz : zip (Table.columns t) values !! j = Some (c, v))
      by by apply lookup_zip_Some.
    destruct (Forall2_lookup_l _ _ _ _ _ HF' Hz) as (w' & _ & Hvw' & Hfresh).
    simpl in *. assert (w' = w) as -> by congruence.
    destruct (Hfresh Hi) as (index' & Hg' & Hc').
    congruence.
  - unfold Table.insert. rewrite decide_False by (intros Hne; by apply Hne).
    by rewrite Hraise.
Qed.

End insert_theorems.

Lemma inserted_index (row : dict string value) (t : Table.t) (k : string)
    (index : Index.t) :
  Dict.get k (Table.indexes t) = Some index ->
  Dict.get k (Table.indexes (inserted row t))
  = Some (index_added (Table.row_get row k) (length (Table.rows t)) index).
Proof.
  intros Hg. unfold inserted. cbn [Table.indexes].
  rewrite (dict_get_map_values
             (fun k i => index_added (Table.row_get row k) (length (Table.rows t)) i)).
  by rewrite Hg.
Qed.

Lemma inserted_row_slot (row : dict string value) (t : Table.t) :
  Table.rows (inserted row t) !! length (Table.rows t) = Some row
  /\ length (Table.rows (inserted row t)) = S (length (Table.rows t)).
Proof.
  unfold inserted. cbn [Table.rows]. split.
  - by rewrite lookup_app_r, Nat.sub_diag.
  - apply last_length.
Qed.

Section insert_properties.
Context `{IntOfStr}.

(** X26: [insert] is all-or-nothing.  On a table whose column names are
    distinct and whose indexes are those of its primary-key and unique
    columns:
    - whenever [insert] raises, the table is exactly as before (no row
      appended, no index entry added); a wrong value count raises
      [ValueCountError];
    - whenever it returns, the validated row sits at slot [n] (the old
      row count) and every index has recorded the row's value of its
      column at slot [n] ([inserted]);
    - a row whose values validate and whose value for a primary-key or
      unique column equals that of an existing row (the index holding
      the invariant of the data model) is refused with
      [ConstraintViolation], the table unchanged;
    - after a successful insert, a second row with the same validated
      value for a primary-key or unique column is refused with
      [ConstraintViolation] and the row count stays what the first
      insert made it;
    - a row whose values validate and whose validated values are in no
      index of their columns is accepted: [insert] returns and the table
      is [inserted]. *)
Theorem insert_all_or_nothing (t : Table.t) :
  schema_ok t ->
  (forall values t' e, Table.insert values t = (t', Raise e) -> t' = t)
  /\ (forall values,
        length values <> length (Table.columns t) ->
        Table.insert values t = (t, Raise ValueCountError))
  /\ (forall values t',
        Table.insert values t = (t', Ok tt) ->
        exists ws row,
          validates (Table.columns t) values ws
          /\ row = make_row (Table.columns t) ws []
          /\ t' = inserted row t
          /\ Table.rows t' !! length (Table.rows t) = Some row
          /\ length (Table.rows t') = S (length (Table.rows t)))
  /\ (forall values ws j c w index s existing,
        validates (Table.columns t) values ws ->
        Table.columns t !! j = Some c -> Column.indexed c = true ->
        ws !! j = Some w ->
        Dict.get (Column.name c) (Table.indexes t) = Some index ->
        index_inv (Table.rows t) (Column.name c) index ->
        Table.rows t !! s = Some existing ->
        Dict.get (Column.name c) existing = Some w ->
        Table.insert values t = (t, Raise ConstraintViolation))
  /\ (forall values1 t1 values2 ws2 j c v1 w,
        Table.insert values1 t = (t1, Ok tt) ->
        Table.columns t !! j = Some c -> Column.indexed c = true ->
        values1 !! j = Some v1 -> Column.validate_value c v1 = Ok w ->
        validates (Table.columns t) values2 ws2 -> ws2 !! j = Some w ->
        Table.insert values2 t1 = (t1, Raise ConstraintViolation)
        /\ length (Table.rows t1) = S (length (Table.rows t)))
  /\ (forall values ws,
        validates (Table.columns t) values ws ->
        (forall i ci wi index,
            Table.columns t !! i = Some ci -> ws !! i = Some wi ->
            Dict.get (Column.name ci) (Table.indexes t) = Some index ->
            Index.contains index wi = false) ->
        Table.insert values t
        = (inserted (make_row (Table.columns t) ws []) t, Ok tt)).
Proof.
  intros Hs. split_and!.
  - intros values t' e Hins.
    destruct (insert_outcome t values Hs) as [Hc|[(e' & He & _)|(row & _ & _ & Hok)]];
      congruence.
  - intros values Hlen. unfold Table.insert. by rewrite decide_True.
  - intros values t' Hins.
    destruct (insert_outcome t values Hs) as [Hc|[(e' & He & _)|(row & Hlen & Hrow & Hok)]];
      [congruence | congruence |].
    destruct (insert_row_index_fresh t values row Hs Hlen Hrow)
      as (ws & Hval & Hmk & _).
    assert (t' = inserted row t) as -> by congruence.
    exists ws, row. split_and!; [done | done | done | |];
      apply inserted_row_slot.
  - intros values ws j c w index s existing Hval Hc Hi Hw Hg Hinv Hs' Hex.
    eapply insert_conflict; try done.
    destruct Hinv as (_ & _ & Hfwd & _ & _).
    unfold Index.contains. apply dict_mem_true. exists s.
    apply Hfwd. by exists existing.
  - intros values1 t1 values2 ws2 j c v1 w Hins Hc Hi Hv1 Hvw Hval2 Hw2.
    destruct (insert_outcome t values1 Hs)
      as [Hc1|[(e' & He & _)|(row & Hlen & Hrow & Hok)]];
      [congruence | congruence |].
    assert (t1 = inserted row t) as -> by congruence.
    split; [| apply inserted_row_slot].
    destruct (insert_row_index_fresh t values1 row Hs Hlen Hrow)
      as (ws1 & Hval1 & Hmk & _).
    destruct (validates_lookup _ _ _ _ _ Hval1 Hc) as (v & w1 & Hv & Hw1 & Hvw1).
    assert (v = v1) as -> by congruence.
    assert (w1 = w) as -> by congruence.
    destruct (schema_column_index t c Hs) as [index Hg];
      [by eapply list_elem_of_lookup_2 | done |].
    eapply (insert_conflict (inserted row t) values2 ws2 j c w).
    + by apply schema_ok_inserted.
    + done.
    + done.
    + done.
    + done.
    + by apply inserted_index.
    + unfold Index.contains, index_added. cbn [Index._index].
      apply dict_mem_true.
      assert (Table.row_get row (Column.name c) = w) as ->.
      { unfold Table.row_get. subst row.
        erewrite make_row_get; [done | apply Hs | done | done]. }
      rewrite dict_get_set_eq. by eexists.
  - intros values ws Hval Hfresh. pose proof Hval as [HF Hlen].
    apply insert_success; [done | done |].
    rewrite <- (fst_zip (Table.columns t) values) at 2 by lia.
    apply insert_row_complete.
    apply Forall2_same_length_lookup. split; [by eapply Forall2_length |].
    intros i [ci vi] wi Hz Hwi. simpl.
    split; [by apply (Forall2_lookup_lr _ _ _ _ _ _ HF Hz Hwi) |].
    intros Hii. apply lookup_zip_Some in Hz as [Hci _].
    destruct (schema_column_index t ci Hs) as [index Hg];
      [by eapply list_elem_of_lookup_2 | done |].
    exists index. split; [done |]. by eapply Hfresh.
Qed.

(** C8: validation is idempotent ([C.validate(C.validate(v)) =
    C.validate(v)] whenever [C.validate(v)] is accepted, for [INT] and
    [TEXT] columns, [None] passing through unchanged), and a value
    inserted into column [c] is read back by [select] as
    [c.validate(v)], at the slot the row was stored at. *)
Theorem coercion_idempotent_roundtrip (t t' : Table.t) (values : list value)
    (j : nat) (c : Column.t) (v : value) :
  schema_ok t ->
  Table.insert values t = (t', Ok tt) ->
  Table.columns t !! j = Some c -> values !! j = Some v ->
  (forall c' v' w', Column.validate_value c' v' = Ok w' ->
                    Column.validate_value c' w' = Ok w')
  /\ (forall c', Column.validate_value c' VNone = Ok VNone)
  /\ exists w rs row,
       Column.validate_value c v = Ok w
       /\ Table.select t' None = Ok rs
       /\ rs !! length (Table.rows t) = Some row
       /\ Dict.get (Column.name c) row = Some w
       /\ Column.validate_value c w = Ok w.
Proof.
  intros Hs Hins Hc Hv.
  assert (Hidem : forall c' v' w', Column.validate_value c' v' = Ok w' ->
                                   Column.validate_value c' w' = Ok w').
  { intros c' v' w'. unfold Column.validate_value.
    destruct v' as [|z|s], (Column.data_type c') eqn:Hdt; intros Hvw;
      try (destruct (int_of_str s)); simplify_eq; by rewrite ?Hdt. }
  split_and!; [done | done |].
  destruct (insert_outcome t values Hs)
    as [Hc1|[(e' & He & _)|(row & Hlen & Hrow & Hok)]];
    [congruence | congruence |].
  assert (t' = inserted row t) as -> by congruence.
  destruct (insert_row_index_fresh t values row Hs Hlen Hrow)
    as (ws & Hval & Hmk & _).
  destruct (validates_lookup _ _ _ _ _ Hval Hc) as (v0 & w & Hv0 & Hw & Hvw).
  assert (v0 = v) as -> by congruence.
  exists w, (Table.rows (inserted row t)), row.
  split_and!; [done | done | apply inserted_row_slot | | by eapply Hidem].
  subst row. eapply make_row_get; [apply Hs | done | done].
Qed.

(** C9: null takes part in uniqueness.  [None] passes validation
    unchanged for every column; a row carrying [None] in a primary-key
    or unique column [c] is accepted when its values validate and none
    of them is already indexed: [None] is stored in the row and indexed
    at the row's slot.  A second row carrying [None] in [c] is then
    refused with [ConstraintViolation], the table unchanged. *)
Theorem null_is_unique (t : Table.t) (j : nat) (c : Column.t)
    (values1 ws1 values2 ws2 : list value) :
  schema_ok t ->
  Table.columns t !! j = Some c -> Column.indexed c = true ->
  values1 !! j = Some VNone -> values2 !! j = Some VNone ->
  validates (Table.columns t) values1 ws1 ->
  validates (Table.columns t) values2 ws2 ->
  (forall i ci wi index,
      Table.columns t !! i = Some ci -> ws1 !! i = Some wi ->
      Dict.get (Column.name ci) (Table.indexes t) = Some index ->
      Index.contains index wi = false) ->
  Column.validate_value c VNone = Ok VNone
  /\ exists row index',
       Table.insert values1 t = (inserted row t, Ok tt)
       /\ Table.rows (inserted row t) !! length (Table.rows t) = Some row
       /\ Dict.get (Column.name c) row = Some VNone
       /\ Dict.get (Column.name c) (Table.indexes (inserted row t)) = Some index'
       /\ Index.get index' VNone = Some (length (Table.rows t))
       /\ Table.insert values2 (inserted row t)
          = (inserted row t, Raise ConstraintViolation).
Proof.
  intros Hs Hc Hi Hv1 Hv2 Hval1 Hval2 Hfresh.
  split; [done |].
  destruct (validates_lookup _ _ _ _ _ Hval1 Hc) as (v & w1 & Hv & Hw1 & Hvw1).
  assert (v = VNone) as -> by congruence.
  assert (w1 = VNone) as -> by (simpl in Hvw1; congruence).
  destruct (validates_lookup _ _ _ _ _ Hval2 Hc) as (v & w2 & Hv' & Hw2 & Hvw2).
  assert (v = VNone) as -> by congruence.
  assert (w2 = VNone) as -> by (simpl in Hvw2; congruence).
  pose proof Hval1 as [HF1 Hlen1].
  assert (Hrow : Table.insert_row t (zip (Table.columns t) values1) []
                 = Ok (make_row (Table.columns t) ws1 [])).
  { rewrite <- (fst_zip (Table.columns t) values1) at 2 by lia.
    apply insert_row_complete.
    apply Forall2_same_length_lookup. split; [by eapply Forall2_length |].
    intros i [ci vi] wi Hz Hwi. simpl.
    split; [by apply (Forall2_lookup_lr _ _ _ _ _ _ HF1 Hz Hwi) |].
    intros Hii. apply lookup_zip_Some in Hz as [Hci _].
    destruct (schema_column_index t ci Hs) as [index Hg];
      [by eapply list_elem_of_lookup_2 | done |].
    exists index. split; [done |]. by eapply Hfresh. }
  set (row := make_row (Table.columns t) ws1 []) in *.
  destruct (schema_column_index t c Hs) as [index Hg];
    [by eapply list_elem_of_lookup_2 | done |].
  assert (Hrc : Dict.get (Column.name c) row = Some VNone).
  { eapply make_row_get; [apply Hs | done | done]. }
  exists row, (index_added VNone (length (Table.rows t)) index).
  split_and!.
  - by apply insert_success.
  - apply inserted_row_slot.
  - done.
  - rewrite (inserted_index row t _ index Hg).
    unfold Table.row_get. by rewrite Hrc.
  - unfold Index.get, index_added. cbn [Index._index]. apply dict_get_set_eq.
  - eapply (insert_conflict (inserted row t) values2 ws2 j c VNone).
    + by apply schema_ok_inserted.
    + done.
    + done.
    + done.
    + done.
    + by apply inserted_index.
    + unfold Index.contains, index_added. cbn [Index._index].
      apply dict_mem_true. unfold Table.row_get. rewrite Hrc. simpl.
      rewrite dict_get_set_eq. by eexists.
Qed.

End insert_properties.

(** ** The invariant: established by [Table.__init__], kept by [insert] *)

Lemma init_indexes_keys (cols : list Column.t) (acc : list (string * Index.t)) :
  NoDup (Dict.keys acc ++ map Column.name cols) ->
  Dict.keys
    (fold_left
       (fun d c =>
          if Column.indexed c
          then Dict.set (Column.name c) (Index.init (Column.name c)) d else d)
       cols acc)
  = Dict.keys acc
    ++ map Column.name (filter (fun c => Column.indexed c = true) cols).
Proof.
  revert acc. induction cols as [|c cols IH]; intros acc Hnd; simpl.
  - by rewrite app_nil_r.
  - simpl in Hnd.
    assert (Hc : Column.name c ∉ Dict.keys acc).
    { apply NoDup_app in Hnd as (_ & Hdisj & _). intros Hin.
      apply (Hdisj _ Hin). apply list_elem_of_here. }
    destruct (Column.indexed c) eqn:Hi.
    + rewrite filter_cons_True by done. rewrite IH.
      * rewrite dict_set_absent by done. rewrite dict_keys_app. simpl.
        by rewrite <- app_assoc.
      * rewrite dict_set_absent by done. rewrite dict_keys_app. simpl.
        by rewrite <- app_assoc.
    + rewrite filter_cons_False by congruence. apply IH.
      apply NoDup_app in Hnd as (Hn1 & Hdisj & Hn2).
      apply NoDup_cons in Hn2 as [_ Hn2].
      apply NoDup_app. split_and!; [done | | done].
      intros x Hx Hx'. apply (Hdisj x Hx). by apply list_elem_of_further.
Qed.

Lemma init_indexes_empty (cols : list Column.t) (acc : list (string * Index.t)) :
  (forall k i, Dict.get k acc = Some i -> i = Index.init k) ->
  forall k i,
    Dict.get k
      (fold_left
         (fun d c =>
            if Column.indexed c
            then Dict.set (Column.name c) (Index.init (Column.name c)) d else d)
         cols acc) = Some i ->
    i = Index.init k.
Proof.
  revert acc. induction cols as [|c cols IH]; intros acc Hacc k i; simpl.
  - apply Hacc.
  - apply IH. intros k' i'. destruct (Column.indexed c); [| apply Hacc].
    rewrite dict_get_set. case_decide; [| apply Hacc].
    subst. by intros [= <-].
Qed.

Lemma index_inv_init (k : string) : index_inv [] k (Index.init k).
Proof.
  unfold index_inv, Index.init, Dict.wf. simpl.
  split_and!; try apply NoDup_nil_2; try done.
  intros v s. split; [done |]. by intros (row & Hrow & _).
Qed.

Lemma table_inv_fresh (name : string) (cols : list Column.t) :
  NoDup (map Column.name cols) ->
  table_inv
    {| Table.name := name; Table.columns := cols; Table.rows := [];
       Table.indexes :=
         fold_left
           (fun d c =>
              if Column.indexed c
              then Dict.set (Column.name c) (Index.init (Column.name c)) d
              else d)
           cols [] |}.
Proof.
  intros Hnd. split_and!.
  - split; [done |]. cbn [Table.indexes Table.columns].
    by rewrite init_indexes_keys.
  - unfold rows_ok. cbn [Table.rows]. constructor.
  - cbn [Table.indexes Table.rows]. intros k i Hg.
    apply init_indexes_empty in Hg as ->; [apply index_inv_init | done].
Qed.

Lemma table_inv_init (name : string) (cols : list Column.t) (t : Table.t) :
  NoDup (map Column.name cols) ->
  Table.init name cols = Ok t -> table_inv t.
Proof.
  intros Hnd. unfold Table.init. destruct cols as [|c cols]; [done |].
  case_decide; [done |]. intros [= <-].
  by apply (table_inv_fresh name (c :: cols)).
Qed.

Lemma index_inv_added (rs : list (dict string value)) (k : string)
    (index : Index.t) (row : dict string value) (v : value) :
  index_inv rs k index ->
  Dict.get k row = Some v ->
  Dict.mem v (Index._index index) = false ->
  index_inv (rs ++ [row]) k (index_added v (length rs) index).
Proof.
  intros (Hwf & Hwr & Hfwd & Hrev & Hcol) Hv Hm.
  apply dict_mem_false in Hm.
  assert (Hfresh : forall v', Dict.get v' (Index._index index) <> Some (length rs)).
  { intros v' Hg. apply Hfwd in Hg as (r & Hr & _).
    apply lookup_lt_Some in Hr. lia. }
  unfold index_inv, index_added. cbn [Index._index Index._reverse_index].
  split_and!.
  - by apply dict_wf_set.
  - by apply dict_wf_set.
  - intros v' s. rewrite dict_get_set. case_decide as Hvv.
    + subst v'. split.
      * intros [= <-]. exists row. split; [| done].
        by rewrite lookup_app_r, Nat.sub_diag.
      * intros (r & Hr & Hrv).
        destruct (decide (s < length rs)) as [Hlt|Hge].
        -- rewrite lookup_app_l in Hr by done.
           assert (Dict.get v (Index._index index) = Some s)
             by (apply Hfwd; by exists r).
           congruence.
        -- apply lookup_lt_Some in Hr as Hlen. rewrite length_app in Hlen.
           simpl in Hlen. f_equal. lia.
    + rewrite Hfwd. split.
      * intros (r & Hr & Hrv). exists r. split; [| done].
        apply lookup_app_l_Some. done.
      * intros (r & Hr & Hrv).
        destruct (decide (s < length rs)) as [Hlt|Hge].
        -- rewrite lookup_app_l in Hr by done. by exists r.
        -- apply lookup_lt_Some in Hr as Hlen. rewrite length_app in Hlen.
           simpl in Hlen. assert (s = length rs) as -> by lia.
           rewrite lookup_app_r, Nat.sub_diag in Hr by done.
           simpl in Hr. congruence.
  - intros s v'. rewrite !dict_get_set.
    destruct (decide (length rs = s)) as [<-|Hs]; case_decide as Hvv.
    + subst. done.
    + split; [congruence |]. intros Hg. by apply Hfresh in Hg.
    + subst v'. rewrite Hrev, Hm. split; [done | congruence].
    + apply Hrev.
  - apply Forall_app. split; [done |]. constructor; [by eexists | constructor].
Qed.

Section insert_keeps_invariant.
Context `{IntOfStr}.

(** [insert] keeps the invariant, whether it returns or raises. *)
Lemma table_inv_insert (t : Table.t) (values : list value) :
  table_inv t -> table_inv (Table.insert values t).1.
Proof.
  intros (Hs & Hrows & Hinv).
  destruct (insert_outcome t values Hs)
    as [Hc|[(e' & He & _)|(row & Hlen & Hrow & Hok)]];
    [by rewrite Hc | by rewrite He |].
  rewrite Hok. cbn [fst].
  destruct (insert_row_index_fresh t values row Hs Hlen Hrow)
    as (ws & Hval & Hmk & Hfresh).
  split_and!.
  - by apply schema_ok_inserted.
  - unfold rows_ok, inserted. cbn [Table.rows Table.columns].
    apply Forall_app. split; [done |]. constructor; [| constructor].
    subst row. rewrite make_row_keys; [done | apply Hs |].
    by rewrite (validates_length _ _ _ Hval).
  - intros k index' Hg'. unfold inserted in Hg'. cbn [Table.indexes] in Hg'.
    rewrite (dict_get_map_values
               (fun k i => index_added (Table.row_get row k)
                                       (length (Table.rows t)) i)) in Hg'.
    destruct (Dict.get k (Table.indexes t)) as [index|] eqn:Hg; [| done].
    assert (index' = index_added (Table.row_get row k)
                                 (length (Table.rows t)) index)
      as -> by (injection Hg' as Heq; symmetry; exact Heq).
    destruct (Hfresh k index (dict_get_Some_elem _ _ _ Hg)) as (v & Hv & Hm).
    unfold Table.row_get. rewrite Hv. cbn [default from_option].
    unfold inserted. cbn [Table.rows].
    by apply index_inv_added; [apply Hinv | |].
Qed.

End insert_keeps_invariant.

(** ** Select: the index path and the scan *)

Lemma filter_none {A} (P : A -> Prop) `{forall x, Decision (P x)} (l : list A) :
  (forall i x, l !! i = Some x -> ~ P x) -> filter P l = [].
Proof.
  induction l as [|a l IH]; intros Hno; [done |].
  rewrite filter_cons_False by (by apply (Hno 0)).
  apply IH. intros i x Hi. by apply (Hno (S i)).
Qed.

Lemma filter_unique {A} (P : A -> Prop) `{forall x, Decision (P x)}
    (l : list A) (s : nat) (r : A) :
  l !! s = Some r -> P r ->
  (forall i x, l !! i = Some x -> P x -> i = s) ->
  filter P l = [r].
Proof.
  revert s. induction l as [|a l IH]; intros s Hs Hr Huniq; [done |].
  destruct s as [|s]; simpl in Hs.
  - injection Hs as ->. rewrite filter_cons_True by done. f_equal.
    apply filter_none. intros i x Hi Hx.
    by pose proof (Huniq (S i) x Hi Hx).
  - rewrite filter_cons_False.
    + apply (IH s); [done | done |].
      intros i x Hi Hx. pose proof (Huniq (S i) x Hi Hx). lia.
    + intros Ha. by pose proof (Huniq 0 a eq_refl Ha).
Qed.

(** On rows that all carry column [C], the scan loop of [select] for the
    one condition [C = v] keeps the rows with [row[C] == v]. *)
Lemma scan_single (rs : list (dict string value)) (C : string) (v : value) :
  Forall (fun row => is_Some (Dict.get C row)) rs ->
  Table.scan rs [(C, v)] = full_scan_filter rs C v.
Proof.
  unfold full_scan_filter.
  induction 1 as [|row rs [w Hw] _ IH]; [done |].
  simpl. unfold Table.row_get. rewrite Hw. simpl.
  destruct (decide (w = v)) as [->|Hne].
  - rewrite filter_cons_True by done. by rewrite IH.
  - rewrite filter_cons_False by congruence. done.
Qed.

(** X27: for a unique (indexed) column [C] whose index holds the invariant
    of the data model, and any value [v], [select({C: v})], which takes
    the index path, returns the rows a full scan of the row store keeps
    under [row[C] == v]; it is also what the scan loop of [select] itself
    returns on that condition.  (Every table reached without a failed
    [update] holds the invariant: [reachable_table_inv] below.) *)
Theorem select_index_scan_equiv (t : Table.t) (C : string) (v : value)
    (index : Index.t) :
  Dict.get C (Table.indexes t) = Some index ->
  index_inv (Table.rows t) C index ->
  Table.select t (Some [(C, v)]) = Ok (full_scan_filter (Table.rows t) C v)
  /\ Table.select t (Some [(C, v)]) = Ok (Table.scan (Table.rows t) [(C, v)]).
Proof.
  intros Hg (_ & _ & Hfwd & _ & Hcol).
  rewrite (scan_single _ _ _ Hcol).
  cut (Table.select t (Some [(C, v)]) = Ok (full_scan_filter (Table.rows t) C v));
    [by intros -> |].
  unfold Table.select. rewrite Hg. unfold Index.get, full_scan_filter.
  destruct (Dict.get v (Index._index index)) as [idx|] eqn:Hidx.
  - apply Hfwd in Hidx as (row & Hrow & Hv). rewrite Hrow. f_equal. symmetry.
    apply (filter_unique _ _ idx); [done | done |].
    intros i x Hi Hx.
    assert (Hi' : Dict.get v (Index._index index) = Some i)
      by (apply Hfwd; by exists x).
    assert (Hidx' : Dict.get v (Index._index index) = Some idx)
      by (apply Hfwd; by exists row).
    congruence.
  - f_equal. symmetry. apply filter_none. intros i x Hi Hx.
    assert (Hi' : Dict.get v (Index._index index) = Some i)
      by (apply Hfwd; by exists x).
    congruence.
Qed.

(** ** Delete *)

Lemma adjust_loop_get (p : nat) (items : list (value * nat))
    (nf : list (value * nat)) (nr : list (nat * value)) (v : value) :
  NoDup (Dict.keys items) ->
  Dict.get v (Index.adjust_loop p items nf nr).1
  = match Dict.get v items with
    | Some s => if decide (p < s) then Some (s - 1)
                else if decide (s < p) then Some s else Dict.get v nf
    | None => Dict.get v nf
    end.
Proof.
  revert nf nr. induction items as [|[v0 s0] items IH]; intros nf nr Hnd; [done |].
  simpl in Hnd. apply NoDup_cons in Hnd as [Hnotin Hnd]. simpl.
  destruct (decide (v = v0)) as [->|Hne].
  - apply dict_get_None_keys in Hnotin.
    destruct (decide (p < s0)); [| destruct (decide (s0 < p))];
      rewrite IH by done; rewrite Hnotin; by rewrite ?dict_get_set_eq.
  - destruct (decide (p < s0)); [| destruct (decide (s0 < p))];
      rewrite IH by done; destruct (Dict.get v items) as [s|]; try done;
      repeat case_decide; try done; by apply dict_get_set_ne.
Qed.

(** [adjust_for_deletion(d)] on the forward dictionary: an entry at a
    slot after [d] moves one slot down, an entry before [d] stays, an
    entry at [d] is dropped, and no entry appears. *)
Lemma index_adjust_get (d : nat) (index : Index.t) (v : value) :
  Dict.wf (Index._index index) ->
  Index.get (Index.adjust_for_deletion d index).1 v
  = match Index.get index v with
    | Some s => if decide (d < s) then Some (s - 1)
                else if decide (s < d) then Some s else None
    | None => None
    end.
Proof.
  intros Hwf. unfold Index.adjust_for_deletion, Index.get.
  pose proof (adjust_loop_get d (Index._index index) [] [] v Hwf) as Hl.
  destruct (Index.adjust_loop d (Index._index index) [] []) as [nf nr].
  simpl in *. exact Hl.
Qed.

Lemma index_remove_wf (v : value) (slot : nat) (index : Index.t) :
  Dict.wf (Index._index index) ->
  Dict.wf (Index._index (Index.remove v slot index).1).
Proof.
  intros Hwf. unfold Index.remove. simpl.
  case_bool_decide; [by apply dict_wf_del | done].
Qed.

Lemma find_row_bound (rs : list (dict string value)) (i : nat)
    (row : dict string value) (k : nat) :
  Table.find_row rs i row = Ok (Some k) -> i <= k < i + length rs.
Proof.
  revert i. induction rs as [|r rs IH]; intros i; simpl; [done |].
  destruct (Table.all_equal (Dict.keys r) r row) as [[|]|e]; [| | done].
  - intros [= ->]. lia.
  - intros Hf. apply IH in Hf. lia.
Qed.

Lemma row_indices_bound (rs targets : list (dict string value))
    (indices : list nat) :
  Table.row_indices rs targets = Ok indices ->
  Forall (fun i => i < length rs) indices.
Proof.
  revert indices. induction targets as [|row targets IH]; intros indices; simpl.
  - intros [= <-]. constructor.
  - destruct (Table.find_row rs 0 row) as [found|e] eqn:Hf; [| done].
    destruct (Table.row_indices rs targets) as [rest|e]; [| done].
    intros [= <-]. destruct found as [k|]; [| by apply IH].
    constructor; [| by apply IH].
    apply find_row_bound in Hf. lia.
Qed.

Lemma target_indices_bound (t : Table.t)
    (conditions : option (dict string value)) (indices : list nat) :
  Table.target_indices t conditions = Ok indices ->
  Forall (fun i => i < length (Table.rows t)) indices.
Proof.
  unfold Table.target_indices.
  destruct (match conditions with
            | Some (_ :: _) => Table.select t conditions
            | _ => Ok (Table.rows t)
            end) as [targets|e]; [| done].
  apply row_indices_bound.
Qed.

(** The body of the deletion loop on a slot that holds a row carrying
    every indexed column: it cannot raise. *)
Lemma delete_at_state (t : Table.t) (p : nat) (row : dict string value) :
  Dict.wf (Table.indexes t) ->
  Table.rows t !! p = Some row ->
  (forall k, k ∈ Dict.keys (Table.indexes t) -> is_Some (Dict.get k row)) ->
  Table.delete_at p t = (deleted_at p row t, Ok tt).
Proof.
  intros Hwf Hrow Hcols.
  unfold Table.delete_at.
  unfold bind at 1. unfold Table.getrow at 1. rewrite Hrow.
  unfold bind at 1, read at 1.
  unfold bind at 1.
  rewrite (for_each_indexes
             (fun k i => (Index.remove (Table.row_get row k) p i).1)); [| done |].
  - set (s1 := Table.set_indexes _ t).
    unfold bind at 1.
    replace (Dict.keys (Table.indexes t)) with (Dict.keys (Table.indexes s1)).
    2:{ unfold s1. cbn [Table.indexes Table.set_indexes].
        apply (dict_keys_map_values
                 (fun k i => (Index.remove (Table.row_get row k) p i).1)). }
    rewrite (for_each_indexes
               (fun k i => (Index.adjust_for_deletion p i).1)).
    + unfold modify, deleted_at, s1. cbn. f_equal. f_equal.
      rewrite map_map. done.
    + unfold Dict.wf, s1. cbn [Table.indexes Table.set_indexes].
      by rewrite (dict_keys_map_values
                    (fun k i => (Index.remove (Table.row_get row k) p i).1)).
    + intros ixs k i _ Hg. unfold Table.on_index.
      cbn [Table.indexes Table.set_indexes]. rewrite Hg.
      unfold Index.adjust_for_deletion.
      by destruct (Index.adjust_loop p (Index._index i) [] []).
  - intros ixs k i Hki Hg.
    destruct (Hcols k) as [v Hv].
    { apply list_elem_of_fmap. by exists (k, i). }
    unfold bind, lift, Table.getitem, Table.on_index. rewrite Hv.
    cbn [Table.indexes Table.set_indexes]. rewrite Hg.
    unfold Table.row_get. rewrite Hv. done.
Qed.

Lemma shifted_inj (p s1 s2 : nat) :
  s1 <> p -> s2 <> p -> shifted p s1 = shifted p s2 -> s1 = s2.
Proof. unfold shifted. repeat case_decide; lia. Qed.

Lemma lookup_delete_shifted {A} (l : list A) (p s : nat) :
  s <> p -> delete p l !! shifted p s = l !! s.
Proof.
  intros Hne. unfold shifted. case_decide.
  - rewrite list_lookup_delete_ge by lia. f_equal. lia.
  - apply list_lookup_delete_lt. lia.
Qed.

Lemma index_adjust_fields (d : nat) (index : Index.t) :
  Index._index (Index.adjust_for_deletion d index).1
  = (Index.adjust_loop d (Index._index index) [] []).1
  /\ Index._reverse_index (Index.adjust_for_deletion d index).1
     = (Index.adjust_loop d (Index._index index) [] []).2.
Proof.
  unfold Index.adjust_for_deletion.
  by destruct (Index.adjust_loop d (Index._index index) [] []).
Qed.

Lemma adjust_loop_wf (p : nat) (items : list (value * nat))
    (nf : list (value * nat)) (nr : list (nat * value)) :
  Dict.wf nf -> Dict.wf nr ->
  Dict.wf (Index.adjust_loop p items nf nr).1
  /\ Dict.wf (Index.adjust_loop p items nf nr).2.
Proof.
  revert nf nr. induction items as [|[v s] items IH]; intros nf nr Hf Hr; simpl.
  - done.
  - repeat case_decide; apply IH; try done; by apply dict_wf_set.
Qed.

(** The reverse dictionary [adjust_for_deletion] builds, when no two
    entries share a slot: the surviving entries, turned around, in
    order. *)
Lemma adjust_loop_reverse (p : nat) (items : list (value * nat))
    (nf : list (value * nat)) (nr : list (nat * value)) :
  NoDup (Dict.keys nr
         ++ map (fun vs => shifted p vs.2) (filter (fun vs => vs.2 <> p) items)) ->
  (Index.adjust_loop p items nf nr).2
  = nr ++ map (fun vs => (shifted p vs.2, vs.1)) (filter (fun vs => vs.2 <> p) items).
Proof.
  revert nf nr. induction items as [|[v s] items IH]; intros nf nr Hnd; simpl.
  - by rewrite app_nil_r.
  - destruct (decide (s = p)) as [->|Hne].
    + rewrite filter_cons_False in Hnd |- * by (simpl; auto).
      rewrite decide_False by lia. rewrite decide_False by lia. by apply IH.
    + rewrite filter_cons_True in Hnd |- * by done. simpl in Hnd |- *.
      assert (Hfresh : shifted p s ∉ Dict.keys nr).
      { apply NoDup_app in Hnd as (_ & Hdisj & _). intros Hin.
        apply (Hdisj _ Hin). apply list_elem_of_here. }
      assert (Hstep : forall nf',
                 (Index.adjust_loop p items nf'
                    (Dict.set (shifted p s) v nr)).2
                 = nr ++ (shifted p s, v)
                      :: map (fun vs => (shifted p vs.2, vs.1))
                           (filter (fun vs => vs.2 <> p) items)).
      { intros nf'. rewrite IH.
        - rewrite dict_set_absent by done. by rewrite <- app_assoc.
        - rewrite dict_set_absent by done. rewrite dict_keys_app. simpl.
          by rewrite <- app_assoc. }
      unfold shifted in Hstep |- *.
      destruct (decide (p < s)); [apply Hstep |].
      rewrite decide_True by lia. apply Hstep.
Qed.

(** An index that holds the invariant maps no two values to one slot. *)
Lemma index_inv_slots_distinct (rs : list (dict string value)) (k : string)
    (index : Index.t) (v1 v2 : value) (s : nat) :
  index_inv rs k index ->
  Index.get index v1 = Some s -> Index.get index v2 = Some s -> v1 = v2.
Proof.
  intros (_ & _ & _ & Hrev & _) H1 H2.
  apply Hrev in H1, H2. congruence.
Qed.

(** Deleting the row at [p] and running [remove] and
    [adjust_for_deletion] on an index re-establishes the invariant of
    that index over the compacted row store. *)
Lemma index_inv_deleted (rs : list (dict string value)) (k : string)
    (index : Index.t) (p : nat) (gone : dict string value) :
  index_inv rs k index ->
  rs !! p = Some gone ->
  index_inv (delete p rs) k
    (Index.adjust_for_deletion p
       (Index.remove (Table.row_get gone k) p index).1).1.
Proof.
  intros Hinv Hgone.
  pose proof Hinv as (Hwf & Hwr & Hfwd & Hrev & Hcol).
  destruct (Forall_lookup_1 _ _ _ _ Hcol Hgone) as [vp Hvp].
  assert (Table.row_get gone k = vp) as ->
    by (unfold Table.row_get; by rewrite Hvp).
  assert (Hp : Index.get index vp = Some p) by (apply Hfwd; by exists gone).
  set (idx1 := (Index.remove vp p index).1).
  assert (W1 : Dict.wf (Index._index idx1)) by by apply index_remove_wf.
  assert (G1 : forall v s, s <> p ->
             (Index.get idx1 v = Some s <-> Index.get index v = Some s)).
  { intros v s Hs. unfold idx1. rewrite index_remove_get.
    case_decide as Hc; [| done].
    destruct Hc as [-> _]. split; [done | congruence]. }
  assert (E : forall v s',
             Index.get (Index.adjust_for_deletion p idx1).1 v = Some s'
             <-> exists s, Index.get index v = Some s /\ s <> p
                           /\ s' = shifted p s).
  { intros v s'. rewrite index_adjust_get by done. split.
    - destruct (Index.get idx1 v) as [s|] eqn:Hg; [| done].
      unfold shifted. intros Hs'. exists s.
      destruct (decide (p < s)); [| destruct (decide (s < p)); [| done]];
        injection Hs' as <-; (split_and!; [apply G1; [lia | done] | lia | done]).
    - intros (s & Hg & Hs & ->). apply G1 in Hg; [| done]. rewrite Hg.
      unfold shifted. destruct (decide (p < s)); [done |].
      by rewrite decide_True by lia. }
  destruct (index_adjust_fields p idx1) as [Ef Er].
  destruct (adjust_loop_wf p (Index._index idx1) [] []) as [Wf2 Wr2];
    [apply NoDup_nil_2 | apply NoDup_nil_2 |].
  assert (Hnd : NoDup (map (fun vs : value * nat => shifted p vs.2)
                         (filter (fun vs => vs.2 <> p) (Index._index idx1)))).
  { apply NoDup_fmap_2_strong.
    - intros [v1 s1] [v2 s2] H1 H2 Hsh. simpl in Hsh.
      apply list_elem_of_filter in H1 as [Hs1 H1], H2 as [Hs2 H2]. simpl in *.
      pose proof (shifted_inj p s1 s2 Hs1 Hs2 Hsh) as ->.
      apply (dict_elem_get _ _ _ W1) in H1, H2.
      apply (G1 _ _ Hs2) in H1, H2.
      by rewrite (index_inv_slots_distinct rs k index v1 v2 s2 Hinv H1 H2).
    - apply NoDup_filter. by apply (NoDup_fmap_1 fst). }
  unfold index_inv. rewrite Ef, Er. split_and!.
  - done.
  - done.
  - intros v s'. rewrite <- Ef. fold (Index.get (Index.adjust_for_deletion p idx1).1 v).
    rewrite E. split.
    + intros (s & Hg & Hs & ->). apply Hfwd in Hg as (row & Hrow & Hv).
      exists row. split; [| done]. by rewrite lookup_delete_shifted.
    + intros (row & Hrow & Hv). rewrite list_lookup_delete in Hrow.
      exists (if decide (s' < p) then s' else S s'). split_and!.
      * apply Hfwd. by exists row.
      * case_decide; lia.
      * unfold shifted. repeat case_decide; lia.
  - intros s' v. rewrite <- Ef.
    fold (Index.get (Index.adjust_for_deletion p idx1).1 v). rewrite E.
    rewrite adjust_loop_reverse by done. simpl. split.
    + intros Hg. apply dict_get_Some_elem in Hg.
      apply list_elem_of_fmap in Hg as ([v0 s] & [= -> ->] & Hin).
      apply list_elem_of_filter in Hin as [Hs Hin]. simpl in *.
      exists s. split_and!; [| done | done].
      apply (G1 _ _ Hs). by apply dict_elem_get.
    + intros (s & Hg & Hs & ->). apply dict_elem_get.
      * unfold Dict.wf, Dict.keys. rewrite <- list_fmap_compose. exact Hnd.
      * apply list_elem_of_fmap. exists (v, s). split; [done |].
        apply list_elem_of_filter. split; [done |].
        apply dict_get_Some_elem. by apply G1.
  - by apply Forall_delete.
Qed.

Lemma table_inv_deleted_at (t : Table.t) (p : nat) (gone : dict string value) :
  table_inv t -> Table.rows t !! p = Some gone ->
  table_inv (deleted_at p gone t).
Proof.
  intros ([Hnd Hkeys] & Hrows & Hinv) Hgone. split_and!.
  - split; [done |]. unfold deleted_at. cbn [Table.indexes Table.columns].
    by rewrite (dict_keys_map_values
                  (fun k i => (Index.adjust_for_deletion p
                                 (Index.remove (Table.row_get gone k) p i).1).1)).
  - unfold rows_ok, deleted_at. cbn [Table.rows Table.columns].
    by apply Forall_delete.
  - intros k index' Hg'. unfold deleted_at in Hg' |- *.
    cbn [Table.indexes Table.rows] in Hg' |- *.
    rewrite (dict_get_map_values
               (fun k i => (Index.adjust_for_deletion p
                              (Index.remove (Table.row_get gone k) p i).1).1))
      in Hg'.
    destruct (Dict.get k (Table.indexes t)) as [index|] eqn:Hg; [| done].
    assert (index' = (Index.adjust_for_deletion p
                        (Index.remove (Table.row_get gone k) p index).1).1)
      as -> by (injection Hg' as Heq; symmetry; exact Heq).
    apply index_inv_deleted; [by apply Hinv | done].
Qed.

(** The body of the deletion loop either finds no row at the slot and
    raises before touching anything, or deletes the row. *)
Lemma delete_at_outcome (t : Table.t) (p : nat) :
  table_inv t ->
  (Table.rows t !! p = None /\ Table.delete_at p t = (t, Raise IndexError))
  \/ (exists gone, Table.rows t !! p = Some gone
                   /\ Table.delete_at p t = (deleted_at p gone t, Ok tt)).
Proof.
  intros (Hs & _ & Hinv).
  destruct (Table.rows t !! p) as [gone|] eqn:Hgone.
  - right. exists gone. split; [done |].
    apply delete_at_state; [by apply schema_indexes_wf | done |].
    intros k Hk. apply dict_get_is_Some_keys in Hk as [index Hg].
    destruct (Hinv k index Hg) as (_ & _ & _ & _ & Hcol).
    by apply (Forall_lookup_1 _ _ _ _ Hcol Hgone).
  - left. split; [done |]. unfold Table.delete_at, bind, Table.getrow.
    by rewrite Hgone.
Qed.

(** [delete] keeps the invariant, whatever its targets. *)
Lemma table_inv_delete (t : Table.t) (conditions : option (dict string value)) :
  table_inv t -> table_inv (Table.delete conditions t).1.
Proof.
  intros Hinv. unfold Table.delete.
  destruct (Table.target_indices t conditions) as [indices|e]; [| done].
  assert (Hloop : forall l t0, table_inv t0 ->
             table_inv (for_each l Table.delete_at t0).1).
  { induction l as [|p l IH]; intros t0 H0; [done |].
    simpl. unfold bind at 1.
    destruct (delete_at_outcome t0 p H0) as [[_ ->]|(gone & Hgone & ->)]; [done |].
    apply IH. by apply table_inv_deleted_at. }
  unfold bind.
  pose proof (Hloop (Table.sort_reverse indices) t Hinv) as Hfin.
  by destruct (for_each (Table.sort_reverse indices) Table.delete_at t) as [t' [[]|e]].
Qed.

(** X28: deletion compaction.  On a table that holds the invariant of the
    data model (as every table reached without a failed [update] does,
    [reachable_table_inv] below), a [delete] whose target is the one row
    at slot [p] runs the loop body once without raising and returns 1;
    the invariant holds again; every other row is still in the store,
    unchanged, at its prior slot [s] if [s < p] and at [s - 1] if
    [s > p], and for every indexed column the lookup of that row's value
    yields exactly that new slot.
    For any index, [adjust_for_deletion(d)] moves the entries at a slot
    after [d] one slot down, keeps the entries before [d] and holds
    nothing else. *)
Theorem delete_compaction (t : Table.t)
    (conditions : option (dict string value)) (p : nat) :
  table_inv t ->
  Table.target_indices t conditions = Ok [p] ->
  exists gone,
    Table.rows t !! p = Some gone
    /\ Table.delete conditions t = (deleted_at p gone t, Ok 1)
    /\ Table.delete_at p t = (deleted_at p gone t, Ok tt)
    /\ Table.rows (deleted_at p gone t) = delete p (Table.rows t)
    /\ table_inv (deleted_at p gone t)
    /\ (forall s row,
          Table.rows t !! s = Some row -> s <> p ->
          Table.rows (deleted_at p gone t) !! shifted p s = Some row
          /\ forall C index',
               Dict.get C (Table.indexes (deleted_at p gone t)) = Some index' ->
               exists v, Dict.get C row = Some v
                         /\ Index.get index' v = Some (shifted p s))
    /\ (forall index d v,
          Dict.wf (Index._index index) ->
          Index.get (Index.adjust_for_deletion d index).1 v
          = match Index.get index v with
            | Some s => if decide (d < s) then Some (s - 1)
                        else if decide (s < d) then Some s else None
            | None => None
            end).
Proof.
  intros Htinv Htarget. pose proof Htinv as (Hs & _ & Hinv).
  pose proof (target_indices_bound _ _ _ Htarget) as Hbound.
  apply Forall_cons in Hbound as [Hp _].
  destruct (lookup_lt_is_Some_2 _ _ Hp) as [gone Hgone].
  assert (Hstep : Table.delete_at p t = (deleted_at p gone t, Ok tt)).
  { apply delete_at_state; [by apply schema_indexes_wf | done |].
    intros k Hk. apply dict_get_is_Some_keys in Hk as [index Hg].
    destruct (Hinv k index Hg) as (_ & _ & _ & _ & Hcol).
    by apply (Forall_lookup_1 _ _ _ _ Hcol Hgone). }
  exists gone. split_and!;
    [done | | done | done | by apply table_inv_deleted_at | | ].
  - unfold Table.delete. rewrite Htarget. simpl.
    unfold bind. by rewrite Hstep.
  - intros s row Hrow Hne. split.
    + unfold deleted_at, shifted. cbn [Table.rows].
      destruct (decide (p < s)).
      * rewrite list_lookup_delete_ge by lia.
        by replace (S (s - 1)) with s by lia.
      * by rewrite list_lookup_delete_lt by lia.
    + intros C index' Hg'. unfold deleted_at in Hg'. cbn [Table.indexes] in Hg'.
      rewrite (dict_get_map_values
                 (fun k i => (Index.adjust_for_deletion p
                                (Index.remove (Table.row_get gone k) p i).1).1))
        in Hg'.
      destruct (Dict.get C (Table.indexes t)) as [index|] eqn:Hg; [| done].
      assert (index' = (Index.adjust_for_deletion p
                          (Index.remove (Table.row_get gone C) p index).1).1)
        as -> by (injection Hg' as Heq; symmetry; exact Heq).
      clear Hg'.
      destruct (Hinv C index Hg) as (Hwf & _ & Hfwd & _ & Hcol).
      destruct (Forall_lookup_1 _ _ _ _ Hcol Hrow) as [v Hv].
      exists v. split; [done |].
      assert (Hvs : Index.get index v = Some s) by (apply Hfwd; by exists row).
      rewrite index_adjust_get by by apply index_remove_wf.
      rewrite index_remove_get.
      rewrite decide_False.
      * rewrite Hvs. unfold shifted.
        destruct (decide (p < s)); [done |]. by rewrite decide_True by lia.
      * intros [-> Hgp]. congruence.
  - intros index d v Hwf. by apply index_adjust_get.
Qed.

(** ** Update: a call that returns keeps the invariant *)

Lemma bind_ok {S A B} (m : M S A) (k : A -> M S B) (s s' : S) (b : B) :
  bind m k s = (s', Ok b) ->
  exists a s1, m s = (s1, Ok a) /\ k a s1 = (s', Ok b).
Proof.
  unfold bind. destruct (m s) as [s1 [a|e]]; [| done]. intros Hk. by exists a, s1.
Qed.

(** A loop that returns has run every iteration to its end. *)
Lemma for_each_ok {S A} (Q : list A -> S -> Prop) (body : A -> M S unit)
    (xs : list A) (s s' : S) :
  Q xs s ->
  (forall x rest s1 s2,
      Q (x :: rest) s1 -> body x s1 = (s2, Ok tt) -> Q rest s2) ->
  for_each xs body s = (s', Ok tt) ->
  Q [] s'.
Proof.
  intros HQ Hstep. revert s HQ.
  induction xs as [|x xs IH]; intros s HQ; simpl.
  - by intros [= <-].
  - intros Hb. apply bind_ok in Hb as ([] & s1 & Hx & Hrest).
    eapply IH; [| exact Hrest]. by eapply Hstep.
Qed.

(** Writing column [C] of one row does not change what the rows say
    about another column. *)
Lemma alter_other_col (rs : list (dict string value)) (idx : nat)
    (C C' : string) (w v : value) (s : nat) :
  C <> C' ->
  (exists row, alter (Dict.set C w) idx rs !! s = Some row
               /\ Dict.get C' row = Some v)
  <-> (exists row, rs !! s = Some row /\ Dict.get C' row = Some v).
Proof.
  intros Hne. rewrite list_lookup_alter. destruct (decide (idx = s)) as [->|Hs].
  - destruct (rs !! s) as [row0|]; simpl.
    + split.
      * intros (row & [= <-] & Hv). rewrite dict_get_set_ne in Hv by done.
        by exists row0.
      * intros (row & [= <-] & Hv). eexists. split; [done |].
        by rewrite dict_get_set_ne.
    + split; by intros (row & Hrow & _).
  - done.
Qed.

Lemma Forall_has_col_alter (rs : list (dict string value)) (idx : nat)
    (C C' : string) (w : value) :
  Forall (fun row => is_Some (Dict.get C' row)) rs ->
  Forall (fun row => is_Some (Dict.get C' row)) (alter (Dict.set C w) idx rs).
Proof.
  intros HF. apply Forall_alter; [done |]. intros row _ Hrow.
  rewrite dict_get_set. by case_decide.
Qed.

Lemma index_inv_other_col (rs : list (dict string value)) (idx : nat)
    (C C' : string) (w : value) (index : Index.t) :
  C <> C' -> index_inv rs C' index ->
  index_inv (alter (Dict.set C w) idx rs) C' index.
Proof.
  intros Hne (Hwf & Hwr & Hfwd & Hrev & Hcol).
  split_and!; [done | done | | done | by apply Forall_has_col_alter].
  intros v s. by rewrite Hfwd, alter_other_col.
Qed.

Lemma index_hole_other_col (rs : list (dict string value)) (idx i : nat)
    (C C' : string) (w : value) (index : Index.t) :
  C <> C' -> index_hole rs C' index i ->
  index_hole (alter (Dict.set C w) idx rs) C' index i.
Proof.
  intros Hne (Hwf & Hwr & Hfwd & Hrev & Hcol).
  split_and!; [done | done | | done | by apply Forall_has_col_alter].
  intros v s. by rewrite Hfwd, alter_other_col.
Qed.

(** [remove] of the row's current value takes the entry of the slot out
    of an index that holds the invariant. *)
Lemma index_hole_make (rs : list (dict string value)) (C : string)
    (index : Index.t) (idx : nat) (row : dict string value) (old : value) :
  index_inv rs C index ->
  rs !! idx = Some row -> Dict.get C row = Some old ->
  index_hole rs C (Index.remove old idx index).1 idx.
Proof.
  intros Hinv Hrow Hold.
  pose proof Hinv as (Hwf & Hwr & Hfwd & Hrev & Hcol).
  assert (Hp : Index.get index old = Some idx) by (apply Hfwd; by exists row).
  assert (G : forall v s, Index.get (Index.remove old idx index).1 v = Some s
                          <-> s <> idx /\ Index.get index v = Some s).
  { intros v s. rewrite index_remove_get. case_decide as Hc.
    - destruct Hc as [-> _]. split; [done |]. intros [Hs Hg]. congruence.
    - split; [| by intros [_ ?]]. intros Hg. split; [| done]. intros ->.
      apply Hc. split; [| done].
      by apply (index_inv_slots_distinct rs C index v old idx Hinv). }
  split_and!.
  - by apply index_remove_wf.
  - unfold Index.remove. simpl. case_match; [by apply dict_wf_del | done].
  - intros v s. fold (Index.get (Index.remove old idx index).1 v).
    rewrite G. unfold Index.get. by rewrite Hfwd.
  - intros s v. rewrite index_remove_reverse_get.
    fold (Index.get (Index.remove old idx index).1 v). rewrite G.
    case_decide as Hs.
    + subst. split; [done | by intros [? _]].
    + rewrite Hrev. unfold Index.get. split; [done | by intros [_ ?]].
  - done.
Qed.

(** Writing the new value into the row and [add]ing it fills the entry
    back in. *)
Lemma index_hole_fill (rs : list (dict string value)) (C : string)
    (index : Index.t) (idx : nat) (w : value) :
  index_hole rs C index idx ->
  is_Some (rs !! idx) ->
  Dict.mem w (Index._index index) = false ->
  index_inv (alter (Dict.set C w) idx rs) C (index_added w idx index).
Proof.
  intros (Hwf & Hwr & Hfwd & Hrev & Hcol) [row Hrow] Hm.
  apply dict_mem_false in Hm.
  unfold index_inv, index_added. cbn [Index._index Index._reverse_index].
  split_and!.
  - by apply dict_wf_set.
  - by apply dict_wf_set.
  - intros v s. rewrite dict_get_set, list_lookup_alter.
    destruct (decide (idx = s)) as [<-|Hs].
    + rewrite Hrow. simpl. destruct (decide (w = v)) as [<-|Hv].
      * split; [| done]. intros _. eexists. split; [done |].
        apply dict_get_set_eq.
      * split.
        -- intros Hg. apply Hfwd in Hg as [? _]. done.
        -- intros (r & [= <-] & Hr). rewrite dict_get_set_eq in Hr. congruence.
    + destruct (decide (w = v)) as [<-|Hv].
      * split; [intros [= ->]; done |].
        intros (r & Hr & Hrv).
        assert (Dict.get w (Index._index index) = Some s)
          by (apply Hfwd; split; [done | by exists r]).
        congruence.
      * rewrite Hfwd. split; [by intros [_ ?] | done].
  - intros s v. rewrite !dict_get_set.
    destruct (decide (idx = s)) as [<-|Hs]; destruct (decide (w = v)) as [<-|Hv].
    + done.
    + split; [congruence |]. intros Hg. apply Hfwd in Hg as [? _]. done.
    + rewrite Hrev, Hm. split; [done | congruence].
    + apply Hrev.
  - by apply Forall_has_col_alter.
Qed.

Lemma column_dict_names (cols : list Column.t) (acc : list (string * Column.t))
    (C : string) :
  C ∈ Dict.keys (fold_left (fun d c => Dict.set (Column.name c) c d) cols acc) ->
  C ∈ Dict.keys acc \/ C ∈ map Column.name cols.
Proof.
  revert acc. induction cols as [|c cols IH]; intros acc; simpl; [by left |].
  intros Hin. apply IH in Hin as [Hin|Hin]; [| right; by apply list_elem_of_further].
  apply dict_get_is_Some_keys in Hin. rewrite dict_get_set in Hin.
  case_decide as Hc.
  - right. subst. apply list_elem_of_here.
  - left. by apply dict_get_is_Some_keys.
Qed.

Lemma table_inv_pending_ext (idx : nat) (p1 p2 : list string) (t : Table.t) :
  (forall C, is_Some (Dict.get C (Table.indexes t)) -> (C ∈ p1 <-> C ∈ p2)) ->
  table_inv_pending idx p1 t -> table_inv_pending idx p2 t.
Proof.
  intros Hext (Hs & Hr & Hrow & Hix). split_and!; [done | done | done |].
  intros C index Hg. specialize (Hix C index Hg).
  assert (HC : C ∈ p1 <-> C ∈ p2) by (apply Hext; by eexists).
  destruct (decide (C ∈ p1)), (decide (C ∈ p2)); tauto.
Qed.

Lemma table_inv_pending_nil (idx : nat) (t : Table.t) :
  table_inv_pending idx [] t -> table_inv t.
Proof.
  intros (Hs & Hr & _ & Hix). split_and!; [done | done |].
  intros C index Hg. specialize (Hix C index Hg).
  by rewrite decide_False in Hix by apply not_elem_of_nil.
Qed.

Lemma schema_ok_set_index (t : Table.t) (C : string) (index index' : Index.t)
    (rs : list (dict string value)) :
  schema_ok t -> Dict.get C (Table.indexes t) = Some index ->
  schema_ok (Table.set_indexes (Dict.set C index' (Table.indexes t))
               (Table.set_rows rs t)).
Proof.
  intros [Hnd Hkeys] Hg. split; [done |]. cbn [Table.indexes Table.set_indexes
    Table.set_rows Table.columns].
  rewrite dict_keys_set_present; [done |].
  apply dict_get_is_Some_keys. by eexists.
Qed.

Section update_invariant.
Context `{IntOfStr}.

(** The first inner loop of the apply pass, one column: the entry of the
    slot leaves the index of an indexed column. *)
Lemma update_remove_step (all : list string) (idx : nat) (C : string)
    (rest : list string) (s s2 : Table.t) :
  NoDup (C :: rest) -> C ∈ all ->
  table_inv_pending idx (list_difference all (C :: rest)) s ->
  (s0 <- read ;;
   if Dict.mem C (Table.indexes s0) then
     row <- Table.getrow idx ;;
     old_value <- lift (Table.getitem C row) ;;
     Table.on_index C (Index.remove old_value idx)
   else ret tt) s = (s2, Ok tt) ->
  table_inv_pending idx (list_difference all rest) s2.
Proof.
  intros Hnd Hall Hpend Hbody. apply NoDup_cons in Hnd as [HC _].
  unfold bind at 1, read at 1 in Hbody.
  destruct (Dict.mem C (Table.indexes s)) eqn:Hm.
  - apply bind_ok in Hbody as (row & s1 & Hrow & Hbody).
    unfold Table.getrow in Hrow.
    destruct (Table.rows s !! idx) as [row0|] eqn:Hrow0; [| done].
    injection Hrow as <- <-.
    apply bind_ok in Hbody as (old & s1 & Hold & Hbody).
    unfold lift, Table.getitem in Hold.
    destruct (Dict.get C row0) as [old0|] eqn:Hold0; [| done].
    injection Hold as <- <-.
    unfold Table.on_index in Hbody.
    destruct (Dict.get C (Table.indexes s)) as [index|] eqn:Hg; [| done].
    simpl in Hbody. injection Hbody as <-.
    destruct Hpend as (Hs & Hr & Hsome & Hix).
    split_and!.
    + replace s with (Table.set_rows (Table.rows s) s) at 2 by by destruct s.
      by eapply schema_ok_set_index.
    + done.
    + done.
    + cbn [Table.indexes Table.rows Table.set_indexes].
      intros C' index' Hg'. rewrite dict_get_set in Hg'.
      destruct (decide (C = C')) as [<-|Hne].
      * injection Hg' as <-.
        rewrite decide_True by (apply list_elem_of_difference; by split).
        specialize (Hix C index Hg). rewrite decide_False in Hix.
        -- by eapply index_hole_make.
        -- rewrite list_elem_of_difference, not_elem_of_cons. tauto.
      * specialize (Hix C' index' Hg').
        assert (Hiff : C' ∈ list_difference all (C :: rest)
                       <-> C' ∈ list_difference all rest).
        { rewrite !list_elem_of_difference, not_elem_of_cons.
          split; [by intros (? & ? & ?) | intros [? ?]].
          split_and!; [done | congruence | done]. }
        destruct (decide (C' ∈ list_difference all (C :: rest))),
                 (decide (C' ∈ list_difference all rest)); tauto.
  - injection Hbody as <-. apply dict_mem_false in Hm.
    eapply table_inv_pending_ext; [| exact Hpend].
    intros C' [index' Hg'].
    rewrite !list_elem_of_difference, not_elem_of_cons.
    split; [by intros (? & ? & ?) | intros [? ?]].
    split_and!; [done | congruence | done].
Qed.

(** The second inner loop, one assignment: the row takes the validated
    value and, for an indexed column, the index takes the entry back. *)
Lemma update_write_step (idx : nat) (C : string) (new_value : value)
    (rest : dict string value) (s s2 : Table.t) :
  NoDup (C :: Dict.keys rest) ->
  table_inv_pending idx (C :: Dict.keys rest) s ->
  (s0 <- read ;;
   col <- lift (Table.getitem C (Table.column_dict s0)) ;;
   validated <- lift (Column.validate_value col new_value) ;;
   Table.setitem_row idx C validated ;;;
   if Dict.mem C (Table.indexes s0)
   then Table.on_index C (Index.add validated idx)
   else ret tt) s = (s2, Ok tt) ->
  table_inv_pending idx (Dict.keys rest) s2.
Proof.
  intros Hnd (Hs & Hr & Hsome & Hix) Hbody.
  apply NoDup_cons in Hnd as [HC _].
  unfold bind at 1, read at 1 in Hbody.
  apply bind_ok in Hbody as (col & s1 & Hcol & Hbody).
  unfold lift, Table.getitem in Hcol.
  destruct (Dict.get C (Table.column_dict s)) as [col0|] eqn:Hcol0; [| done].
  injection Hcol as <- <-.
  apply bind_ok in Hbody as (w & s1 & Hw & Hbody).
  unfold lift in Hw.
  destruct (Column.validate_value col0 new_value) as [w0|] eqn:Hw0; [| done].
  injection Hw as <- <-.
  unfold bind at 1, Table.setitem_row at 1, modify at 1 in Hbody.
  set (rs' := alter (Dict.set C w0) idx (Table.rows s)) in *.
  assert (HCcol : C ∈ map Column.name (Table.columns s)).
  { destruct (column_dict_names (Table.columns s) [] C) as [Hin|Hin]; [| | done].
    - apply dict_get_is_Some_keys. by eexists.
    - by apply elem_of_nil in Hin. }
  assert (Hr' : Forall (fun row => Dict.keys row = map Column.name (Table.columns s)) rs').
  { apply Forall_alter; [done |]. intros row _ Hrow.
    rewrite dict_keys_set_present; [done | by rewrite Hrow]. }
  assert (Hsome' : is_Some (rs' !! idx)).
  { unfold rs'. rewrite list_lookup_alter_eq. destruct Hsome as [r ->]. by eexists. }
  assert (Hothers : forall C' index',
             C <> C' -> Dict.get C' (Table.indexes s) = Some index' ->
             if decide (C' ∈ Dict.keys rest)
             then index_hole rs' C' index' idx else index_inv rs' C' index').
  { intros C' index' Hne Hg'. specialize (Hix C' index' Hg').
    destruct (decide (C' ∈ Dict.keys rest)) as [Hin|Hnin].
    - rewrite decide_True in Hix by by apply list_elem_of_further.
      by apply index_hole_other_col.
    - rewrite decide_False in Hix by (rewrite not_elem_of_cons; by split).
      by apply index_inv_other_col. }
  destruct (Dict.mem C (Table.indexes s)) eqn:Hm.
  - unfold Table.on_index in Hbody.
    cbn [Table.indexes Table.set_rows] in Hbody.
    destruct (Dict.get C (Table.indexes s)) as [index|] eqn:Hg; [| done].
    unfold Index.add in Hbody.
    destruct (Dict.mem w0 (Index._index index)) eqn:Hmw; [done |].
    simpl in Hbody. injection Hbody as <-.
    split_and!.
    + by eapply schema_ok_set_index.
    + done.
    + done.
    + cbn [Table.indexes Table.rows Table.set_indexes Table.set_rows].
      intros C' index' Hg'. rewrite dict_get_set in Hg'.
      destruct (decide (C = C')) as [<-|Hne].
      * injection Hg' as <-. rewrite decide_False by done.
        specialize (Hix C index Hg).
        rewrite decide_True in Hix by apply list_elem_of_here.
        by apply index_hole_fill.
      * by apply Hothers.
  - injection Hbody as <-. apply dict_mem_false in Hm.
    split_and!; [done | done | done |].
    cbn [Table.indexes Table.rows Table.set_rows].
    intros C' index' Hg'. apply Hothers; [congruence | done].
Qed.

(** The body of the apply loop keeps the invariant when it returns. *)
Lemma table_inv_apply_update (updates : dict string value) (idx : nat)
    (s s' : Table.t) :
  Dict.wf updates -> table_inv s ->
  Table.apply_update updates idx s = (s', Ok tt) ->
  table_inv s'.
Proof.
  intros Hwf (Hs & Hr & Hix) Happly. unfold Table.apply_update in Happly.
  apply bind_ok in Happly as (row & s1 & Hrow & Happly).
  unfold Table.getrow in Hrow.
  destruct (Table.rows s !! idx) as [row0|] eqn:Hrow0; [| done].
  injection Hrow as <- <-.
  apply bind_ok in Happly as ([] & s1 & Hloop1 & Hloop2).
  apply (for_each_ok
           (fun remaining st =>
              NoDup remaining /\ remaining ⊆ Dict.keys updates
              /\ table_inv_pending idx
                   (list_difference (Dict.keys updates) remaining) st))
    in Hloop1.
  - destruct Hloop1 as (_ & _ & Hpend1).
    apply (for_each_ok
             (fun remaining st =>
                NoDup (Dict.keys remaining)
                /\ table_inv_pending idx (Dict.keys remaining) st))
      in Hloop2.
    + destruct Hloop2 as [_ Hpend2]. by apply (table_inv_pending_nil idx).
    + split; [done |]. eapply table_inv_pending_ext; [| exact Hpend1].
      intros C _. rewrite list_elem_of_difference.
      split; [by intros [? _] | intros ?; split; [done | apply not_elem_of_nil]].
    + intros [C new_value] rest st1 st2 [Hnd Hpend] Hbody. simpl in Hnd.
      split; [by apply NoDup_cons in Hnd as [_ ?] |].
      by eapply update_write_step.
  - split_and!; [done | done |].
    split_and!; [done | done | by eexists |].
    intros C index Hg. rewrite decide_False; [by apply Hix |].
    rewrite list_elem_of_difference. tauto.
  - intros C rest st1 st2 (Hnd & Hsub & Hpend) Hbody.
    split_and!.
    + by apply NoDup_cons in Hnd as [_ ?].
    + intros x Hx. apply Hsub. by apply list_elem_of_further.
    + eapply update_remove_step; [done | | done | done].
      apply Hsub, list_elem_of_here.
Qed.

(** [update] keeps the invariant whenever it returns. *)
Lemma table_inv_update_ok (t t' : Table.t) (updates : dict string value)
    (conditions : option (dict string value)) (n : nat) :
  Dict.wf updates -> table_inv t ->
  Table.update updates conditions t = (t', Ok n) ->
  table_inv t'.
Proof.
  intros Hwf Hinv. unfold Table.update.
  destruct (Table.target_indices t conditions) as [indices|e]; [| done].
  destruct (Table.validate_updates t indices updates) as [[]|e]; [| done].
  intros Hupd. apply bind_ok in Hupd as ([] & s1 & Hloop & Hret).
  injection Hret as <- _.
  apply (for_each_ok (fun _ st => table_inv st)) in Hloop; [done | done |].
  intros idx rest st1 st2 Hst1 Hbody. by eapply table_inv_apply_update.
Qed.

(** Every table reached without a failed [update] holds the invariant. *)
Lemma reachable_table_inv (t : Table.t) : reachable t -> table_inv t.
Proof.
  induction 1 as [name cols t Hnd Hinit|values t _ IH|conditions t _ IH
                 |updates conditions t t' n _ IH Hwf Hupd].
  - by eapply table_inv_init.
  - by apply table_inv_insert.
  - by apply table_inv_delete.
  - by eapply table_inv_update_ok.
Qed.

End update_invariant.

(** ** Update: what the validation pass does guarantee *)

Section update_facts.
Context `{IntOfStr}.

(** When resolving the targets or the validation pass raises, [update]
    has written nothing. *)
Lemma update_refused_untouched (t : Table.t) (updates : dict string value)
    (conditions : option (dict string value)) (e : error) :
  Table.target_indices t conditions = Raise e
  \/ (exists indices, Table.target_indices t conditions = Ok indices
                      /\ Table.validate_updates t indices updates = Raise e) ->
  Table.update updates conditions t = (t, Raise e).
Proof.
  unfold Table.update. intros [->|(indices & -> & ->)]; done.
Qed.

(** X1: the conflict the validation pass does catch: an assignment whose
    validated value is indexed at a slot other than some target's makes
    [update] raise the uniqueness error with nothing written. *)
Lemma update_conflict_refused (t : Table.t) (C : string) (new_value w : value)
    (col : Column.t) (index : Index.t) (s : nat)
    (conditions : option (dict string value)) (indices : list nat) :
  Table.target_indices t conditions = Ok indices ->
  Dict.get C (Table.indexes t) = Some index ->
  Dict.get C (Table.column_dict t) = Some col ->
  Column.validate_value col new_value = Ok w ->
  Index.get index w = Some s ->
  (exists idx, idx ∈ indices /\ idx <> s) ->
  Table.update [(C, new_value)] conditions t = (t, Raise ConstraintViolation).
Proof.
  intros Htarget Hg Hcol Hw Hs Hother.
  apply update_refused_untouched. right. exists indices. split; [done |].
  pose proof (target_indices_bound _ _ _ Htarget) as Hbound.
  clear Htarget. induction Hbound as [|idx indices Hidx _ IH].
  - destruct Hother as (idx & Hin & _). by apply elem_of_nil in Hin.
  - destruct (lookup_lt_is_Some_2 _ _ Hidx) as [row Hrow].
    simpl. rewrite Hrow, Hg. unfold Table.getitem. rewrite Hcol, Hw, Hs.
    destruct (decide (s = idx)) as [->|Hne]; [| done].
    apply IH. destruct Hother as (idx' & Hin & Hne).
    apply elem_of_cons in Hin as [->|Hin]; [done | by exists idx'].
Qed.

(** Sequences of [insert] and [delete], failed ones included, keep the
    invariant: only [update] can lose it. *)
Lemma table_inv_without_update (ops : list op) (t : Table.t) :
  Forall (fun o => match o with OpUpdate _ _ => False | _ => True end) ops ->
  table_inv t -> table_inv (run_ops ops t).
Proof.
  intros Hops. revert t. unfold run_ops.
  induction Hops as [|o ops Ho _ IH]; intros t Hinv; [done |].
  simpl. apply IH. destruct o as [values|updates conditions|conditions]; simpl.
  - by apply table_inv_insert.
  - done.
  - by apply table_inv_delete.
Qed.

End update_facts.

(** ** Row objects: what [select] shares with the table *)

(** With no condition [select] returns the table's own row objects. *)
Lemma select_all_aliases (self : ObjTable.t) (h : Heap.t) :
  ObjTable.select self None h = (h, Ok (ObjTable.rows self))
  /\ ObjTable.select self (Some []) h = (h, Ok (ObjTable.rows self)).
Proof. done. Qed.

Lemma view_app_valid (h added : Heap.t) (refs : list nat) :
  Forall (fun l => l < length h) refs ->
  Heap.view (h ++ added) refs = Heap.view h refs.
Proof.
  unfold Heap.view. induction 1 as [|l refs Hl _ IH]; [done |].
  simpl. rewrite lookup_app_l by done.
  destruct (h !! l); [f_equal |]; exact IH.
Qed.

Lemma view_fresh (h added : Heap.t) :
  Heap.view (h ++ added) (seq (length h) (length added)) = added.
Proof.
  unfold Heap.view. revert h.
  induction added as [|row added IH]; intros h; [done |].
  simpl. rewrite lookup_app_r, Nat.sub_diag by done. simpl. f_equal.
  specialize (IH (h ++ [row])).
  rewrite length_app in IH. simpl in IH. rewrite Nat.add_1_r in IH.
  rewrite <- app_assoc in IH. exact IH.
Qed.

Lemma view_lookup (h : Heap.t) (refs : list nat) (i l : nat) :
  Forall (fun l => l < length h) refs ->
  refs !! i = Some l -> Heap.view h refs !! i = h !! l.
Proof.
  unfold Heap.view. intros Hvalid. revert i.
  induction Hvalid as [|l0 refs Hl0 _ IH]; intros i Hi; [done |].
  destruct (lookup_lt_is_Some_2 _ _ Hl0) as [row0 Hrow0].
  simpl. rewrite Hrow0. destruct i as [|i]; simpl in *.
  - by injection Hi as ->.
  - by apply IH.
Qed.

Lemma view_lookup_None (h : Heap.t) (refs : list nat) (i : nat) :
  Forall (fun l => l < length h) refs ->
  refs !! i = None -> Heap.view h refs !! i = None.
Proof.
  unfold Heap.view. intros Hvalid. revert i.
  induction Hvalid as [|l0 refs Hl0 _ IH]; intros i Hi; [done |].
  destruct (lookup_lt_is_Some_2 _ _ Hl0) as [row0 Hrow0].
  simpl. rewrite Hrow0. destruct i as [|i]; simpl in *; [done |].
  by apply IH.
Qed.

(** Writing to an object the table does not hold leaves the table's
    rows as they were. *)
Lemma view_setitem_other (h : Heap.t) (refs : list nat) (l : nat)
    (k : string) (v : value) :
  l ∉ refs -> Heap.view (Heap.setitem l k v h) refs = Heap.view h refs.
Proof.
  unfold Heap.view, Heap.setitem.
  induction refs as [|l0 refs IH]; intros Hl; [done |].
  apply not_elem_of_cons in Hl as [Hne Hl].
  simpl. rewrite list_lookup_alter_ne by done.
  destruct (h !! l0); [f_equal |]; by apply IH.
Qed.

(** The scan loop on objects allocates one new object per matching row,
    after every object that existed, and touches no existing object. *)
Lemma obj_scan_spec (refs : list nat) (conditions : dict string value)
    (h : Heap.t) :
  Forall (fun l => l < length h) refs ->
  let added := Table.scan (Heap.view h refs) conditions in
  ObjTable.scan refs conditions h
  = (h ++ added, Ok (seq (length h) (length added))).
Proof.
  revert h. induction refs as [|l refs IH]; intros h Hvalid; simpl.
  - by rewrite app_nil_r.
  - apply Forall_cons in Hvalid as [Hl Hvalid].
    destruct (lookup_lt_is_Some_2 _ _ Hl) as [row Hrow].
    unfold Heap.view. simpl. rewrite Hrow. simpl.
    fold (Heap.view h refs).
    destruct (Table.row_matches conditions row).
    + assert (Hvalid' : Forall (fun l => l < length (h ++ [row])) refs).
      { eapply Forall_impl; [exact Hvalid |]. intros x Hx. simpl in *.
        rewrite length_app. simpl. lia. }
      pose proof (IH (h ++ [row]) Hvalid') as IH'. cbv zeta in IH'.
      rewrite IH'. rewrite view_app_valid by done. simpl.
      rewrite length_app. simpl. rewrite Nat.add_1_r.
      by rewrite <- app_assoc.
    + by apply IH.
Qed.

(** X2: with a condition, [select] returns new objects only: the objects the
    table holds are untouched, the result reads as [Table.select] on the
    table of values says, and writing to a returned row changes no stored
    row. *)
Lemma select_where_copies (self : ObjTable.t) (name : string)
    (columns : list Column.t) (c : string * value)
    (conditions : dict string value) (h h' : Heap.t) (ls : list nat) :
  Forall (fun l => l < length h) (ObjTable.rows self) ->
  ObjTable.select self (Some (c :: conditions)) h = (h', Ok ls) ->
  Table.select (ObjTable.to_table name columns h self) (Some (c :: conditions))
  = Ok (Heap.view h' ls)
  /\ Forall (fun l => length h <= l) ls
  /\ forall l k v,
       l ∈ ls ->
       Heap.view (Heap.setitem l k v h') (ObjTable.rows self)
       = Heap.view h (ObjTable.rows self).
Proof.
  intros Hvalid Hsel.
  assert (Hgen : exists added,
             h' = h ++ added /\ ls = seq (length h) (length added)
             /\ Table.select (ObjTable.to_table name columns h self)
                             (Some (c :: conditions)) = Ok added).
  { unfold ObjTable.select in Hsel. unfold Table.select.
    cbn [ObjTable.to_table Table.indexes Table.rows].
    destruct c as [col_name v].
    destruct conditions as [|c2 conditions].
    - destruct (Dict.get col_name (ObjTable.indexes self)) as [index|].
      + destruct (Index.get index v) as [idx|].
        * destruct (ObjTable.rows self !! idx) as [l|] eqn:Hl; [| done].
          pose proof (Forall_lookup_1 _ _ _ _ Hvalid Hl) as Hlt.
          destruct (lookup_lt_is_Some_2 _ _ Hlt) as [row Hrow].
          rewrite Hrow in Hsel. injection Hsel as <- <-.
          exists [row]. split_and!; [done | done |].
          by rewrite (view_lookup h _ idx l), Hrow.
        * injection Hsel as <- <-. exists []. by rewrite app_nil_r.
      + rewrite obj_scan_spec in Hsel by done. injection Hsel as <- <-.
        by eexists.
    - rewrite obj_scan_spec in Hsel by done. injection Hsel as <- <-.
      by eexists. }
  destruct Hgen as (added & -> & -> & Hval).
  split_and!.
  - rewrite Hval. by rewrite view_fresh.
  - apply Forall_forall. intros l Hl. apply elem_of_seq in Hl. lia.
  - intros l k v Hl. apply elem_of_seq in Hl.
    rewrite view_setitem_other.
    + by apply view_app_valid.
    + intros Hin. apply (Forall_forall (fun l => l < length h)) with (x := l) in Hvalid;
        [lia | done].
Qed.

(** * Further properties

    The operations beyond the ones singled out above: what they return
    and raise, what they keep, and how they compose. *)

(** ** Index: lookups after [add], [remove], [update] and
    [adjust_for_deletion] *)

Lemma dict_del_app {K V} `{EqDecision K} (k : K) (d1 d2 : list (K * V)) :
  Dict.del k (d1 ++ d2) = Dict.del k d1 ++ Dict.del k d2.
Proof.
  induction d1 as [|[k' v'] d1 IH]; simpl; [done |].
  case_decide; [done |]. simpl. by rewrite IH.
Qed.

Lemma index_add_fresh (v : value) (slot : nat) (self : Index.t) :
  Index.contains self v = false ->
  Index.add v slot self = (index_added v slot self, Ok tt).
Proof. unfold Index.contains, Index.add. by intros ->. Qed.

Lemma index_added_get (v : value) (slot : nat) (self : Index.t) (v' : value) :
  Index.get (index_added v slot self) v'
  = if decide (v = v') then Some slot else Index.get self v'.
Proof. unfold Index.get, index_added. simpl. apply dict_get_set. Qed.

(** X3: [Index.add] on a value the index holds raises and changes nothing;
    on a new value it records the slot: the value is then found at that
    slot by [get] and [in], the reverse dictionary maps the slot back to
    the value, and the lookup of every other value is as before. *)
Theorem index_add_get (v : value) (slot : nat) (self : Index.t) :
  (Index.contains self v = true ->
   Index.add v slot self = (self, Raise ConstraintViolation))
  /\ (Index.contains self v = false ->
      (Index.add v slot self).2 = Ok tt
      /\ Index.get (Index.add v slot self).1 v = Some slot
      /\ Index.contains (Index.add v slot self).1 v = true
      /\ Dict.get slot (Index._reverse_index (Index.add v slot self).1) = Some v
      /\ forall v', v' <> v ->
           Index.get (Index.add v slot self).1 v' = Index.get self v').
Proof.
  unfold Index.contains, Index.add, Index.get. split; intros Hc; rewrite Hc.
  - done.
  - simpl. split_and!; try done.
    + apply dict_get_set_eq.
    + unfold Dict.mem. by rewrite dict_get_set_eq.
    + apply dict_get_set_eq.
    + intros v' Hne. by apply dict_get_set_ne.
Qed.

(** X4: [remove] undoes [add]: adding a value the index does not hold, at a
    slot the reverse dictionary does not hold, and removing it again
    gives back the index, entry order included. *)
Theorem index_remove_undoes_add (v : value) (slot : nat) (self : Index.t) :
  Index.contains self v = false ->
  Dict.get slot (Index._reverse_index self) = None ->
  Index.add v slot self
  = ({| Index.column_name := Index.column_name self;
        Index._index := Index._index self ++ [(v, slot)];
        Index._reverse_index := Index._reverse_index self ++ [(slot, v)] |},
     Ok tt)
  /\ (Index.remove v slot (Index.add v slot self).1).1 = self.
Proof.
  intros Hc Hr. unfold Index.contains in Hc.
  pose proof Hc as Hc'. apply dict_mem_false in Hc'.
  assert (Hf : Dict.set v slot (Index._index self) = Index._index self ++ [(v, slot)])
    by (apply dict_set_absent; by apply dict_get_None_keys).
  assert (Hb : Dict.set slot v (Index._reverse_index self)
               = Index._reverse_index self ++ [(slot, v)])
    by (apply dict_set_absent; by apply dict_get_None_keys).
  unfold Index.add. rewrite Hc, Hf, Hb. split; [done |].
  unfold Index.remove. cbn [fst Index._index Index._reverse_index Index.column_name].
  rewrite bool_decide_eq_true_2.
  2:{ rewrite dict_get_app, Hc'. simpl. by rewrite decide_True. }
  assert (Hm : Dict.mem slot (Index._reverse_index self ++ [(slot, v)]) = true).
  { apply dict_mem_true. rewrite dict_get_app, Hr. simpl. by rewrite decide_True. }
  rewrite Hm, !dict_del_app. simpl. rewrite !decide_True by done.
  rewrite !dict_del_absent by done. rewrite !app_nil_r. by destruct self.
Qed.

(** X5: [Index.update] when the slot's entry is [old_value] and the new value
    is free (or is [old_value] itself): the call returns, the new value
    is found at the slot, the old one (if different) is gone, the reverse
    dictionary maps the slot to the new value, and every other value is
    found where it was. *)
Theorem index_update_moves_slot (old_value new_value : value) (slot : nat)
    (self : Index.t) :
  Index.get self old_value = Some slot ->
  new_value = old_value \/ Index.contains self new_value = false ->
  let after := (Index.update old_value new_value slot self).1 in
  (Index.update old_value new_value slot self).2 = Ok tt
  /\ Index.get after new_value = Some slot
  /\ (new_value <> old_value -> Index.get after old_value = None)
  /\ Dict.get slot (Index._reverse_index after) = Some new_value
  /\ forall v, v <> old_value -> v <> new_value ->
       Index.get after v = Index.get self v.
Proof.
  intros Hold Hnew after.
  assert (Hfree : Index.contains (Index.remove old_value slot self).1 new_value = false).
  { unfold Index.contains. apply dict_mem_false.
    fold (Index.get (Index.remove old_value slot self).1 new_value).
    rewrite index_remove_get. case_decide as Hd; [done |].
    destruct Hnew as [->|Hnew]; [by destruct Hd |].
    unfold Index.contains in Hnew. by apply dict_mem_false in Hnew. }
  assert (Hupd : Index.update old_value new_value slot self
                 = (index_added new_value slot
                      (Index.remove old_value slot self).1, Ok tt)).
  { unfold Index.update, bind. rewrite (surjective_pairing (Index.remove _ _ _)).
    rewrite index_remove_ok. by apply index_add_fresh. }
  unfold after. rewrite Hupd. cbn [fst snd]. split_and!; try done.
  - rewrite index_added_get. by rewrite decide_True.
  - intros Hne. rewrite index_added_get, decide_False by done.
    rewrite index_remove_get. by rewrite decide_True.
  - simpl. apply dict_get_set_eq.
  - intros v Hv1 Hv2. rewrite index_added_get, decide_False by done.
    rewrite index_remove_get. rewrite decide_False; [done |]. by intros [? _].
Qed.

(** The forward dictionary [adjust_for_deletion] builds: the surviving
    entries with their new slots, in order. *)
Lemma adjust_loop_forward (p : nat) (items : list (value * nat))
    (nf : list (value * nat)) (nr : list (nat * value)) :
  NoDup (Dict.keys nf ++ Dict.keys items) ->
  (Index.adjust_loop p items nf nr).1
  = nf ++ map (fun vs => (vs.1, shifted p vs.2)) (filter (fun vs => vs.2 <> p) items).
Proof.
  revert nf nr. induction items as [|[v s] items IH]; intros nf nr Hnd; simpl.
  - by rewrite app_nil_r.
  - simpl in Hnd.
    assert (Hfresh : v ∉ Dict.keys nf).
    { apply NoDup_app in Hnd as (_ & Hdisj & _). intros Hin.
      apply (Hdisj _ Hin). apply list_elem_of_here. }
    assert (Hnd' : NoDup (Dict.keys (nf ++ [(v, shifted p s)]) ++ Dict.keys items)).
    { rewrite dict_keys_app. simpl. by rewrite <- app_assoc. }
    destruct (decide (s = p)) as [->|Hne].
    + rewrite filter_cons_False by (simpl; auto).
      rewrite decide_False by lia. rewrite decide_False by lia. apply IH.
      apply NoDup_app in Hnd as (H1 & H2 & H3). apply NoDup_cons in H3 as [_ H3].
      apply NoDup_app. split_and!; [done | | done].
      intros x Hx Hx'. apply (H2 x Hx). by apply list_elem_of_further.
    + rewrite filter_cons_True by done. simpl.
      assert (Hstep : forall nr',
                 (Index.adjust_loop p items (Dict.set v (shifted p s) nf) nr').1
                 = nf ++ (v, shifted p s)
                      :: map (fun vs => (vs.1, shifted p vs.2))
                           (filter (fun vs => vs.2 <> p) items)).
      { intros nr'. rewrite dict_set_absent by done. rewrite IH by done.
        by rewrite <- app_assoc. }
      unfold shifted in Hstep |- *.
      destruct (decide (p < s)); [apply Hstep |].
      rewrite decide_True by lia. apply Hstep.
Qed.

(** X6: [adjust_for_deletion] rebuilds both dictionaries from the forward
    one: when no two values share a slot, the new reverse dictionary is
    the exact inverse of the new forward one, whatever the old reverse
    dictionary held.  The forward dictionary keeps, in order, the entries
    of the slots other than [d], those after [d] moved one slot down. *)
Theorem index_adjust_rebuilds_inverse (d : nat) (self : Index.t) :
  Dict.wf (Index._index self) ->
  (forall v1 v2 s, Index.get self v1 = Some s -> Index.get self v2 = Some s ->
                   v1 = v2) ->
  let after := (Index.adjust_for_deletion d self).1 in
  Dict.wf (Index._index after)
  /\ Dict.wf (Index._reverse_index after)
  /\ (forall s v, Dict.get s (Index._reverse_index after) = Some v
                  <-> Index.get after v = Some s)
  /\ Index._index after
     = map (fun vs => (vs.1, shifted d vs.2))
         (filter (fun vs => vs.2 <> d) (Index._index self))
  /\ Index._reverse_index after
     = map (fun vs => (shifted d vs.2, vs.1))
         (filter (fun vs => vs.2 <> d) (Index._index self)).
Proof.
  intros Hwf Hinj after.
  assert (E : forall v s', Index.get after v = Some s'
              <-> exists s, Index.get self v = Some s /\ s <> d
                            /\ s' = shifted d s).
  { intros v s'. unfold after. rewrite index_adjust_get by done.
    unfold shifted. destruct (Index.get self v) as [s|]; split.
    - intros Hs. exists s. repeat case_decide; try done;
        injection Hs as <-; (split_and!; [done | lia | done]).
    - intros (s0 & [= <-] & Hne & ->).
      destruct (decide (d < s)); [done |]. by rewrite decide_True by lia.
    - done.
    - by intros (s0 & ? & _). }
  destruct (index_adjust_fields d self) as [Ef Er].
  destruct (adjust_loop_wf d (Index._index self) [] []) as [Wf Wr];
    [apply NoDup_nil_2 | apply NoDup_nil_2 |].
  assert (Hnd : NoDup (map (fun vs : value * nat => shifted d vs.2)
                         (filter (fun vs => vs.2 <> d) (Index._index self)))).
  { apply NoDup_fmap_2_strong.
    - intros [v1 s1] [v2 s2] H1 H2 Hsh. simpl in Hsh.
      apply list_elem_of_filter in H1 as [Hs1 H1], H2 as [Hs2 H2]. simpl in *.
      pose proof (shifted_inj d s1 s2 Hs1 Hs2 Hsh) as ->.
      apply (dict_elem_get _ _ _ Hwf) in H1, H2.
      by rewrite (Hinj v1 v2 s2 H1 H2).
    - apply NoDup_filter. by apply (NoDup_fmap_1 fst). }
  assert (Hrev : Index._reverse_index after
                 = map (fun vs : value * nat => (shifted d vs.2, vs.1))
                     (filter (fun vs => vs.2 <> d) (Index._index self))).
  { unfold after. rewrite Er. by rewrite adjust_loop_reverse. }
  assert (Hinv : forall s v, Dict.get s (Index._reverse_index after) = Some v
                             <-> Index.get after v = Some s).
  { intros s' v. rewrite E, Hrev. split.
    - intros Hg. apply dict_get_Some_elem in Hg.
      apply list_elem_of_fmap in Hg as ([v0 s] & [= -> ->] & Hin).
      apply list_elem_of_filter in Hin as [Hs Hin]. simpl in *.
      exists s. split_and!; [| done | done]. by apply dict_elem_get.
    - intros (s & Hg & Hs & ->). apply dict_elem_get.
      + unfold Dict.wf, Dict.keys. rewrite <- list_fmap_compose. exact Hnd.
      + apply list_elem_of_fmap. exists (v, s). split; [done |].
        apply list_elem_of_filter. split; [done |].
        by apply dict_get_Some_elem. }
  unfold after in *. rewrite Ef, Er in *. split_and!; try done.
  by rewrite adjust_loop_forward.
Qed.

(** ** Column: the outcome of validation *)

Section validate_facts.
Context `{IntOfStr}.

(** X7: [validate_value] raises only [TypeError], and exactly on a string
    that [int] refuses for an [INT] column; what it returns is [None]
    (only for [None]) or a value of the column's type. *)
Theorem validate_value_outcome (c : Column.t) (v : value) :
  (forall e, Column.validate_value c v = Raise e <->
             e = TypeError /\ Column.data_type c = INT
             /\ exists s, v = VStr s /\ int_of_str s = None)
  /\ (forall w, Column.validate_value c v = Ok w ->
                value_typed (Column.data_type c) w /\ (w = VNone <-> v = VNone)).
Proof.
  unfold Column.validate_value. split.
  - intros e. destruct v as [|z|s], (Column.data_type c); simpl;
      try (split; [done | by intros (_ & ? & ? & ? & ?)]).
    destruct (int_of_str s) as [z|] eqn:Hs.
    + split; [done |]. intros (_ & _ & s' & [= <-] & Hs'). congruence.
    + split; [intros [= <-]; eauto |]. by intros (-> & _).
  - intros w. destruct v as [|z|s], (Column.data_type c); simpl;
      try (intros [= <-]; by split).
    destruct (int_of_str s); [| done]. intros [= <-]. by split.
Qed.

End validate_facts.

(** ** Table: what [__init__] builds *)

Lemma init_indexes_all (cols : list Column.t) (acc : list (string * Index.t))
    (c : Column.t) :
  c ∈ cols -> Column.indexed c = true ->
  is_Some
    (Dict.get (Column.name c)
       (fold_left
          (fun d c =>
             if Column.indexed c
             then Dict.set (Column.name c) (Index.init (Column.name c)) d else d)
          cols acc)).
Proof.
  assert (Hkeep : forall cols acc k,
             is_Some (Dict.get k acc) ->
             is_Some
               (Dict.get k
                  (fold_left
                     (fun d c =>
                        if Column.indexed c
                        then Dict.set (Column.name c) (Index.init (Column.name c)) d
                        else d)
                     cols acc))).
  { clear. induction cols as [|c0 cols IH]; intros acc k Hk; [done |].
    simpl. apply IH. destruct (Column.indexed c0); [| done].
    rewrite dict_get_set. by case_decide. }
  revert acc. induction cols as [|c0 cols IH]; intros acc Hin Hix.
  - by apply elem_of_nil in Hin.
  - simpl. apply elem_of_cons in Hin as [->|Hin].
    + apply Hkeep. rewrite Hix. by rewrite dict_get_set_eq.
    + by apply IH.
Qed.

Lemma table_init_raises (name : string) (cols : list Column.t) :
  cols = [] \/ 1 < length (filter (fun c => Column.is_primary_key c = true) cols) ->
  Table.init name cols = Raise SchemaError.
Proof.
  intros [->|Hpk]; [done |]. unfold Table.init. destruct cols; [done |].
  by rewrite decide_True.
Qed.

Lemma table_init_returns (name : string) (cols : list Column.t) :
  cols <> [] ->
  length (filter (fun c => Column.is_primary_key c = true) cols) <= 1 ->
  Table.init name cols
  = Ok {| Table.name := name; Table.columns := cols; Table.rows := [];
          Table.indexes :=
            fold_left
              (fun d c =>
                 if Column.indexed c
                 then Dict.set (Column.name c) (Index.init (Column.name c)) d
                 else d)
              cols [] |}.
Proof.
  intros Hne Hpk. unfold Table.init. destruct cols as [|c0 cols]; [done |].
  by rewrite decide_False by lia.
Qed.

Lemma table_init_fields (name : string) (cols : list Column.t) (t : Table.t) :
  Table.init name cols = Ok t ->
  Table.name t = name /\ Table.columns t = cols /\ Table.rows t = [].
Proof.
  unfold Table.init. destruct cols; [done |]. case_decide; [done |].
  by intros [= <-].
Qed.

(** X8: [Table.__init__] refuses an empty column list and a column list with
    more than one primary key; otherwise it returns a table of the given
    name and columns with no row, holding an empty index for every
    primary-key or unique column and for no other name; if the column
    names are distinct, the table holds the invariant of the data
    model. *)
Theorem table_init_outcome (name : string) (cols : list Column.t) :
  let pks := filter (fun c => Column.is_primary_key c = true) cols in
  (cols = [] \/ 1 < length pks -> Table.init name cols = Raise SchemaError)
  /\ (cols <> [] -> length pks <= 1 ->
      exists t,
        Table.init name cols = Ok t
        /\ Table.name t = name /\ Table.columns t = cols /\ Table.rows t = []
        /\ (forall c, c ∈ cols -> Column.indexed c = true ->
              Dict.get (Column.name c) (Table.indexes t)
              = Some (Index.init (Column.name c)))
        /\ (forall k index,
              Dict.get k (Table.indexes t) = Some index ->
              index = Index.init k
              /\ exists c, c ∈ cols /\ Column.name c = k /\ Column.indexed c = true)
        /\ (NoDup (map Column.name cols) -> table_inv t)).
Proof.
  intros pks. split; [apply table_init_raises |].
  intros Hne Hpk. rewrite table_init_returns by done.
  eexists. split; [done |]. cbn [Table.name Table.columns Table.rows Table.indexes].
  set (ixs := fold_left _ cols []).
  assert (Hempty : forall k i, Dict.get k ixs = Some i -> i = Index.init k)
    by (apply init_indexes_empty; done).
  split_and!; try done.
  - intros c Hc Hix. destruct (init_indexes_all cols [] c Hc Hix) as [i Hi].
    fold ixs in Hi. rewrite Hi. f_equal. by apply Hempty.
  - intros k index Hg. split; [by apply Hempty |].
    assert (Hk : k ∈ Dict.keys ixs) by (apply dict_get_is_Some_keys; eauto).
    clear -Hk. unfold ixs in Hk. clear ixs.
    assert (Hgen : forall cols acc,
               k ∈ Dict.keys
                     (fold_left
                        (fun d c =>
                           if Column.indexed c
                           then Dict.set (Column.name c)
                                  (Index.init (Column.name c)) d
                           else d) cols acc) ->
               k ∈ Dict.keys acc
               \/ exists c, c ∈ cols /\ Column.name c = k
                            /\ Column.indexed c = true).
    { clear. induction cols as [|c cols IH]; intros acc Hk; [by left |].
      simpl in Hk. apply IH in Hk as [Hk|(c' & Hc' & Hn & Hi)].
      - destruct (Column.indexed c) eqn:Hix; [| by left].
        destruct (decide (Column.name c = k)) as [<-|Hne].
        + right. exists c. split_and!; [apply list_elem_of_here | done | done].
        + left. apply dict_get_is_Some_keys in Hk.
          rewrite dict_get_set_ne in Hk by done.
          by apply dict_get_is_Some_keys.
      - right. exists c'. split_and!; [by apply list_elem_of_further | done | done]. }
    destruct (Hgen _ _ Hk) as [Hnil|Hc]; [by apply elem_of_nil in Hnil | done].
  - intros Hnd. by apply table_inv_fresh.
Qed.

(** ** Engine: the catalog of tables *)

Lemma engine_eta (e : DatabaseEngine.t) :
  {| DatabaseEngine.tables := DatabaseEngine.tables e |} = e.
Proof. by destruct e. Qed.

Section engine_catalog.
Context `{IntOfStr}.

(** X9: every operation addressed to a name the catalog does not hold raises
    the "table doesn't exist" [ValueError] and leaves the engine as it
    was; in particular no table is created on the fly. *)
Theorem engine_unknown_table (e : DatabaseEngine.t) (table_name : string) :
  DatabaseEngine.tables e !! table_name = None ->
  DatabaseEngine._get_table e table_name = Raise SchemaError
  /\ (forall values,
        DatabaseEngine.insert_into table_name values e = (e, Raise SchemaError))
  /\ (forall columns where_,
        DatabaseEngine.select_from table_name columns where_ e
        = (e, Raise SchemaError))
  /\ (forall updates where_,
        DatabaseEngine.update_table table_name updates where_ e
        = (e, Raise SchemaError))
  /\ (forall where_,
        DatabaseEngine.delete_from table_name where_ e = (e, Raise SchemaError))
  /\ DatabaseEngine.drop_table table_name e = (e, Raise SchemaError).
Proof.
  intros Hnone.
  assert (Hget : DatabaseEngine._get_table e table_name = Raise SchemaError)
    by (unfold DatabaseEngine._get_table; by rewrite Hnone).
  unfold DatabaseEngine.insert_into, DatabaseEngine.update_table,
    DatabaseEngine.delete_from, DatabaseEngine.on_table,
    DatabaseEngine.select_from, DatabaseEngine.drop_table.
  rewrite Hget, Hnone. done.
Qed.

End engine_catalog.

Lemma create_table_returns (e e' : DatabaseEngine.t) (table_name : string)
    (columns : list Column.t) :
  DatabaseEngine.create_table table_name columns e = (e', Ok tt) ->
  exists table,
    DatabaseEngine.tables e !! table_name = None
    /\ Table.init table_name columns = Ok table
    /\ e' = {| DatabaseEngine.tables :=
                <[table_name := table]> (DatabaseEngine.tables e) |}.
Proof.
  unfold DatabaseEngine.create_table.
  destruct (DatabaseEngine.tables e !! table_name); [done |].
  destruct (Table.init table_name columns) as [table|]; [| done].
  intros [= <-]. by exists table.
Qed.

(** A table just created is empty. *)
Lemma create_table_select (e e' : DatabaseEngine.t) (table_name : string)
    (columns : list Column.t) :
  DatabaseEngine.create_table table_name columns e = (e', Ok tt) ->
  DatabaseEngine.select_from table_name None None e' = (e', Ok []).
Proof.
  intros (table & _ & Hinit & ->)%create_table_returns.
  apply table_init_fields in Hinit as (_ & _ & Hrows).
  unfold DatabaseEngine.select_from, DatabaseEngine._get_table.
  cbn [DatabaseEngine.tables]. rewrite lookup_insert_eq. simpl. by rewrite Hrows.
Qed.

(** X10: [create_table] raises only the schema [ValueError], and then leaves
    the catalog as it was; it returns exactly when the name is free, the
    column list is not empty and holds at most one primary key.  When it
    returns, the name is bound to the table [Table.__init__] builds,
    which has no row; the other names are bound as before; a second
    [create_table] of that name, with any columns, raises and keeps the
    first table. *)
Theorem create_table_outcome (e : DatabaseEngine.t) (table_name : string)
    (columns : list Column.t) :
  (forall e' err,
      DatabaseEngine.create_table table_name columns e = (e', Raise err) ->
      e' = e /\ err = SchemaError)
  /\ ((DatabaseEngine.create_table table_name columns e).2 = Ok tt <->
      DatabaseEngine.tables e !! table_name = None /\ columns <> []
      /\ length (filter (fun c => Column.is_primary_key c = true) columns) <= 1)
  /\ (forall e',
        DatabaseEngine.create_table table_name columns e = (e', Ok tt) ->
        exists table,
          Table.init table_name columns = Ok table
          /\ DatabaseEngine.tables e'
             = <[table_name := table]> (DatabaseEngine.tables e)
          /\ DatabaseEngine._get_table e' table_name = Ok table
          /\ Table.rows table = []
          /\ DatabaseEngine.select_from table_name None None e' = (e', Ok [])
          /\ (forall other, other <> table_name ->
                DatabaseEngine.tables e' !! other
                = DatabaseEngine.tables e !! other)
          /\ (forall columns',
                DatabaseEngine.create_table table_name columns' e'
                = (e', Raise SchemaError))).
Proof.
  split_and!.
  - intros e' err. unfold DatabaseEngine.create_table.
    destruct (DatabaseEngine.tables e !! table_name); [by intros [= <- <-] |].
    unfold Table.init.
    destruct columns as [|c0 cols]; [by intros [= <- <-] |].
    case_decide; [by intros [= <- <-] | done].
  - unfold DatabaseEngine.create_table.
    destruct (DatabaseEngine.tables e !! table_name) as [t0|].
    { split; [done | by intros (? & _)]. }
    split.
    + intros Hok. split; [done |].
      destruct (decide (columns = [])) as [->|Hne]; [done |].
      split; [done |].
      destruct (decide (length (filter (fun c => Column.is_primary_key c = true)
                                  columns) <= 1)) as [|Hpk]; [done |].
      rewrite table_init_raises in Hok by (right; lia). done.
    + intros (_ & Hne & Hpk). by rewrite table_init_returns.
  - intros e' Hcreate. pose proof (create_table_select _ _ _ _ Hcreate) as Hsel.
    apply create_table_returns in Hcreate as (table & Hfree & Hinit & ->).
    exists table. cbn [DatabaseEngine.tables].
    split_and!; try done.
    + unfold DatabaseEngine._get_table. cbn [DatabaseEngine.tables].
      by rewrite lookup_insert_eq.
    + by apply table_init_fields in Hinit as (_ & _ & Hrows).
    + intros other Hne. by apply lookup_insert_ne.
    + intros columns'. unfold DatabaseEngine.create_table.
      cbn [DatabaseEngine.tables]. by rewrite lookup_insert_eq.
Qed.

(** X11: [drop_table] of a name the catalog does not hold raises and changes
    nothing.  Of a name it holds, it returns and the name is unbound: a
    second [drop_table] raises, and creating the name again gives a table
    without rows.  Dropping a table right after creating it gives back
    the catalog. *)
Theorem drop_table_outcome (e : DatabaseEngine.t) (table_name : string) :
  (DatabaseEngine.tables e !! table_name = None ->
   DatabaseEngine.drop_table table_name e = (e, Raise SchemaError))
  /\ (is_Some (DatabaseEngine.tables e !! table_name) ->
      let e' := (DatabaseEngine.drop_table table_name e).1 in
      (DatabaseEngine.drop_table table_name e).2 = Ok tt
      /\ DatabaseEngine.tables e' = delete table_name (DatabaseEngine.tables e)
      /\ DatabaseEngine._get_table e' table_name = Raise SchemaError
      /\ DatabaseEngine.drop_table table_name e' = (e', Raise SchemaError)
      /\ forall columns e'',
           DatabaseEngine.create_table table_name columns e' = (e'', Ok tt) ->
           DatabaseEngine.select_from table_name None None e'' = (e'', Ok []))
  /\ (forall columns e',
        DatabaseEngine.tables e !! table_name = None ->
        DatabaseEngine.create_table table_name columns e = (e', Ok tt) ->
        DatabaseEngine.drop_table table_name e' = (e, Ok tt)).
Proof.
  split_and!.
  - intros Hnone. unfold DatabaseEngine.drop_table. by rewrite Hnone.
  - intros [table Htable] e'.
    assert (He' : DatabaseEngine.drop_table table_name e
                  = ({| DatabaseEngine.tables :=
                          delete table_name (DatabaseEngine.tables e) |}, Ok tt))
      by (unfold DatabaseEngine.drop_table; by rewrite Htable).
    unfold e'. rewrite He'. cbn [fst snd DatabaseEngine.tables].
    assert (Hgone : delete table_name (DatabaseEngine.tables e) !! table_name = None)
      by apply lookup_delete_eq.
    split_and!; try done.
    + unfold DatabaseEngine._get_table. cbn [DatabaseEngine.tables].
      by rewrite Hgone.
    + unfold DatabaseEngine.drop_table. cbn [DatabaseEngine.tables].
      by rewrite Hgone.
    + intros columns e'' Hcreate. by apply create_table_select in Hcreate.
  - intros columns e' Hnone (t & _ & _ & ->)%create_table_returns.
    unfold DatabaseEngine.drop_table. cbn [DatabaseEngine.tables].
    rewrite lookup_insert_eq.
    rewrite delete_insert_id by done. by rewrite engine_eta.
Qed.

(** ** Select: every shape of condition *)

Lemma row_matches_satisfies (conditions row : dict string value) :
  Table.row_matches conditions row = true <-> row_satisfies conditions row.
Proof.
  unfold row_satisfies. induction conditions as [|[C v] rest IH]; simpl.
  - split; [constructor | done].
  - rewrite Forall_cons. simpl. case_decide; [tauto |]. split; [done | tauto].
Qed.

(** The scan loop of [select] is a filter. *)
Lemma scan_filter (rs : list (dict string value)) (conditions : dict string value) :
  Table.scan rs conditions = filter (row_satisfies conditions) rs.
Proof.
  induction rs as [|row rs IH]; [done |]. simpl.
  destruct (Table.row_matches conditions row) eqn:Hm.
  - apply row_matches_satisfies in Hm. rewrite filter_cons_True by done.
    by rewrite IH.
  - rewrite filter_cons_False; [done |].
    intros Hs. apply row_matches_satisfies in Hs. congruence.
Qed.

Lemma filter_all {A} (P : A -> Prop) `{forall x, Decision (P x)} (l : list A) :
  Forall P l -> filter P l = l.
Proof.
  induction 1 as [|x l Hx _ IH]; [done |].
  rewrite filter_cons_True by done. by rewrite IH.
Qed.

(** The index path of [select] returns what the scan returns, on an
    index that holds the invariant. *)
Lemma select_index_path (t : Table.t) (C : string) (v : value) (index : Index.t) :
  Dict.get C (Table.indexes t) = Some index ->
  index_inv (Table.rows t) C index ->
  Table.select t (Some [(C, v)]) = Ok (Table.scan (Table.rows t) [(C, v)]).
Proof.
  intros Hg (_ & _ & Hfwd & _ & Hcol).
  rewrite (scan_single _ _ _ Hcol).
  unfold Table.select. rewrite Hg. unfold Index.get, full_scan_filter.
  destruct (Dict.get v (Index._index index)) as [idx|] eqn:Hidx.
  - apply Hfwd in Hidx as (row & Hrow & Hv). rewrite Hrow. f_equal. symmetry.
    apply (filter_unique _ _ idx); [done | done |].
    intros i x Hi Hx.
    assert (Hi' : Dict.get v (Index._index index) = Some i)
      by (apply Hfwd; by exists x).
    assert (Hidx' : Dict.get v (Index._index index) = Some idx)
      by (apply Hfwd; by exists row).
    congruence.
  - f_equal. symmetry. apply filter_none. intros i x Hi Hx.
    assert (Hi' : Dict.get v (Index._index index) = Some i)
      by (apply Hfwd; by exists x).
    congruence.
Qed.

Lemma select_scan (t : Table.t) (conditions : option (dict string value)) :
  table_inv t ->
  Table.select t conditions
  = Ok (filter (row_satisfies (where_list conditions)) (Table.rows t)).
Proof.
  intros (_ & _ & Hinv).
  destruct conditions as [[|[C v] [|c2 rest]]|]; unfold where_list;
    cbn [default from_option id].
  - simpl. f_equal. symmetry. apply filter_all, Forall_forall. intros; constructor.
  - rewrite <- scan_filter.
    destruct (Dict.get C (Table.indexes t)) as [index|] eqn:Hg.
    + apply (select_index_path t C v index Hg). by apply Hinv.
    + unfold Table.select. by rewrite Hg.
  - by rewrite <- scan_filter.
  - simpl. f_equal. symmetry. apply filter_all, Forall_forall. intros; constructor.
Qed.

(** X12: on a table that holds the invariant of the data model, [select]
    returns, for every shape of condition (none, the empty dictionary,
    one condition on an indexed or a plain column, several conditions),
    the stored rows satisfying every condition under
    [row.get(col) == value], in the order of the store; it never
    raises.  With a condition on a primary-key or unique column the
    result has at most one row. *)
Theorem select_returns_matching_rows (t : Table.t)
    (conditions : option (dict string value)) :
  table_inv t ->
  Table.select t conditions
  = Ok (filter (row_satisfies (where_list conditions)) (Table.rows t))
  /\ (forall C v,
        (C, v) ∈ where_list conditions -> is_Some (Dict.get C (Table.indexes t)) ->
        length (filter (row_satisfies (where_list conditions)) (Table.rows t)) <= 1).
Proof.
  intros Hinv. split; [by apply select_scan |].
  intros C v Hin [index Hg].
  destruct Hinv as (_ & _ & Hinv). destruct (Hinv C index Hg) as (_ & _ & Hfwd & _ & Hcol).
  set (P := row_satisfies (where_list conditions)).
  assert (Hslot : forall i row, Table.rows t !! i = Some row -> P row ->
                                Dict.get v (Index._index index) = Some i).
  { intros i row Hi Hrow. apply Hfwd. exists row. split; [done |].
    unfold P, row_satisfies in Hrow. rewrite Forall_forall in Hrow.
    specialize (Hrow _ Hin). simpl in Hrow. unfold Table.row_get in Hrow.
    destruct (Forall_lookup_1 _ _ _ _ Hcol Hi) as [w Hw].
    rewrite Hw in Hrow |- *. simpl in Hrow. by subst. }
  destruct (Dict.get v (Index._index index)) as [s|] eqn:Hs.
  - destruct (Table.rows t !! s) as [row|] eqn:Hrow.
    + destruct (decide (P row)) as [HP|HP].
      * rewrite (filter_unique P _ s row); [done | done | done |].
        intros i x Hi Hx. specialize (Hslot i x Hi Hx). congruence.
      * rewrite filter_none; [simpl; lia |].
        intros i x Hi Hx. specialize (Hslot i x Hi Hx).
        assert (i = s) as -> by congruence. congruence.
    + rewrite filter_none; [simpl; lia |].
      intros i x Hi Hx. specialize (Hslot i x Hi Hx).
      assert (i = s) as -> by congruence. congruence.
  - rewrite filter_none; [simpl; lia |].
    intros i x Hi Hx. specialize (Hslot i x Hi Hx). done.
Qed.

(** X13: a condition on a column name the table does not declare: since the
    scan reads the row with [row.get], which gives [None] for a missing
    key, the condition [C == None] holds of every row and the condition
    [C == v] for any other [v] holds of none. *)
Theorem select_undeclared_column (t : Table.t) (C : string) :
  table_inv t ->
  C ∉ map Column.name (Table.columns t) ->
  Table.select t (Some [(C, VNone)]) = Ok (Table.rows t)
  /\ forall v, v <> VNone -> Table.select t (Some [(C, v)]) = Ok [].
Proof.
  intros Hinv HC. pose proof Hinv as ([_ Hkeys] & Hrows & _).
  assert (Hget : forall row, row ∈ Table.rows t -> Table.row_get row C = VNone).
  { intros row Hrow. unfold rows_ok in Hrows. rewrite Forall_forall in Hrows.
    specialize (Hrows _ Hrow). unfold Table.row_get.
    assert (Dict.get C row = None) as ->; [| done].
    apply dict_get_None_keys. by rewrite Hrows. }
  split.
  - rewrite select_scan by done. f_equal. apply filter_all, Forall_forall.
    intros row Hrow. constructor; [| constructor]. simpl. by apply Hget.
  - intros v Hv. rewrite select_scan by done. f_equal. apply filter_none.
    intros i row Hi Hsat. apply list_elem_of_lookup_2 in Hi.
    apply Forall_cons in Hsat as [Hsat _]. simpl in Hsat.
    rewrite Hget in Hsat by done. congruence.
Qed.

(** ** Delete: which rows go *)

(** Two dictionaries with the same keys in the same order and the same
    value under every key are equal. *)
Lemma dict_ext {K V} `{EqDecision K} (d1 d2 : list (K * V)) :
  Dict.wf d1 -> Dict.keys d1 = Dict.keys d2 ->
  (forall k, k ∈ Dict.keys d1 -> Dict.get k d1 = Dict.get k d2) ->
  d1 = d2.
Proof.
  revert d2. induction d1 as [|[k v] d1 IH]; intros [|[k2 v2] d2] Hwf Hk Hget;
    try done.
  simpl in Hk. injection Hk as <- Hk.
  apply NoDup_cons in Hwf as [Hfresh Hwf].
  pose proof (Hget k (list_elem_of_here _ _)) as Hv. simpl in Hv.
  rewrite !decide_True in Hv by done. injection Hv as <-.
  f_equal. apply IH; [done | done |].
  intros k' Hk'. specialize (Hget k' (list_elem_of_further _ _ _ Hk')).
  simpl in Hget. rewrite !decide_False in Hget by (intros ->; done). done.
Qed.

Lemma all_equal_Forall (cols : list string) (r row : dict string value) :
  Forall (fun col => is_Some (Dict.get col r) /\ is_Some (Dict.get col row)) cols ->
  Table.all_equal cols r row
  = Ok (bool_decide (Forall (fun col => Dict.get col r = Dict.get col row) cols)).
Proof.
  induction 1 as [|col cols [[a Ha] [b Hb]] _ IH].
  - reflexivity.
  - cbn [Table.all_equal]. rewrite Ha, Hb. destruct (decide (a = b)) as [->|Hne].
    + rewrite IH. f_equal. apply bool_decide_ext. rewrite Forall_cons.
      rewrite Ha, Hb. tauto.
    + f_equal. symmetry. apply bool_decide_eq_false_2. rewrite Forall_cons.
      rewrite Ha, Hb. intros [? _]. congruence.
Qed.

(** The content comparison of [update] and [delete], on two rows with
    the same keys: it is equality of the rows. *)
Lemma all_equal_rows (r row : dict string value) :
  Dict.wf r -> Dict.keys r = Dict.keys row ->
  Table.all_equal (Dict.keys r) r row = Ok (bool_decide (r = row)).
Proof.
  intros Hwf Hk. rewrite all_equal_Forall.
  - f_equal. apply bool_decide_ext. rewrite Forall_forall. split.
    + intros Hall. by apply dict_ext.
    + by intros ->.
  - apply Forall_forall. intros col Hcol. split.
    + by apply dict_get_is_Some_keys.
    + apply dict_get_is_Some_keys. by rewrite <- Hk.
Qed.

Lemma table_inv_rows_over (t : Table.t) :
  table_inv t -> rows_over (map Column.name (Table.columns t)) (Table.rows t).
Proof. by intros ([Hnd _] & Hrows & _). Qed.

(** The lookup by content finds the first slot holding the row. *)
Lemma find_row_first (ks : list string) (rs : list (dict string value))
    (i p : nat) (row : dict string value) :
  rows_over ks rs ->
  rs !! p = Some row ->
  (forall q, q < p -> rs !! q <> Some row) ->
  Table.find_row rs i row = Ok (Some (i + p)).
Proof.
  intros [Hnd Hks]. revert i p.
  induction Hks as [|r rs Hr Hks IH]; intros i p Hp Hfirst; [done |].
  assert (Hrow : Dict.keys row = ks).
  { apply (Forall_lookup_1 (fun r => Dict.keys r = ks) (r :: rs) p);
      [by constructor | done]. }
  simpl. rewrite all_equal_rows by (unfold Dict.wf; congruence).
  destruct p as [|p]; simpl in Hp.
  - injection Hp as ->. rewrite bool_decide_eq_true_2 by done.
    do 2 f_equal. lia.
  - rewrite bool_decide_eq_false_2.
    + rewrite (IH (S i) p); [do 2 f_equal; lia | done |].
      intros q Hq. apply (Hfirst (S q)). lia.
    + intros ->. by apply (Hfirst 0); [lia |].
Qed.

(** On a store without equal rows, the slots [update] and [delete]
    compute for the rows a filter keeps are the slots of these rows. *)
Lemma row_indices_slots (ks : list string) (P : dict string value -> Prop)
    `{forall r, Decision (P r)} (suf pre : list (dict string value)) :
  rows_over ks (pre ++ suf) -> NoDup (pre ++ suf) ->
  Table.row_indices (pre ++ suf) (filter P suf) = Ok (slots_of P suf (length pre)).
Proof.
  revert pre. induction suf as [|r suf IH]; intros pre Hover Hnd; [done |].
  assert (Hnext : Table.row_indices (pre ++ r :: suf) (filter P suf)
                  = Ok (slots_of P suf (S (length pre)))).
  { rewrite (cons_middle r pre suf), app_assoc in Hover, Hnd |- *.
    rewrite (IH (pre ++ [r])) by done. rewrite length_app. simpl.
    do 2 f_equal. lia. }
  simpl. destruct (decide (P r)) as [HP|HP].
  - rewrite filter_cons_True by done. simpl.
    rewrite (find_row_first ks _ 0 (length pre)); [| done | |].
    + by rewrite Hnext.
    + by rewrite list_lookup_middle.
    + intros q Hq Hq'. pose proof (proj1 (NoDup_alt _) Hnd) as Halt.
      assert (q = length pre); [| lia].
      apply (Halt q (length pre) r); [done |]. by rewrite list_lookup_middle.
  - rewrite filter_cons_False by done. done.
Qed.

Lemma target_indices_slots (t : Table.t)
    (conditions : option (dict string value)) :
  table_inv t -> NoDup (Table.rows t) ->
  Table.target_indices t conditions
  = Ok (slots_of (row_satisfies (where_list conditions)) (Table.rows t) 0).
Proof.
  intros Hinv Hnd. unfold Table.target_indices.
  assert (Htargets :
            match conditions with
            | Some (_ :: _) => Table.select t conditions
            | _ => Ok (Table.rows t)
            end
            = Ok (filter (row_satisfies (where_list conditions)) (Table.rows t))).
  { destruct conditions as [[|c rest]|]; [| by apply select_scan |];
      f_equal; symmetry; apply filter_all, Forall_forall; intros; constructor. }
  rewrite Htargets.
  apply (row_indices_slots (map Column.name (Table.columns t)) _ (Table.rows t) []);
    [by apply table_inv_rows_over | done].
Qed.

Lemma slots_of_ge (P : dict string value -> Prop) `{forall r, Decision (P r)}
    (rs : list (dict string value)) (i : nat) :
  Forall (fun j => i <= j) (slots_of P rs i).
Proof.
  revert i. induction rs as [|r rs IH]; intros i; simpl; [constructor |].
  assert (Hrest : Forall (fun j => i <= j) (slots_of P rs (S i))).
  { eapply Forall_impl; [apply IH |]. simpl. lia. }
  case_decide; [by constructor | done].
Qed.

Lemma slots_of_length (P : dict string value -> Prop) `{forall r, Decision (P r)}
    (rs : list (dict string value)) (i : nat) :
  length (slots_of P rs i) = length (filter P rs).
Proof.
  revert i. induction rs as [|r rs IH]; intros i; simpl; [done |].
  destruct (decide (P r)).
  - rewrite filter_cons_True by done. simpl. by rewrite IH.
  - rewrite filter_cons_False by done. apply IH.
Qed.

Lemma slots_of_app (P : dict string value -> Prop) `{forall r, Decision (P r)}
    (rs1 rs2 : list (dict string value)) (i : nat) :
  slots_of P (rs1 ++ rs2) i = slots_of P rs1 i ++ slots_of P rs2 (i + length rs1).
Proof.
  revert i. induction rs1 as [|r rs1 IH]; intros i; simpl.
  - by rewrite Nat.add_0_r.
  - rewrite IH. replace (S i + length rs1) with (i + S (length rs1)) by lia.
    by case_decide.
Qed.

Lemma insert_desc_last (i : nat) (l : list nat) :
  Forall (fun j => i < j) l -> Table.insert_desc i l = l ++ [i].
Proof.
  induction 1 as [|j l Hj _ IH]; [done |]. simpl.
  rewrite decide_False by lia. by rewrite IH.
Qed.

(** [indices.sort(reverse=True)] on ascending slots reverses them. *)
Lemma sort_reverse_slots (P : dict string value -> Prop) `{forall r, Decision (P r)}
    (rs : list (dict string value)) (i : nat) :
  Table.sort_reverse (slots_of P rs i) = rev (slots_of P rs i).
Proof.
  revert i. induction rs as [|r rs IH]; intros i; simpl; [done |].
  case_decide; [| apply IH].
  simpl. unfold Table.sort_reverse in IH |- *. simpl. rewrite IH.
  apply insert_desc_last. apply Forall_rev.
  eapply Forall_impl; [apply (slots_of_ge P rs (S i)) |]. simpl. lia.
Qed.

Lemma for_each_app {S A} (xs ys : list A) (body : A -> M S unit) (s : S) :
  for_each (xs ++ ys) body s
  = match for_each xs body s with
    | (s', Ok _) => for_each ys body s'
    | (s', Raise e) => (s', Raise e)
    end.
Proof.
  revert s. induction xs as [|x xs IH]; intros s; simpl; [done |].
  unfold bind. destruct (body x s) as [s1 [[]|e]]; [apply IH | done].
Qed.

(** The deletion loop over the slots, from the last to the first, of
    the rows satisfying [P] among the first rows [rs] of the store. *)
Lemma delete_loop_slots (P : dict string value -> Prop) `{forall r, Decision (P r)}
    (rs : list (dict string value)) :
  forall (tl : list (dict string value)) (t : Table.t),
    table_inv t -> Table.rows t = rs ++ tl ->
    exists t',
      for_each (rev (slots_of P rs 0)) Table.delete_at t = (t', Ok tt)
      /\ table_inv t'
      /\ Table.rows t' = filter (fun r => ~ P r) rs ++ tl.
Proof.
  induction rs as [|x rs IH] using rev_ind; intros tl t Hinv Hrows.
  - exists t. by split_and!.
  - rewrite slots_of_app. simpl. rewrite filter_app.
    rewrite <- app_assoc in Hrows. simpl in Hrows.
    destruct (decide (P x)) as [HP|HP].
    + rewrite rev_app_distr. simpl.
      rewrite filter_cons_False by tauto. rewrite filter_nil, app_nil_r.
      assert (Hx : Table.rows t !! length rs = Some x)
        by (rewrite Hrows; apply list_lookup_middle; done).
      destruct (delete_at_outcome t (length rs) Hinv)
        as [[Hnone _]|(gone & Hgone & Hstep)]; [congruence |].
      unfold bind at 1. rewrite Hstep.
      destruct (IH tl (deleted_at (length rs) gone t)) as (t' & Hloop & Hinv' & Hrows').
      * by apply table_inv_deleted_at.
      * unfold deleted_at. cbn [Table.rows]. rewrite Hrows.
        by rewrite delete_middle.
      * exists t'. by split_and!.
    + rewrite app_nil_r. rewrite filter_cons_True by done. rewrite filter_nil.
      rewrite <- app_assoc. simpl. by apply IH.
Qed.

(** X14: on a table that holds the invariant of the data model and stores no
    two equal rows (as every such table with a primary-key or unique
    column does), [delete] returns; the number it returns is the number
    of rows satisfying the conditions; these rows are gone and the other
    rows are kept, in order; the invariant holds again; [delete] without
    conditions empties the table; and the same [delete] once more
    returns 0 and changes nothing. *)
Theorem delete_removes_matching_rows (t : Table.t)
    (conditions : option (dict string value)) :
  table_inv t -> NoDup (Table.rows t) ->
  exists t',
    Table.delete conditions t
    = (t', Ok (length (filter (row_satisfies (where_list conditions))
                         (Table.rows t))))
    /\ Table.rows t'
       = filter (fun r => ~ row_satisfies (where_list conditions) r) (Table.rows t)
    /\ table_inv t'
    /\ (where_list conditions = [] -> Table.rows t' = [])
    /\ Table.delete conditions t' = (t', Ok 0).
Proof.
  intros Hinv Hnd. set (P := row_satisfies (where_list conditions)).
  destruct (delete_loop_slots P (Table.rows t) [] t Hinv) as (t' & Hloop & Hinv' & Hrows');
    [by rewrite app_nil_r |].
  rewrite app_nil_r in Hrows'.
  exists t'. split_and!; try done.
  - unfold Table.delete. rewrite target_indices_slots by done. fold P.
    rewrite sort_reverse_slots. unfold bind. rewrite Hloop.
    unfold ret. by rewrite slots_of_length.
  - intros Hnil. rewrite Hrows'. apply filter_none. intros i x _ Hx.
    apply Hx. unfold P. rewrite Hnil. constructor.
  - assert (Hnd' : NoDup (Table.rows t')).
    { rewrite Hrows'. by apply NoDup_filter. }
    unfold Table.delete. rewrite target_indices_slots by done. fold P.
    assert (slots_of P (Table.rows t') 0 = []) as ->; [| done].
    apply length_zero_iff_nil. rewrite slots_of_length.
    rewrite Hrows'. rewrite filter_none; [done |].
    intros i x Hi Hx. apply list_elem_of_lookup_2 in Hi.
    apply list_elem_of_filter in Hi as [Hnot _]. done.
Qed.

(** ** Delete on a store that may hold equal rows *)

Lemma find_row_some (ks : list string) (rs : list (dict string value))
    (i p : nat) (row : dict string value) :
  rows_over ks rs ->
  rs !! p = Some row ->
  exists q, q <= p /\ Table.find_row rs i row = Ok (Some (i + q)).
Proof.
  intros [Hnd Hks]. revert i p.
  induction Hks as [|r rs Hr Hks IH]; intros i p Hp; [done |].
  assert (Hrow : Dict.keys row = ks).
  { apply (Forall_lookup_1 (fun r => Dict.keys r = ks) (r :: rs) p);
      [by constructor | done]. }
  simpl. rewrite all_equal_rows by (unfold Dict.wf; congruence).
  destruct (decide (r = row)) as [->|Hne].
  - rewrite bool_decide_eq_true_2 by done. exists 0. split; [lia |].
    do 2 f_equal. lia.
  - rewrite bool_decide_eq_false_2 by done.
    destruct p as [|p]; simpl in Hp; [congruence |].
    destruct (IH (S i) p Hp) as (q & Hq & Hfind).
    exists (S q). split; [lia |]. rewrite Hfind. do 2 f_equal. lia.
Qed.

(** The slots computed for the rows a filter keeps: one per row, and
    for every [j] at most as many slots from [j] on as the store has
    rows from [j] on. *)
Lemma row_indices_count (ks : list string) (P : dict string value -> Prop)
    `{forall r, Decision (P r)} (suf pre : list (dict string value)) :
  rows_over ks (pre ++ suf) ->
  exists l,
    Table.row_indices (pre ++ suf) (filter P suf) = Ok l
    /\ length l = length (filter P suf)
    /\ forall j, length (filter (fun x => j <= x) l)
                 <= length (pre ++ suf) - max j (length pre).
Proof.
  revert pre. induction suf as [|r suf IH]; intros pre Hover.
  - exists []. split_and!; [done | done |]. intros j. simpl. lia.
  - destruct (IH (pre ++ [r])) as (l & Hl & Hlen & Hcount).
    { by rewrite <- app_assoc. }
    rewrite <- app_assoc in Hl, Hcount. simpl in Hl, Hcount.
    assert (Hn : length (pre ++ r :: suf) = length pre + S (length suf))
      by (rewrite length_app; done).
    rewrite !length_app in Hcount. simpl in Hcount.
    destruct (decide (P r)) as [HP|HP].
    + rewrite filter_cons_True by done. simpl.
      destruct (find_row_some ks (pre ++ r :: suf) 0 (length pre) r Hover)
        as (q & Hq & Hfind); [by rewrite list_lookup_middle |].
      rewrite Hfind, Hl. simpl. exists (q :: l).
      split_and!; [done | simpl; by rewrite Hlen |].
      intros j. specialize (Hcount j). rewrite Hn.
      destruct (decide (j <= q)).
      * rewrite filter_cons_True by done. simpl. lia.
      * rewrite filter_cons_False by done. lia.
    + rewrite filter_cons_False by done. exists l. split_and!; [done | done |].
      intros j. specialize (Hcount j). rewrite Hn. lia.
Qed.

Lemma insert_desc_perm (i : nat) (l : list nat) : Table.insert_desc i l ≡ₚ i :: l.
Proof.
  induction l as [|j l IH]; [done |]. simpl. case_decide; [done |].
  rewrite IH. apply Permutation_swap.
Qed.

Lemma sort_reverse_perm (l : list nat) : Table.sort_reverse l ≡ₚ l.
Proof.
  unfold Table.sort_reverse. induction l as [|i l IH]; [done |]. simpl.
  rewrite insert_desc_perm. by rewrite IH.
Qed.

Lemma insert_desc_descending (i : nat) (l : list nat) :
  descending l -> descending (Table.insert_desc i l).
Proof.
  induction l as [|j l IH]; intros Hd; simpl.
  - split; [constructor | done].
  - destruct Hd as [Hj Hd]. case_decide.
    + simpl. split_and!; [| done | done].
      constructor; [done |]. eapply Forall_impl; [exact Hj |]. simpl. lia.
    + simpl. split; [| by apply IH].
      rewrite insert_desc_perm. constructor; [lia | done].
Qed.

(** [indices.sort(reverse=True)] sorts. *)
Lemma sort_reverse_descending (l : list nat) : descending (Table.sort_reverse l).
Proof.
  unfold Table.sort_reverse. induction l as [|i l IH]; [done |]. simpl.
  by apply insert_desc_descending.
Qed.

(** The deletion loop over descending slots that leave, from every [j]
    on, no more slots than rows: every slot is in range when its turn
    comes. *)
Lemma delete_loop_count (l : list nat) :
  forall t : Table.t,
    descending l -> table_inv t ->
    (forall j, length (filter (fun x => j <= x) l) <= length (Table.rows t) - j) ->
    exists t',
      for_each l Table.delete_at t = (t', Ok tt)
      /\ table_inv t'
      /\ length (Table.rows t') + length l = length (Table.rows t)
      /\ sublist (Table.rows t') (Table.rows t).
Proof.
  induction l as [|x l IH]; intros t Hd Hinv Hcount.
  - exists t. by split_and!.
  - destruct Hd as [Hle Hd].
    assert (Hx : x < length (Table.rows t)).
    { specialize (Hcount x). rewrite filter_cons_True in Hcount by done.
      simpl in Hcount. lia. }
    destruct (delete_at_outcome t x Hinv) as [[Hnone _]|(gone & Hgone & Hstep)].
    { apply lookup_ge_None in Hnone. lia. }
    destruct (IH (deleted_at x gone t)) as (t' & Hloop & Hinv' & Hlen & Hsub).
    + done.
    + by apply table_inv_deleted_at.
    + intros j. unfold deleted_at. cbn [Table.rows]. rewrite length_delete by eauto.
      specialize (Hcount j). destruct (decide (j <= x)).
      * rewrite filter_cons_True in Hcount by done. simpl in Hcount. lia.
      * rewrite filter_none; [simpl; lia |].
        intros i y Hi Hy. apply list_elem_of_lookup_2 in Hi.
        rewrite Forall_forall in Hle. specialize (Hle _ Hi). simpl in Hle. lia.
    + unfold deleted_at in Hlen, Hsub. cbn [Table.rows] in Hlen, Hsub.
      rewrite length_delete in Hlen by eauto.
      exists t'. simpl. unfold bind at 1. rewrite Hstep. split_and!; [done | done | lia |].
      etrans; [exact Hsub |]. apply sublist_delete.
Qed.

(** X15: on a table that holds the invariant of the data model, also one that
    stores equal rows, [delete] returns: the slots it computes are in
    range when their turn comes.  The number it returns is the number of
    rows satisfying the conditions, the store shrinks by that number and
    keeps the order of the rows that stay, and the invariant holds
    again. *)
Theorem delete_returns_count (t : Table.t)
    (conditions : option (dict string value)) :
  table_inv t ->
  exists t',
    Table.delete conditions t
    = (t', Ok (length (filter (row_satisfies (where_list conditions))
                         (Table.rows t))))
    /\ length (Table.rows t')
       = length (Table.rows t)
         - length (filter (row_satisfies (where_list conditions)) (Table.rows t))
    /\ sublist (Table.rows t') (Table.rows t)
    /\ table_inv t'.
Proof.
  intros Hinv. set (P := row_satisfies (where_list conditions)).
  assert (Htargets :
            match conditions with
            | Some (_ :: _) => Table.select t conditions
            | _ => Ok (Table.rows t)
            end = Ok (filter P (Table.rows t))).
  { destruct conditions as [[|c rest]|]; [| by apply select_scan |];
      f_equal; symmetry; apply filter_all, Forall_forall; intros; constructor. }
  destruct (row_indices_count (map Column.name (Table.columns t)) P (Table.rows t) [])
    as (l & Hl & Hlen & Hcount); [by apply table_inv_rows_over |].
  simpl in Hl, Hcount.
  destruct (delete_loop_count (Table.sort_reverse l) t) as (t' & Hloop & Hinv' & Hlen' & Hsub).
  - apply sort_reverse_descending.
  - done.
  - intros j. rewrite sort_reverse_perm. specialize (Hcount j). lia.
  - rewrite sort_reverse_perm in Hlen'.
    exists t'. split_and!; [| lia | done | done].
    unfold Table.delete, Table.target_indices. rewrite Htargets, Hl.
    unfold bind. rewrite Hloop. unfold ret. by rewrite Hlen.
Qed.

(** ** Stored values have the type of their column, whatever happens *)

Lemma bind_preserves {S A B} (P : S -> Prop) (m : M S A) (k : A -> M S B) (s : S) :
  P (m s).1 -> (forall a s0, P s0 -> P (k a s0).1) -> P (bind m k s).1.
Proof.
  intros Hm Hk. unfold bind. destruct (m s) as [s1 [a|e]]; [| done].
  by apply Hk.
Qed.

Lemma for_each_preserves {S A} (P : S -> Prop) (body : A -> M S unit)
    (xs : list A) :
  (forall x s0, P s0 -> P (body x s0).1) ->
  forall s, P s -> P (for_each xs body s).1.
Proof.
  intros Hbody. induction xs as [|x xs IH]; intros s Hs; [done |].
  simpl. apply bind_preserves; [by apply Hbody |]. intros _ s0. apply IH.
Qed.

Lemma typed_table_frame (cols : list Column.t) (s s' : Table.t) :
  Table.columns s' = Table.columns s ->
  (forall row, row ∈ Table.rows s' -> row ∈ Table.rows s) ->
  typed_table cols s -> typed_table cols s'.
Proof.
  intros Hc Hr [Hcols Ht]. split; [congruence |].
  intros row C w col Hrow Hw Hcol.
  apply (Ht row C w col); [by apply Hr | done |].
  unfold Table.column_dict in Hcol |- *. by rewrite <- Hc.
Qed.

(** A call on one of the table's indexes touches neither the rows nor
    the columns. *)
Lemma on_index_typed {A} (cols : list Column.t) (C : string)
    (op : M Index.t A) (s : Table.t) :
  typed_table cols s -> typed_table cols (Table.on_index C op s).1.
Proof.
  intros Hs. unfold Table.on_index.
  destruct (Dict.get C (Table.indexes s)) as [index|]; [| done].
  destruct (op index) as [index' r]. by apply (typed_table_frame cols s).
Qed.

Section typed.
Context `{IntOfStr}.

Lemma validate_value_typed (c : Column.t) (v w : value) :
  Column.validate_value c v = Ok w -> value_typed (Column.data_type c) w.
Proof.
  unfold Column.validate_value.
  destruct v as [|z|s], (Column.data_type c); simpl; try by intros [= <-].
  destruct (int_of_str s); [| done]. by intros [= <-].
Qed.

(** The row [insert] builds holds, under each key, a value validated by
    the column that [column_dict] knows under that key. *)
Lemma make_row_typed (pairs : list (Column.t * value)) (ws : list value) :
  Forall2 (fun cv w => Column.validate_value cv.1 cv.2 = Ok w) pairs ws ->
  forall (row0 : dict string value) (cd0 : dict string Column.t),
    (forall C w col, Dict.get C row0 = Some w -> Dict.get C cd0 = Some col ->
                     value_typed (Column.data_type col) w) ->
    forall C w col,
      Dict.get C (make_row pairs.*1 ws row0) = Some w ->
      Dict.get C (fold_left (fun d c => Dict.set (Column.name c) c d) pairs.*1 cd0)
      = Some col ->
      value_typed (Column.data_type col) w.
Proof.
  induction 1 as [|[c v] w0 pairs ws Hv _ IH]; intros row0 cd0 H0; [done |].
  unfold make_row in IH |- *. simpl in Hv |- *. apply IH.
  intros C w col. rewrite !dict_get_set. case_decide.
  - intros [= <-] [= <-]. by apply validate_value_typed in Hv.
  - apply H0.
Qed.

Lemma insert_typed (cols : list Column.t) (values : list value) (t : Table.t) :
  typed_table cols t -> typed_table cols (Table.insert values t).1.
Proof.
  intros Ht. unfold Table.insert. case_decide as Hlen; [done |].
  destruct (Table.insert_row t (zip (Table.columns t) values) [])
    as [row|e] eqn:Hrow; [| done].
  apply bind_preserves.
  - unfold modify. cbn [fst]. destruct Ht as [Hc Ht]. split; [done |].
    apply insert_row_Ok in Hrow as (ws & Hws & ->).
    assert (Hcols : (zip (Table.columns t) values).*1 = Table.columns t)
      by (apply fst_zip; lia).
    intros row C w col Hin Hw Hcol. cbn [Table.rows Table.set_rows] in Hin.
    apply elem_of_app in Hin as [Hin|Hin]; [by apply (Ht row C w col) |].
    apply list_elem_of_singleton in Hin as ->.
    refine (make_row_typed _ ws _ [] [] _ C w col Hw _); [| done |].
    + eapply Forall2_impl; [exact Hws |]. by intros cv w0 [? _].
    + by rewrite Hcols.
  - intros _ s0 Hs0. apply for_each_preserves; [| done].
    intros C s1 Hs1. unfold bind, lift, read.
    destruct (Table.getitem C row); [| done]. by apply on_index_typed.
Qed.

Lemma delete_typed (cols : list Column.t)
    (conditions : option (dict string value)) (t : Table.t) :
  typed_table cols t -> typed_table cols (Table.delete conditions t).1.
Proof.
  intros Ht. unfold Table.delete.
  destruct (Table.target_indices t conditions) as [indices|e]; [| done].
  apply bind_preserves; [| done].
  apply for_each_preserves; [| done].
  intros idx s0 Hs0. unfold Table.delete_at.
  apply bind_preserves.
  { unfold Table.getrow. by destruct (Table.rows s0 !! idx). }
  intros row s1 Hs1. apply bind_preserves; [done |].
  intros s2 s3 Hs3. apply bind_preserves.
  { apply for_each_preserves; [| done]. intros C s4 Hs4.
    unfold bind, lift. destruct (Table.getitem C row); [| done].
    by apply on_index_typed. }
  intros _ s4 Hs4. apply bind_preserves.
  { apply for_each_preserves; [| done]. intros C s5 Hs5. by apply on_index_typed. }
  intros _ s5 Hs5. unfold modify. cbn [fst].
  apply (typed_table_frame cols s5); [done | | done].
  intros row' Hrow'. cbn [Table.rows Table.set_rows] in Hrow'.
  by apply list_elem_of_delete_inv in Hrow'.
Qed.

Lemma update_typed (cols : list Column.t) (updates : dict string value)
    (conditions : option (dict string value)) (t : Table.t) :
  typed_table cols t -> typed_table cols (Table.update updates conditions t).1.
Proof.
  intros Ht. unfold Table.update.
  destruct (Table.target_indices t conditions) as [indices|e]; [| done].
  destruct (Table.validate_updates t indices updates); [| done].
  apply bind_preserves; [| done].
  apply for_each_preserves; [| done].
  intros idx s0 Hs0. unfold Table.apply_update.
  apply bind_preserves.
  { unfold Table.getrow. by destruct (Table.rows s0 !! idx). }
  intros _ s1 Hs1. apply bind_preserves.
  - apply for_each_preserves; [| done]. intros C s2 Hs2.
    apply bind_preserves; [done |]. intros s3 s4 Hs4.
    destruct (Dict.mem C (Table.indexes s3)); [| done].
    apply bind_preserves.
    { unfold Table.getrow. by destruct (Table.rows s4 !! idx). }
    intros row s5 Hs5. apply bind_preserves.
    { unfold lift. done. }
    intros old s6 Hs6. by apply on_index_typed.
  - intros _ s2 Hs2. apply for_each_preserves; [| done].
    intros [C new_value] s3 Hs3. unfold bind at 1, read at 1.
    unfold bind at 1, lift at 1.
    destruct (Table.getitem C (Table.column_dict s3)) as [col|e] eqn:Hcol; [| done].
    unfold bind at 1, lift at 1.
    destruct (Column.validate_value col new_value) as [w|e] eqn:Hw; [| done].
    apply bind_preserves.
    + unfold Table.setitem_row, modify. cbn [fst].
      destruct Hs3 as [Hc3 Hs3]. split; [done |].
      intros row C' w' col' Hin Hw' Hcol'. cbn [Table.rows Table.set_rows] in Hin.
      apply list_elem_of_lookup in Hin as [i Hi].
      destruct (decide (i = idx)) as [->|Hne].
      * rewrite list_lookup_alter_eq in Hi.
        destruct (Table.rows s3 !! idx) as [old|] eqn:Hold; [| done].
        injection Hi as <-.
        rewrite dict_get_set in Hw'. case_decide as HC.
        -- injection Hw' as <-. subst C'.
           unfold Table.getitem in Hcol.
           change (Table.column_dict (Table.set_rows _ s3))
             with (Table.column_dict s3) in Hcol'.
           rewrite Hcol' in Hcol. injection Hcol as <-.
           by apply validate_value_typed in Hw.
        -- apply (Hs3 old C' w' col'); [by eapply list_elem_of_lookup_2 | done | done].
      * rewrite list_lookup_alter_ne in Hi by done.
        apply (Hs3 row C' w' col'); [by eapply list_elem_of_lookup_2 | done | done].
    + intros _ s4 Hs4. destruct (Dict.mem C (Table.indexes s3)); [| done].
      by apply on_index_typed.
Qed.

(** X16: every value a table stores is [None] or has the type of its column,
    after any sequence of [insert], [update] and [delete] calls on a new
    table, the calls that raise included: a row is only ever written
    with what [validate_value] returned, and the columns never change. *)
Theorem stored_values_typed (name : string) (cols : list Column.t)
    (t : Table.t) (ops : list op) :
  Table.init name cols = Ok t ->
  Table.columns (run_ops ops t) = cols
  /\ forall row C w col,
       row ∈ Table.rows (run_ops ops t) ->
       Dict.get C row = Some w ->
       Dict.get C (Table.column_dict (run_ops ops t)) = Some col ->
       value_typed (Column.data_type col) w.
Proof.
  intros Hinit.
  assert (H0 : typed_table cols t).
  { apply table_init_fields in Hinit as (_ & Hc & Hr). split; [done |].
    intros row C w col Hin. rewrite Hr in Hin. by apply elem_of_nil in Hin. }
  clear Hinit. revert t H0. unfold run_ops.
  induction ops as [|o ops IH]; intros t H0; [exact H0 |].
  simpl. apply IH.
  destruct o; simpl; [by apply insert_typed | by apply update_typed
                      | by apply delete_typed].
Qed.

End typed.

(** ** Update: calls without target, and assignments to plain columns *)

Lemma table_eta (t : Table.t) : Table.set_rows (Table.rows t) t = t.
Proof. by destruct t. Qed.

Lemma list_alter_alter {A} (f g : A -> A) (i : nat) (l : list A) :
  alter g i (alter f i l) = alter (fun x => g (f x)) i l.
Proof.
  apply list_eq. intros j. destruct (decide (i = j)) as [->|Hne].
  - rewrite !list_lookup_alter_eq. by destruct (l !! j).
  - by rewrite !list_lookup_alter_ne.
Qed.

Lemma for_each_noop {S A} (body : A -> M S unit) (xs : list A) (s : S) :
  (forall x, x ∈ xs -> body x s = (s, Ok tt)) ->
  for_each xs body s = (s, Ok tt).
Proof.
  induction xs as [|x xs IH]; intros Hbody; [done |].
  simpl. unfold bind. rewrite Hbody by apply list_elem_of_here.
  apply IH. intros y Hy. by apply Hbody, list_elem_of_further.
Qed.

Section update_plain.
Context `{IntOfStr}.

Lemma check_updates_plain (t : Table.t) (idx : nat) (updates : dict string value) :
  Forall (fun cv => Dict.get cv.1 (Table.indexes t) = None) updates ->
  Table.check_updates t idx updates = Ok tt.
Proof.
  induction 1 as [|[C v] updates HC _ IH]; [done |]. simpl in HC |- *.
  by rewrite HC.
Qed.

Lemma validate_updates_plain (t : Table.t) (indices : list nat)
    (updates : dict string value) :
  Forall (fun cv => Dict.get cv.1 (Table.indexes t) = None) updates ->
  Forall (fun i => i < length (Table.rows t)) indices ->
  Table.validate_updates t indices updates = Ok tt.
Proof.
  intros Hplain. induction 1 as [|idx indices Hidx _ IH]; [done |]. simpl.
  destruct (lookup_lt_is_Some_2 _ _ Hidx) as [row ->].
  by rewrite check_updates_plain.
Qed.

(** The write loop of [update] for one slot, on plain columns. *)
Lemma update_write_plain (t : Table.t) (idx : nat) (updates : dict string value) :
  plain_updates t updates ->
  forall rs,
    for_each updates
      (fun '(col_name, new_value) =>
         s <- read ;;
         col <- lift (Table.getitem col_name (Table.column_dict s)) ;;
         validated <- lift (Column.validate_value col new_value) ;;
         Table.setitem_row idx col_name validated ;;;
         if Dict.mem col_name (Table.indexes s)
         then Table.on_index col_name (Index.add validated idx)
         else ret tt) (Table.set_rows rs t)
    = (Table.set_rows (alter (written t updates) idx rs) t, Ok tt).
Proof.
  induction 1 as [|[C v] updates (HC & col & w & Hcol & Hw) _ IH]; intros rs.
  - simpl. unfold ret. do 2 f_equal. symmetry. by apply list_alter_id.
  - simpl in HC, Hcol, Hw.
    cbn [for_each]. unfold bind at 1. unfold bind at 1, read at 1.
    unfold bind at 1, lift at 1, Table.getitem at 1.
    change (Table.column_dict (Table.set_rows rs t)) with (Table.column_dict t).
    rewrite Hcol. unfold bind at 1, lift at 1. rewrite Hw.
    unfold bind at 1, Table.setitem_row at 1, modify at 1.
    change (Table.indexes (Table.set_rows rs t)) with (Table.indexes t).
    assert (Dict.mem C (Table.indexes t) = false) as -> by by apply dict_mem_false.
    unfold ret at 1.
    change (Table.set_rows (alter (Dict.set C w) idx (Table.rows (Table.set_rows rs t)))
              (Table.set_rows rs t))
      with (Table.set_rows (alter (Dict.set C w) idx rs) t).
    rewrite IH. rewrite list_alter_alter. do 2 f_equal.
    apply list_alter_ext; [| done]. intros r _.
    unfold written. simpl. by rewrite Hcol, Hw.
Qed.

Lemma apply_update_plain (t : Table.t) (idx : nat) (updates : dict string value)
    (rs : list (dict string value)) :
  plain_updates t updates -> idx < length rs ->
  Table.apply_update updates idx (Table.set_rows rs t)
  = (Table.set_rows (alter (written t updates) idx rs) t, Ok tt).
Proof.
  intros Hplain Hidx. unfold Table.apply_update.
  unfold bind at 1, Table.getrow at 1. cbn [Table.rows Table.set_rows].
  destruct (lookup_lt_is_Some_2 _ _ Hidx) as [row ->].
  unfold bind at 1. rewrite for_each_noop.
  - by apply update_write_plain.
  - intros C HC. unfold bind, read.
    change (Table.indexes (Table.set_rows rs t)) with (Table.indexes t).
    assert (Dict.mem C (Table.indexes t) = false) as ->; [| done].
    apply dict_mem_false. unfold plain_updates in Hplain.
    rewrite Forall_forall in Hplain.
    apply list_elem_of_fmap in HC as ([C' v] & -> & Hin).
    by destruct (Hplain _ Hin) as [? _].
Qed.

(** The apply loop of [update] over the slots of the rows that satisfy
    [P] among the rows [suf], stored after the rows [pre]. *)
Lemma update_loop_plain (t : Table.t) (updates : dict string value)
    (P : dict string value -> Prop) `{forall r, Decision (P r)}
    (suf pre : list (dict string value)) :
  plain_updates t updates ->
  for_each (slots_of P suf (length pre)) (Table.apply_update updates)
    (Table.set_rows (pre ++ suf) t)
  = (Table.set_rows
       (pre ++ map (fun r => if decide (P r) then written t updates r else r) suf) t,
     Ok tt).
Proof.
  intros Hplain. revert pre. induction suf as [|r suf IH]; intros pre; [done |].
  simpl.
  assert (Hnext : forall r',
             for_each (slots_of P suf (S (length pre))) (Table.apply_update updates)
               (Table.set_rows (pre ++ r' :: suf) t)
             = (Table.set_rows
                  (pre ++ r' :: map (fun r => if decide (P r)
                                              then written t updates r else r) suf) t,
                Ok tt)).
  { intros r'. rewrite (cons_middle r' pre suf), app_assoc.
    replace (S (length pre)) with (length (pre ++ [r']))
      by (rewrite length_app; simpl; lia).
    rewrite IH. by rewrite <- app_assoc. }
  destruct (decide (P r)) as [HP|HP]; [| apply Hnext].
  cbn [for_each]. unfold bind at 1.
  rewrite apply_update_plain; [| done | rewrite length_app; simpl; lia].
  replace (alter (written t updates) (length pre) (pre ++ r :: suf))
    with (pre ++ written t updates r :: suf).
  - apply Hnext.
  - symmetry. rewrite alter_app_r_alt by lia.
    by replace (length pre - length pre) with 0 by lia.
Qed.

(** X17: [update] that assigns plain (not indexed) columns the table
    declares, with values that validate, on a table that holds the
    invariant and stores no two equal rows: the call returns the number
    of rows satisfying the conditions; these rows, and no others, hold
    the validated values under the assigned columns; nothing else of the
    table changes, and the invariant holds again. *)
Theorem update_plain_columns (t : Table.t) (updates : dict string value)
    (conditions : option (dict string value)) :
  table_inv t -> NoDup (Table.rows t) -> Dict.wf updates ->
  plain_updates t updates ->
  let P := row_satisfies (where_list conditions) in
  let t' :=
    Table.set_rows
      (map (fun r => if decide (P r) then written t updates r else r) (Table.rows t))
      t in
  Table.update updates conditions t = (t', Ok (length (filter P (Table.rows t))))
  /\ table_inv t'.
Proof.
  intros Hinv Hnd Hwf Hplain P t'.
  assert (Hupd : Table.update updates conditions t
                 = (t', Ok (length (filter P (Table.rows t))))).
  { unfold Table.update. rewrite target_indices_slots by done. fold P.
    rewrite validate_updates_plain.
    - unfold bind.
      pose proof (update_loop_plain t updates P (Table.rows t) [] Hplain) as Hloop.
      simpl in Hloop. rewrite table_eta in Hloop. rewrite Hloop.
      unfold ret. by rewrite slots_of_length.
    - eapply Forall_impl; [exact Hplain |]. by intros cv [? _].
    - eapply target_indices_bound. by apply target_indices_slots. }
  split; [done |]. by eapply table_inv_update_ok.
Qed.

(** X18: when no row is a target (the conditions select nothing, or the table
    is empty), [update] and [delete] return 0 and leave the table as it
    is; [update] does not look at its assignments, so that one naming an
    undeclared column or carrying a value of the wrong type returns 0 as
    well. *)
Theorem no_target_is_noop (t : Table.t) (c : string * value)
    (conditions : dict string value) :
  Table.select t (Some (c :: conditions)) = Ok [] ->
  Table.delete (Some (c :: conditions)) t = (t, Ok 0)
  /\ forall updates, Table.update updates (Some (c :: conditions)) t = (t, Ok 0).
Proof.
  intros Hsel.
  assert (Htarget : Table.target_indices t (Some (c :: conditions)) = Ok []).
  { unfold Table.target_indices. by rewrite Hsel. }
  split.
  - unfold Table.delete. by rewrite Htarget.
  - intros updates. unfold Table.update. by rewrite Htarget.
Qed.

End update_plain.

(** ** What the invariant gives the user of a table *)

(** On a table that holds the invariant and has an index, no two slots
    hold equal rows. *)
Lemma table_inv_rows_distinct (t : Table.t) :
  table_inv t -> Table.indexes t <> [] -> NoDup (Table.rows t).
Proof.
  intros (_ & _ & Hinv) Hix.
  destruct (Table.indexes t) as [|[C index] ixs] eqn:Hixs; [done |].
  destruct (Hinv C index) as (_ & _ & Hfwd & _ & Hcol).
  { simpl. by rewrite decide_True. }
  apply NoDup_alt. intros i j row Hi Hj.
  destruct (Forall_lookup_1 _ _ _ _ Hcol Hi) as [v Hv].
  assert (Hsi : Dict.get v (Index._index index) = Some i) by (apply Hfwd; eauto).
  assert (Hsj : Dict.get v (Index._index index) = Some j) by (apply Hfwd; eauto).
  congruence.
Qed.

Section guarantees.
Context `{IntOfStr}.

(** X19: the uniqueness constraint holds in every table reached from
    [Table.__init__] (with distinct column names) by [insert] and
    [delete] calls of any outcome and [update] calls that return: two
    different slots never hold the same value, [None] included, in a
    primary-key or unique column; every row has exactly the declared
    columns, in order, and the index of the column finds each row's
    value at the row's slot. *)
Theorem unique_constraint_holds (t : Table.t) (c : Column.t) (i j : nat)
    (r1 r2 : dict string value) :
  reachable t ->
  c ∈ Table.columns t -> Column.indexed c = true ->
  Table.rows t !! i = Some r1 -> Table.rows t !! j = Some r2 -> i <> j ->
  Dict.keys r1 = map Column.name (Table.columns t)
  /\ Dict.get (Column.name c) r1 <> Dict.get (Column.name c) r2
  /\ exists index v,
       Dict.get (Column.name c) (Table.indexes t) = Some index
       /\ Dict.get (Column.name c) r1 = Some v
       /\ Index.get index v = Some i.
Proof.
  intros Hreach Hc Hix Hi Hj Hne.
  pose proof (reachable_table_inv t Hreach) as (Hs & Hrows & Hinv).
  destruct (schema_column_index t c Hs Hc Hix) as [index Hg].
  destruct (Hinv _ _ Hg) as (_ & _ & Hfwd & _ & Hcol).
  destruct (Forall_lookup_1 _ _ _ _ Hcol Hi) as [v1 Hv1].
  destruct (Forall_lookup_1 _ _ _ _ Hcol Hj) as [v2 Hv2].
  assert (Hs1 : Dict.get v1 (Index._index index) = Some i) by (apply Hfwd; eauto).
  assert (Hs2 : Dict.get v2 (Index._index index) = Some j) by (apply Hfwd; eauto).
  split_and!.
  - by apply (Forall_lookup_1 _ _ _ _ Hrows Hi).
  - rewrite Hv1, Hv2. intros [= ->]. congruence.
  - by exists index, v1.
Qed.

(** X20: insert and look up: after an [insert] that returns, on a table that
    holds the invariant, [select] on the validated value of a
    primary-key or unique column returns exactly the new row, which sits
    at the end of the store; before the insert that [select] returned
    nothing. *)
Theorem insert_then_select (t t' : Table.t) (values : list value) (j : nat)
    (c : Column.t) (v w : value) :
  table_inv t ->
  Table.insert values t = (t', Ok tt) ->
  Table.columns t !! j = Some c -> Column.indexed c = true ->
  values !! j = Some v -> Column.validate_value c v = Ok w ->
  exists row,
    Table.select t' (Some [(Column.name c, w)]) = Ok [row]
    /\ Table.select t' None = Ok (Table.rows t ++ [row])
    /\ Dict.get (Column.name c) row = Some w
    /\ Table.select t (Some [(Column.name c, w)]) = Ok [].
Proof.
  intros Hinv Hins Hc Hix Hv Hw. pose proof Hinv as (Hs & _ & _).
  pose proof (table_inv_insert t values Hinv) as Hinv'. rewrite Hins in Hinv'.
  destruct (insert_outcome t values Hs) as [Hbad|[(e & Hbad & _)|(row & Hlen & Hrow & Hok)]];
    [congruence | congruence |].
  rewrite Hok in Hins. injection Hins as <-.
  destruct (insert_row_index_fresh t values row Hs Hlen Hrow)
    as (ws & Hval & -> & Hfresh).
  destruct (validates_lookup _ _ _ j c Hval Hc) as (v' & w' & Hv' & Hw' & Hvw).
  assert (v' = v) as -> by congruence. assert (w' = w) as -> by congruence.
  set (row := make_row (Table.columns t) ws []) in *.
  assert (Hget : Dict.get (Column.name c) row = Some w).
  { apply (make_row_get _ _ _ j); [by destruct Hs | done | done]. }
  destruct (schema_column_index t c Hs) as [index Hg];
    [by eapply list_elem_of_lookup_2 | done |].
  exists row. split_and!; [| done | done |].
  - destruct (inserted_row_slot row t) as [Hslot _].
    destruct Hinv' as (_ & _ & Hinv').
    pose proof (inserted_index row t _ _ Hg) as Hg'.
    destruct (Hinv' _ _ Hg') as (_ & _ & Hfwd & _).
    unfold Table.select. rewrite Hg'. unfold Index.get.
    assert (Dict.get w (Index._index
                          (index_added (Table.row_get row (Column.name c))
                             (length (Table.rows t)) index))
            = Some (length (Table.rows t))) as ->.
    { apply Hfwd. by exists row. }
    by rewrite Hslot.
  - unfold Table.select. rewrite Hg. unfold Index.get.
    destruct (Hfresh (Column.name c) index) as (w0 & Hw0 & Hmem).
    { by apply dict_get_Some_elem. }
    assert (w0 = w) as -> by congruence.
    apply dict_mem_false in Hmem. by rewrite Hmem.
Qed.

End guarantees.

(** ** Engine: projection of the selected rows *)

Lemma project_get_acc (cols : list string) (row acc : dict string value)
    (k : string) :
  Dict.get k
    (fold_left
       (fun d col =>
          match Dict.get col row with
          | Some v => Dict.set col v d
          | None => d
          end) cols acc)
  = if decide (k ∈ cols)
    then match Dict.get k row with Some v => Some v | None => Dict.get k acc end
    else Dict.get k acc.
Proof.
  revert acc. induction cols as [|col cols IH]; intros acc; cbn [fold_left].
  - case_decide as Hk; [by apply elem_of_nil in Hk | done].
  - rewrite IH. destruct (decide (k = col)) as [->|Hne].
    + destruct (decide (col ∈ col :: cols)) as [_|Hn];
        [| by destruct Hn; apply list_elem_of_here].
      destruct (Dict.get col row) as [v|] eqn:Hv.
      * rewrite dict_get_set_eq. by case_decide.
      * by case_decide.
    + assert (Hother : Dict.get k (match Dict.get col row with
                                   | Some v => Dict.set col v acc
                                   | None => acc
                                   end) = Dict.get k acc).
      { destruct (Dict.get col row); [| done]. apply dict_get_set_ne. congruence. }
      rewrite Hother.
      destruct (decide (k ∈ cols)) as [Hin|Hnin];
        destruct (decide (k ∈ col :: cols)) as [Hin'|Hnin']; try done.
      * destruct Hnin'. by apply list_elem_of_further.
      * apply elem_of_cons in Hin' as [?|?]; done.
Qed.

Lemma project_wf (cols : list string) (row : dict string value) :
  Dict.wf (DatabaseEngine.project cols row).
Proof.
  unfold DatabaseEngine.project.
  assert (Hgen : forall acc, Dict.wf acc ->
             Dict.wf (fold_left
                        (fun d col =>
                           match Dict.get col row with
                           | Some v => Dict.set col v d
                           | None => d
                           end) cols acc)).
  { induction cols as [|col cols IH]; intros acc Hacc; [done |].
    simpl. apply IH. destruct (Dict.get col row); [by apply dict_wf_set | done]. }
  apply Hgen, NoDup_nil_2.
Qed.

(** X21: [select_from] returns the rows [Table.select] returns and leaves the
    engine as it is.  Without a column list, or with the empty one, the
    rows come back whole.  With a column list, the [i]-th result is the
    [i]-th selected row cut down to the listed columns: it holds the
    row's value under every listed key the row has and no other key, so
    that a listed name the table does not declare is passed over in
    silence. *)
Theorem select_from_projection (e : DatabaseEngine.t) (table_name : string)
    (where_ : option (dict string value)) (table : Table.t)
    (rs : list (dict string value)) :
  DatabaseEngine.tables e !! table_name = Some table ->
  Table.select table where_ = Ok rs ->
  DatabaseEngine.select_from table_name None where_ e = (e, Ok rs)
  /\ DatabaseEngine.select_from table_name (Some []) where_ e = (e, Ok rs)
  /\ forall cols, cols <> [] ->
       exists out,
         DatabaseEngine.select_from table_name (Some cols) where_ e = (e, Ok out)
         /\ length out = length rs
         /\ forall i row, rs !! i = Some row ->
              exists prow,
                out !! i = Some prow /\ Dict.wf prow
                /\ forall k, Dict.get k prow
                             = if decide (k ∈ cols) then Dict.get k row else None.
Proof.
  intros Htable Hsel.
  assert (Hget : DatabaseEngine._get_table e table_name = Ok table)
    by (unfold DatabaseEngine._get_table; by rewrite Htable).
  unfold DatabaseEngine.select_from. rewrite Hget, Hsel. split_and!; [done | done |].
  intros [|c cols] Hne; [done |].
  eexists. split; [done |]. split; [by rewrite length_map |].
  intros i row Hi. exists (DatabaseEngine.project (c :: cols) row). split_and!.
  - change ((DatabaseEngine.project (c :: cols) <$> rs) !! i
            = Some (DatabaseEngine.project (c :: cols) row)).
    by rewrite list_lookup_fmap, Hi.
  - apply project_wf.
  - intros k. unfold DatabaseEngine.project. rewrite project_get_acc.
    case_decide; [| done]. by destruct (Dict.get k row).
Qed.

(** ** Row counts *)

Lemma on_index_rows {A} (C : string) (op : M Index.t A) (s : Table.t) :
  Table.rows (Table.on_index C op s).1 = Table.rows s
  /\ Table.columns (Table.on_index C op s).1 = Table.columns s.
Proof.
  unfold Table.on_index.
  destruct (Dict.get C (Table.indexes s)) as [index|]; [| done].
  by destruct (op index).
Qed.

(** The body of the deletion loop, when it returns, has removed one
    row. *)
Lemma delete_at_rows (p : nat) (s s' : Table.t) :
  Table.delete_at p s = (s', Ok tt) ->
  Table.rows s' = delete p (Table.rows s) /\ p < length (Table.rows s)
  /\ Table.columns s' = Table.columns s.
Proof.
  unfold Table.delete_at. intros Hd.
  apply bind_ok in Hd as (row & s1 & Hrow & Hd).
  unfold Table.getrow in Hrow.
  destruct (Table.rows s !! p) as [r|] eqn:Hp; [| done]. injection Hrow as <- <-.
  apply bind_ok in Hd as (s0 & s2 & Hread & Hd). injection Hread as <- <-.
  apply bind_ok in Hd as ([] & s3 & Hl1 & Hd).
  apply bind_ok in Hd as ([] & s4 & Hl2 & Hd).
  injection Hd as <-.
  set (P := fun st : Table.t => Table.rows st = Table.rows s
                                /\ Table.columns st = Table.columns s).
  assert (H3 : P s3).
  { replace s3 with (for_each (Dict.keys (Table.indexes s))
                       (fun col_name =>
                          v <- lift (Table.getitem col_name r) ;;
                          Table.on_index col_name (Index.remove v p)) s).1
      by by rewrite Hl1.
    apply for_each_preserves; [| done]. intros C st [Hr Hc].
    unfold bind, lift. destruct (Table.getitem C r); [| done].
    unfold P. destruct (on_index_rows C (Index.remove a p) st) as [-> ->]. done. }
  assert (H4 : P s4).
  { replace s4 with (for_each (Dict.keys (Table.indexes s))
                       (fun col_name =>
                          Table.on_index col_name (Index.adjust_for_deletion p)) s3).1
      by by rewrite Hl2.
    apply for_each_preserves; [| done]. intros C st [Hr Hc].
    unfold P. destruct (on_index_rows C (Index.adjust_for_deletion p) st) as [-> ->].
    done. }
  destruct H4 as [Hr4 Hc4]. cbn [Table.rows Table.columns Table.set_rows].
  rewrite Hr4. split_and!; [done | | done].
  by apply lookup_lt_is_Some_1.
Qed.

(** [delete], when it returns [n], has removed [n] rows. *)
Lemma delete_rows (conditions : option (dict string value)) (t t' : Table.t)
    (n : nat) :
  Table.delete conditions t = (t', Ok n) ->
  length (Table.rows t') + n = length (Table.rows t)
  /\ Table.columns t' = Table.columns t.
Proof.
  unfold Table.delete.
  destruct (Table.target_indices t conditions) as [indices|e]; [| done].
  intros Hd. apply bind_ok in Hd as ([] & s & Hloop & Hret).
  injection Hret as <- <-.
  rewrite <- (Permutation_length (sort_reverse_perm indices)).
  revert Hloop. generalize (Table.sort_reverse indices). clear indices.
  intros l. revert t. induction l as [|p l IH]; intros t Hloop.
  - injection Hloop as <-. simpl. split; [lia | done].
  - simpl in Hloop. apply bind_ok in Hloop as ([] & s1 & Hstep & Hloop).
    apply delete_at_rows in Hstep as (Hr & Hp & Hc).
    apply IH in Hloop as [Hlen Hcols]. rewrite Hr in Hlen.
    rewrite length_delete in Hlen by by apply lookup_lt_is_Some_2.
    simpl. split; [lia | congruence].
Qed.

Section row_counts.
Context `{IntOfStr}.

(** [insert], when it returns, has appended one row. *)
Lemma insert_rows (values : list value) (t t' : Table.t) :
  Table.insert values t = (t', Ok tt) ->
  exists row, Table.rows t' = Table.rows t ++ [row]
              /\ Table.columns t' = Table.columns t.
Proof.
  unfold Table.insert. case_decide; [done |].
  destruct (Table.insert_row t (zip (Table.columns t) values) []) as [row|e];
    [| done].
  intros Hi. apply bind_ok in Hi as ([] & s1 & Hmod & Hloop).
  injection Hmod as <-. exists row.
  set (s1 := Table.set_rows (Table.rows t ++ [row]) t) in *.
  set (P := fun st : Table.t => Table.rows st = Table.rows t ++ [row]
                                /\ Table.columns st = Table.columns t).
  change (P t'). replace t' with (for_each (Dict.keys (Table.indexes t))
                                    (fun col_name =>
                                       v <- lift (Table.getitem col_name row) ;;
                                       s <- read ;;
                                       Table.on_index col_name
                                         (Index.add v (length (Table.rows s) - 1))) s1).1
    by by rewrite Hloop.
  apply for_each_preserves; [| done].
  intros C st [Hr Hc]. unfold bind, lift, read.
  destruct (Table.getitem C row) as [v|]; [| done]. unfold P.
  by destruct (on_index_rows C (Index.add v (length (Table.rows st) - 1)) st)
    as [-> ->].
Qed.

(** [update] neither adds nor removes a row, whatever its outcome. *)
Lemma update_rows (updates : dict string value)
    (conditions : option (dict string value)) (t : Table.t) :
  length (Table.rows (Table.update updates conditions t).1) = length (Table.rows t)
  /\ Table.columns (Table.update updates conditions t).1 = Table.columns t.
Proof.
  set (P := fun st : Table.t => length (Table.rows st) = length (Table.rows t)
                                /\ Table.columns st = Table.columns t).
  change (P (Table.update updates conditions t).1).
  assert (Hix : forall {A} C (op : M Index.t A) st, P st -> P (Table.on_index C op st).1).
  { intros A C op st [Hr Hc]. unfold P.
    by destruct (on_index_rows C op st) as [-> ->]. }
  unfold Table.update.
  destruct (Table.target_indices t conditions) as [indices|e]; [| done].
  destruct (Table.validate_updates t indices updates); [| done].
  apply bind_preserves; [| done].
  apply for_each_preserves; [| done].
  intros idx s0 Hs0. unfold Table.apply_update.
  apply bind_preserves.
  { unfold Table.getrow. by destruct (Table.rows s0 !! idx). }
  intros _ s1 Hs1. apply bind_preserves.
  - apply for_each_preserves; [| done]. intros C s2 Hs2.
    apply bind_preserves; [done |]. intros s3 s4 Hs4.
    destruct (Dict.mem C (Table.indexes s3)); [| done].
    apply bind_preserves.
    { unfold Table.getrow. by destruct (Table.rows s4 !! idx). }
    intros row s5 Hs5. apply bind_preserves; [done |].
    intros old s6 Hs6. by apply Hix.
  - intros _ s2 Hs2. apply for_each_preserves; [| done].
    intros [C new_value] s3 Hs3.
    apply bind_preserves; [done |]. intros s4 s5 Hs5.
    apply bind_preserves; [by unfold lift |]. intros col s6 Hs6.
    apply bind_preserves; [by unfold lift |]. intros w s7 Hs7.
    apply bind_preserves.
    + unfold Table.setitem_row, modify. cbn [fst]. destruct Hs7 as [Hr Hc].
      split; [| done]. cbn [Table.rows Table.set_rows]. by rewrite length_alter.
    + intros _ s8 Hs8. destruct (Dict.mem C (Table.indexes s4)); [| done].
      by apply Hix.
Qed.

(** X22: [get_table_info] reports, for every table of the catalog and for no
    other name, the columns as [str(col)] gives them and the number of
    stored rows.  The count follows the operations: a new table reports
    0, a dropped one is no longer listed, an [insert_into] that returns
    adds one, an [update_table] of any outcome keeps the count, a
    [delete_from] that returns [n] takes [n] off; the column list of a
    table never changes. *)
Theorem table_info_row_count (e : DatabaseEngine.t) (table_name : string) :
  let info (t : Table.t) :=
    {| DatabaseEngine.info_columns := map Column.repr (Table.columns t);
       DatabaseEngine.row_count := length (Table.rows t) |} in
  DatabaseEngine.get_table_info e !! table_name
  = info <$> DatabaseEngine.tables e !! table_name
  /\ (forall columns e',
        DatabaseEngine.create_table table_name columns e = (e', Ok tt) ->
        DatabaseEngine.get_table_info e'
        = <[table_name := {| DatabaseEngine.info_columns := map Column.repr columns;
                             DatabaseEngine.row_count := 0 |}]>
            (DatabaseEngine.get_table_info e))
  /\ (forall e',
        DatabaseEngine.drop_table table_name e = (e', Ok tt) ->
        DatabaseEngine.get_table_info e'
        = delete table_name (DatabaseEngine.get_table_info e))
  /\ (forall t, DatabaseEngine.tables e !! table_name = Some t ->
      (forall values e',
          DatabaseEngine.insert_into table_name values e = (e', Ok tt) ->
          DatabaseEngine.get_table_info e'
          = <[table_name := {| DatabaseEngine.info_columns :=
                                 map Column.repr (Table.columns t);
                               DatabaseEngine.row_count := S (length (Table.rows t)) |}]>
              (DatabaseEngine.get_table_info e))
      /\ (forall updates where_,
            DatabaseEngine.get_table_info
              (DatabaseEngine.update_table table_name updates where_ e).1
            = DatabaseEngine.get_table_info e)
      /\ (forall where_ e' n,
            DatabaseEngine.delete_from table_name where_ e = (e', Ok n) ->
            n <= length (Table.rows t)
            /\ DatabaseEngine.get_table_info e'
               = <[table_name := {| DatabaseEngine.info_columns :=
                                      map Column.repr (Table.columns t);
                                    DatabaseEngine.row_count :=
                                      length (Table.rows t) - n |}]>
                   (DatabaseEngine.get_table_info e))).
Proof.
  intros info. unfold DatabaseEngine.get_table_info. fold info. split_and!.
  - apply lookup_fmap.
  - intros columns e' (t & _ & Hinit & ->)%create_table_returns.
    cbn [DatabaseEngine.tables]. rewrite fmap_insert. f_equal.
    apply table_init_fields in Hinit as (_ & Hc & Hr). unfold info.
    by rewrite Hc, Hr.
  - intros e'. unfold DatabaseEngine.drop_table.
    destruct (DatabaseEngine.tables e !! table_name); [| done].
    intros [= <-]. cbn [DatabaseEngine.tables]. apply fmap_delete.
  - intros t Ht.
    assert (Hget : DatabaseEngine._get_table e table_name = Ok t)
      by (unfold DatabaseEngine._get_table; by rewrite Ht).
    split_and!.
    + intros values e'. unfold DatabaseEngine.insert_into, DatabaseEngine.on_table.
      rewrite Hget. destruct (Table.insert values t) as [t' r] eqn:Hins.
      intros [= <- ->]. apply insert_rows in Hins as (row & Hr & Hc).
      cbn [DatabaseEngine.tables]. rewrite fmap_insert. f_equal. unfold info.
      rewrite Hr, Hc, length_app. simpl. do 2 f_equal. lia.
    + intros updates where_.
      unfold DatabaseEngine.update_table, DatabaseEngine.on_table. rewrite Hget.
      destruct (update_rows updates where_ t) as [Hr Hc].
      destruct (Table.update updates where_ t) as [t' r].
      cbn [fst DatabaseEngine.tables] in *. rewrite fmap_insert.
      apply insert_id. rewrite lookup_fmap, Ht. simpl. f_equal. unfold info.
      by rewrite Hr, Hc.
    + intros where_ e' n.
      unfold DatabaseEngine.delete_from, DatabaseEngine.on_table. rewrite Hget.
      destruct (Table.delete where_ t) as [t' r] eqn:Hdel.
      intros [= <- ->]. apply delete_rows in Hdel as [Hr Hc]. split; [lia |].
      cbn [DatabaseEngine.tables]. rewrite fmap_insert. f_equal. unfold info.
      rewrite Hc. f_equal. lia.
Qed.

End row_counts.

(** ** Update of one row, key columns included *)

Lemma for_each_progress {S A} (Q : list A -> S -> Prop) (body : A -> M S unit)
    (xs : list A) (s : S) :
  Q xs s ->
  (forall x rest s1, Q (x :: rest) s1 ->
                     exists s2, body x s1 = (s2, Ok tt) /\ Q rest s2) ->
  exists s', for_each xs body s = (s', Ok tt) /\ Q [] s'.
Proof.
  intros HQ Hstep. revert s HQ. induction xs as [|x xs IH]; intros s HQ.
  - by exists s.
  - destruct (Hstep x xs s HQ) as (s2 & Hbody & HQ2).
    destruct (IH s2 HQ2) as (s' & Hloop & HQ').
    exists s'. split; [| done]. simpl. unfold bind. by rewrite Hbody.
Qed.

Lemma pending_index_keys (idx : nat) (pending : list string) (t st : Table.t) :
  schema_ok t -> table_inv_pending idx pending st ->
  Table.columns st = Table.columns t ->
  Dict.keys (Table.indexes st) = Dict.keys (Table.indexes t).
Proof.
  intros [_ Hk] ([_ Hk'] & _) Hc. by rewrite Hk, Hk', Hc.
Qed.

Section update_one.
Context `{IntOfStr}.

(** The first inner loop of the apply loop returns: every indexed column
    assigned loses its entry for the slot. *)
Lemma update_remove_loop (updates : dict string value) (idx : nat) (s : Table.t) :
  Dict.wf updates -> table_inv s -> is_Some (Table.rows s !! idx) ->
  exists s1,
    for_each (Dict.keys updates)
      (fun col_name =>
         s0 <- read ;;
         if Dict.mem col_name (Table.indexes s0) then
           row <- Table.getrow idx ;;
           old_value <- lift (Table.getitem col_name row) ;;
           Table.on_index col_name (Index.remove old_value idx)
         else ret tt) s = (s1, Ok tt)
    /\ table_inv_pending idx (Dict.keys updates) s1
    /\ Table.rows s1 = Table.rows s /\ Table.columns s1 = Table.columns s.
Proof.
  intros Hwf (Hs & Hr & Hix) Hsome.
  destruct (for_each_progress
              (fun remaining st =>
                 NoDup remaining /\ remaining ⊆ Dict.keys updates
                 /\ table_inv_pending idx
                      (list_difference (Dict.keys updates) remaining) st
                 /\ Table.rows st = Table.rows s
                 /\ Table.columns st = Table.columns s)
              (fun col_name =>
                 s0 <- read ;;
                 if Dict.mem col_name (Table.indexes s0) then
                   row <- Table.getrow idx ;;
                   old_value <- lift (Table.getitem col_name row) ;;
                   Table.on_index col_name (Index.remove old_value idx)
                 else ret tt)
              (Dict.keys updates) s) as (s1 & Hloop & _ & _ & Hpend & Hrows & Hcols).
  - split_and!; [done | done | | done | done].
    split_and!; [done | done | done |].
    intros C index Hg. rewrite decide_False; [by apply Hix |].
    rewrite list_elem_of_difference. tauto.
  - intros C rest st (Hnd & Hsub & Hpend & Hrows & Hcols).
    assert (Hbody : exists st2,
               (s0 <- read ;;
                if Dict.mem C (Table.indexes s0) then
                  row <- Table.getrow idx ;;
                  old_value <- lift (Table.getitem C row) ;;
                  Table.on_index C (Index.remove old_value idx)
                else ret tt) st = (st2, Ok tt)
               /\ Table.rows st2 = Table.rows st
               /\ Table.columns st2 = Table.columns st).
    { unfold bind at 1, read at 1.
      destruct (Dict.mem C (Table.indexes st)) eqn:Hm; [| by exists st].
      apply dict_mem_true in Hm as [index Hg].
      destruct Hpend as (_ & _ & [row Hrow] & Hpix).
      assert (Hcol : is_Some (Dict.get C row)).
      { specialize (Hpix C index Hg).
        destruct (decide (C ∈ list_difference (Dict.keys updates) (C :: rest)));
          [destruct Hpix as (_ & _ & _ & _ & Hall)
          | destruct Hpix as (_ & _ & _ & _ & Hall)];
          by apply (Forall_lookup_1 _ _ _ _ Hall Hrow). }
      destruct Hcol as [old Hold].
      unfold bind at 1, Table.getrow at 1. rewrite Hrow.
      unfold bind at 1, lift at 1, Table.getitem at 1. rewrite Hold.
      unfold Table.on_index. rewrite Hg. eexists. by split_and!. }
    destruct Hbody as (st2 & Hbody & Hr2 & Hc2). exists st2. split; [done |].
    split_and!.
    + by apply NoDup_cons in Hnd as [_ ?].
    + intros x Hx. apply Hsub. by apply list_elem_of_further.
    + eapply update_remove_step; [done | | done | done].
      apply Hsub, list_elem_of_here.
    + congruence.
    + congruence.
  - exists s1. split; [done |]. split_and!; [| done | done].
    eapply table_inv_pending_ext; [| exact Hpend].
    intros C _. rewrite list_elem_of_difference.
    split; [by intros [? _] | intros ?; split; [done | apply not_elem_of_nil]].
Qed.


(** The second inner loop of the apply loop returns on applicable
    assignments: the row at the slot takes the validated values and the
    indexes take the entries of the slot back. *)
Lemma update_write_loop (t : Table.t) (updates : dict string value) (idx : nat)
    (s1 : Table.t) :
  Dict.wf updates -> schema_ok t ->
  applicable_updates t idx updates ->
  table_inv_pending idx (Dict.keys updates) s1 ->
  Table.rows s1 = Table.rows t -> Table.columns s1 = Table.columns t ->
  exists s2,
    for_each updates
      (fun '(col_name, new_value) =>
         s <- read ;;
         col <- lift (Table.getitem col_name (Table.column_dict s)) ;;
         validated <- lift (Column.validate_value col new_value) ;;
         Table.setitem_row idx col_name validated ;;;
         if Dict.mem col_name (Table.indexes s)
         then Table.on_index col_name (Index.add validated idx)
         else ret tt) s1 = (s2, Ok tt)
    /\ table_inv s2
    /\ Table.rows s2 = alter (written t updates) idx (Table.rows t).
Proof.
  intros Hwf Hs Happ Hpend Hrows Hcols.
  destruct (for_each_progress
              (fun remaining st =>
                 NoDup (Dict.keys remaining)
                 /\ applicable_updates t idx remaining
                 /\ table_inv_pending idx (Dict.keys remaining) st
                 /\ Table.columns st = Table.columns t
                 /\ alter (written t remaining) idx (Table.rows st)
                    = alter (written t updates) idx (Table.rows t))
              (fun '(col_name, new_value) =>
                 s <- read ;;
                 col <- lift (Table.getitem col_name (Table.column_dict s)) ;;
                 validated <- lift (Column.validate_value col new_value) ;;
                 Table.setitem_row idx col_name validated ;;;
                 if Dict.mem col_name (Table.indexes s)
                 then Table.on_index col_name (Index.add validated idx)
                 else ret tt)
              updates s1) as (s2 & Hloop & _ & _ & Hpend2 & _ & Halter).
  - split_and!; [done | done | done | done | by rewrite Hrows].
  - intros [C v] rest st (Hnd & Happ' & Hpend' & Hcols' & Halter).
    apply Forall_cons in Happ' as [(col & w & Hcol & Hw & Hfresh) Happ'].
    simpl in Hcol, Hw, Hfresh.
    assert (Hbody : exists st2,
               (s <- read ;;
                col <- lift (Table.getitem C (Table.column_dict s)) ;;
                validated <- lift (Column.validate_value col v) ;;
                Table.setitem_row idx C validated ;;;
                if Dict.mem C (Table.indexes s)
                then Table.on_index C (Index.add validated idx)
                else ret tt) st = (st2, Ok tt)
               /\ Table.rows st2 = alter (Dict.set C w) idx (Table.rows st)
               /\ Table.columns st2 = Table.columns st).
    { unfold bind at 1, read at 1.
      unfold bind at 1, lift at 1, Table.getitem at 1.
      assert (Table.column_dict st = Table.column_dict t) as ->
        by (unfold Table.column_dict; by rewrite Hcols').
      rewrite Hcol. unfold bind at 1, lift at 1. rewrite Hw.
      unfold bind at 1, Table.setitem_row at 1, modify at 1.
      destruct (Dict.mem C (Table.indexes st)) eqn:Hm; [| by eexists].
      apply dict_mem_true in Hm as [index Hg].
      unfold Table.on_index. cbn [Table.indexes Table.set_rows]. rewrite Hg.
      assert (Hfree : Index.contains index w = false).
      { unfold Index.contains. apply dict_mem_false.
        destruct (Dict.get w (Index._index index)) as [s'|] eqn:Hs'; [| done].
        exfalso.
        pose proof Hpend' as (_ & _ & _ & Hpix). specialize (Hpix C index Hg).
        rewrite decide_True in Hpix by apply list_elem_of_here.
        destruct Hpix as (_ & _ & Hfwd & _).
        apply Hfwd in Hs' as (Hne & row & Hrow & Hv).
        assert (Hsame : Table.rows st !! s' = Table.rows t !! s').
        { apply (f_equal (fun l => l !! s')) in Halter.
          by rewrite !list_lookup_alter_ne in Halter by done. }
        rewrite Hsame in Hrow.
        apply (Hfresh) with (s := s') (row := row); [| done | done | done].
        apply dict_get_is_Some_keys.
        rewrite <- (pending_index_keys idx (Dict.keys ((C, v) :: rest)) t st);
          [| done | | done].
        - apply dict_get_is_Some_keys. by eexists.
        - exact Hpend'. }
      rewrite (index_add_fresh w idx index Hfree). eexists. by split_and!. }
    destruct Hbody as (st2 & Hbody & Hr2 & Hc2). exists st2. split; [done |].
    simpl in Hnd. split_and!.
    + by apply NoDup_cons in Hnd as [_ ?].
    + done.
    + by eapply update_write_step.
    + congruence.
    + rewrite Hr2, list_alter_alter. rewrite <- Halter.
      apply list_alter_ext; [| done]. intros r _.
      unfold written. simpl. by rewrite Hcol, Hw.
  - exists s2. split; [done |]. split; [by apply (table_inv_pending_nil idx) |].
    rewrite <- Halter. symmetry. by apply list_alter_id.
Qed.

Lemma check_updates_applicable (t : Table.t) (idx : nat)
    (updates : dict string value) :
  table_inv t -> applicable_updates t idx updates ->
  Table.check_updates t idx updates = Ok tt.
Proof.
  intros (_ & _ & Hix). induction 1 as [|[C v] updates (col & w & Hcol & Hw & Hfresh) _ IH];
    [done |].
  simpl in Hcol, Hw, Hfresh |- *.
  destruct (Dict.get C (Table.indexes t)) as [index|] eqn:Hg; [| done].
  unfold Table.getitem. rewrite Hcol, Hw.
  destruct (Index.get index w) as [existing|] eqn:He; [| done].
  destruct (decide (existing = idx)) as [|Hne]; [done |]. exfalso.
  destruct (Hix C index Hg) as (_ & _ & Hfwd & _).
  apply Hfwd in He as (row & Hrow & Hv).
  by apply (Hfresh (mk_is_Some _ _ eq_refl) existing row).
Qed.

(** X23: [update] whose one target is the row at slot [idx], with applicable
    assignments (declared columns, values that validate, and no other
    row holding the new value of an indexed column), on a table that
    holds the invariant: the call returns 1; the row at [idx] holds the
    validated values under the assigned columns, every other row is as
    before; the invariant holds again, so that each index finds the
    row's new value, and no longer its old one, at [idx]. *)
Theorem update_one_row (t : Table.t) (updates : dict string value)
    (conditions : option (dict string value)) (idx : nat) :
  table_inv t -> Dict.wf updates ->
  Table.target_indices t conditions = Ok [idx] ->
  applicable_updates t idx updates ->
  exists t',
    Table.update updates conditions t = (t', Ok 1)
    /\ Table.rows t' = alter (written t updates) idx (Table.rows t)
    /\ table_inv t'
    /\ forall C index' row',
         Dict.get C (Table.indexes t') = Some index' ->
         Table.rows t' !! idx = Some row' ->
         exists w, Dict.get C row' = Some w
                   /\ forall v, Index.get index' v = Some idx <-> v = w.
Proof.
  intros Hinv Hwf Htarget Happ.
  pose proof (target_indices_bound _ _ _ Htarget) as Hbound.
  apply Forall_cons in Hbound as [Hidx _].
  pose proof (lookup_lt_is_Some_2 _ _ Hidx) as Hsome.
  destruct (update_remove_loop updates idx t Hwf Hinv Hsome)
    as (s1 & Hloop1 & Hpend & Hr1 & Hc1).
  destruct (update_write_loop t updates idx s1) as (s2 & Hloop2 & Hinv2 & Hr2);
    [done | by destruct Hinv | done | done | done | done |].
  assert (Hupd : Table.update updates conditions t = (s2, Ok 1)).
  { unfold Table.update. rewrite Htarget. simpl.
    destruct Hsome as [row ->]. rewrite check_updates_applicable by done.
    unfold bind at 1. unfold bind at 1. unfold Table.apply_update.
    unfold bind at 1, Table.getrow at 1.
    destruct (Table.rows t !! idx) as [row0|] eqn:Hrow0.
    - unfold bind at 1. rewrite Hloop1, Hloop2. done.
    - apply lookup_ge_None in Hrow0. lia. }
  exists s2. split_and!; [done | done | done |].
  intros C index' row' Hg Hrow'. destruct Hinv2 as (_ & _ & Hix2).
  destruct (Hix2 C index' Hg) as (_ & _ & Hfwd & _ & Hall).
  destruct (Forall_lookup_1 _ _ _ _ Hall Hrow') as [w Hw].
  exists w. split; [done |]. intros v. unfold Index.get. rewrite Hfwd. split.
  - intros (row & Hrow & Hv). congruence.
  - intros ->. by exists row'.
Qed.

End update_one.

(** ** Which errors [insert] and [update] raise *)

Section error_kinds.
Context `{IntOfStr}.

(** The validation loop of [insert] raises at the first pair, in order,
    whose value does not validate or whose validated value the index
    holds. *)
Lemma insert_row_Raise (self : Table.t) (pairs : list (Column.t * value))
    (row0 : dict string value) (e : error) :
  Table.insert_row self pairs row0 = Raise e ->
  exists j c v,
    pairs !! j = Some (c, v)
    /\ (forall i ci vi, i < j -> pairs !! i = Some (ci, vi) ->
          exists wi, Column.validate_value ci vi = Ok wi
                     /\ (Column.indexed ci = true ->
                         exists index,
                           Dict.get (Column.name ci) (Table.indexes self) = Some index
                           /\ Index.contains index wi = false))
    /\ (Column.validate_value c v = Raise e
        \/ exists w, Column.validate_value c v = Ok w
                     /\ Column.indexed c = true
                     /\ match Dict.get (Column.name c) (Table.indexes self) with
                        | None => e = KeyError
                        | Some index =>
                            Index.contains index w = true /\ e = ConstraintViolation
                        end).
Proof.
  revert row0. induction pairs as [|[c v] pairs IH]; intros row0; [done |].
  simpl. destruct (Column.validate_value c v) as [w|e0] eqn:Hv.
  - assert (Hrec : Table.insert_row self pairs
                     (Dict.set (Column.name c) w row0) = Raise e ->
                   (Column.indexed c = true ->
                    exists index,
                      Dict.get (Column.name c) (Table.indexes self) = Some index
                      /\ Index.contains index w = false) ->
                   exists j c0 v0,
                     ((c, v) :: pairs) !! j = Some (c0, v0)
                     /\ (forall i ci vi, i < j ->
                           ((c, v) :: pairs) !! i = Some (ci, vi) ->
                           exists wi, Column.validate_value ci vi = Ok wi
                             /\ (Column.indexed ci = true ->
                                 exists index,
                                   Dict.get (Column.name ci) (Table.indexes self)
                                   = Some index
                                   /\ Index.contains index wi = false))
                     /\ (Column.validate_value c0 v0 = Raise e
                         \/ exists w0, Column.validate_value c0 v0 = Ok w0
                              /\ Column.indexed c0 = true
                              /\ match Dict.get (Column.name c0) (Table.indexes self) with
                                 | None => e = KeyError
                                 | Some index =>
                                     Index.contains index w0 = true
                                     /\ e = ConstraintViolation
                                 end)).
    { intros Hr Hhead. apply IH in Hr as (j & c0 & v0 & Hj & Hbefore & Hfail).
      exists (S j), c0, v0. split_and!; [done | | done].
      intros [|i] ci vi Hi Hlook; simpl in Hlook.
      - injection Hlook as <- <-. by exists w.
      - apply (Hbefore i); [lia | done]. }
    destruct (Column.indexed c) eqn:Hix; [| by intros Hr; apply Hrec].
    destruct (Dict.get (Column.name c) (Table.indexes self)) as [index|] eqn:Hg.
    + destruct (Index.contains index w) eqn:Hc.
      * intros [= <-]. exists 0, c, v. split_and!; [done | intros; lia |].
        right. exists w. rewrite Hg. by split_and!.
      * intros Hr. apply Hrec; [done |]. intros _. by exists index.
    + intros [= <-]. exists 0, c, v. split_and!; [done | intros; lia |].
      right. exists w. rewrite Hg. by split_and!.
  - intros [= <-]. exists 0, c, v. split_and!; [done | intros; lia | by left].
Qed.

(** X24: [insert] raises only the value-count error, the [TypeError] of
    validation and the uniqueness error, never a [KeyError]; it raises
    the count error exactly on a wrong number of values, and otherwise
    the error of the first column, in column order, whose value does not
    validate or whose validated value its index holds; the columns
    before it pass both tests, and the table is as before. *)
Theorem insert_error_kinds (t t' : Table.t) (values : list value) (e : error) :
  schema_ok t ->
  Table.insert values t = (t', Raise e) ->
  t' = t
  /\ ((e = ValueCountError /\ length values <> length (Table.columns t))
      \/ (length values = length (Table.columns t)
          /\ exists j c v,
               Table.columns t !! j = Some c /\ values !! j = Some v
               /\ (forall i ci vi,
                     i < j -> Table.columns t !! i = Some ci ->
                     values !! i = Some vi ->
                     exists wi,
                       Column.validate_value ci vi = Ok wi
                       /\ (Column.indexed ci = true ->
                           exists index,
                             Dict.get (Column.name ci) (Table.indexes t) = Some index
                             /\ Index.contains index wi = false))
               /\ ((e = TypeError /\ Column.validate_value c v = Raise TypeError)
                   \/ (e = ConstraintViolation /\ Column.indexed c = true
                       /\ exists w index,
                            Column.validate_value c v = Ok w
                            /\ Dict.get (Column.name c) (Table.indexes t) = Some index
                            /\ Index.contains index w = true)))).
Proof.
  intros Hs Hins. pose proof Hins as Hins'. unfold Table.insert in Hins'.
  destruct (decide (length values <> length (Table.columns t))) as [Hl|Hl].
  { injection Hins' as <- <-. split; [done |]. by left. }
  assert (Hlen : length values = length (Table.columns t)) by lia.
  destruct (Table.insert_row t (zip (Table.columns t) values) [])
    as [row|e'] eqn:Hrow.
  { rewrite (insert_success t values row Hs Hlen Hrow) in Hins. done. }
  injection Hins' as <- <-. split; [done |]. right.
  split; [done |].
  apply insert_row_Raise in Hrow as (j & c & v & Hj & Hbefore & Hfail).
  apply lookup_zip_Some in Hj as [Hc Hv].
  exists j, c, v. split_and!; [done | done | |].
  - intros i ci vi Hi Hci Hvi. apply (Hbefore i ci vi Hi).
    apply lookup_zip_Some. by split.
  - destruct Hfail as [Hraise'|(w & Hw & Hix & Hcase)].
    + left. split; [| rewrite Hraise'; f_equal];
        unfold Column.validate_value in Hraise';
        destruct v, (Column.data_type c); try done;
        destruct (int_of_str s); try done; by injection Hraise' as <-.
    + destruct (schema_column_index t c Hs) as [index Hg];
        [by eapply list_elem_of_lookup_2 | done |].
      rewrite Hg in Hcase. destruct Hcase as [Hcont ->].
      right. split_and!; [done | done |]. by exists w, index.
Qed.

(** X25: an assignment to a column the table does not declare, on a
    table that holds the invariant and for conditions that have a
    target: the validation pass lets it through (the column has no
    index) and the apply loop raises the [KeyError] of
    [column_dict[col_name]] for the first target, before anything is
    written. *)
Theorem update_undeclared_column (t : Table.t) (C : string) (v : value)
    (conditions : option (dict string value)) (idx : nat) (rest : list nat) :
  table_inv t ->
  C ∉ map Column.name (Table.columns t) ->
  Table.target_indices t conditions = Ok (idx :: rest) ->
  Table.update [(C, v)] conditions t = (t, Raise KeyError).
Proof.
  intros ([_ Hkeys] & _ & _) HC Htarget.
  assert (Hix : Dict.get C (Table.indexes t) = None).
  { apply dict_get_None_keys. rewrite Hkeys. intros Hin. apply HC.
    apply list_elem_of_fmap in Hin as (c & -> & Hc).
    apply list_elem_of_fmap. exists c. split; [done |].
    by apply list_elem_of_filter in Hc as [_ ?]. }
  assert (Hcd : Dict.get C (Table.column_dict t) = None).
  { apply dict_get_None_keys. intros Hin.
    apply column_dict_names in Hin as [Hin|Hin]; [by apply elem_of_nil in Hin | done]. }
  pose proof (target_indices_bound _ _ _ Htarget) as Hbound.
  unfold Table.update. rewrite Htarget.
  rewrite validate_updates_plain; [| by repeat constructor | done].
  apply Forall_cons in Hbound as [Hidx _].
  destruct (lookup_lt_is_Some_2 _ _ Hidx) as [row Hrow].
  unfold bind at 1. cbn [for_each]. unfold bind at 1. unfold Table.apply_update.
  unfold bind at 1, Table.getrow at 1. rewrite Hrow.
  unfold bind at 1. cbn [for_each Dict.keys map fst].
  unfold bind at 1. unfold bind at 1, read at 1.
  assert (Dict.mem C (Table.indexes t) = false) as -> by by apply dict_mem_false.
  unfold ret at 1. unfold bind at 1, ret at 1.
  cbn [for_each]. unfold bind at 1. unfold bind at 1, read at 1.
  unfold bind at 1, lift at 1, Table.getitem at 1. rewrite Hcd. done.
Qed.

End error_kinds.

(** * Closed examples

    From here on [int] is [decimal_int_of_str]. *)

#[local] Existing Instance decimal_int_of_str.

Lemma example_empty_init : Table.init "t" example_columns = Ok example_empty.
Proof. reflexivity. Qed.

Lemma example_table_inserts :
  run_ops [OpInsert [VInt 1; VInt 10]; OpInsert [VInt 2; VInt 20]] example_empty
  = example_table.
Proof. reflexivity. Qed.

Lemma example_columns_distinct : NoDup (map Column.name example_columns).
Proof.
  simpl. apply NoDup_cons. split.
  - rewrite list_elem_of_singleton. discriminate.
  - apply NoDup_singleton.
Qed.

Lemma example_empty_inv : table_inv example_empty.
Proof.
  apply (table_inv_init "t" example_columns);
    [apply example_columns_distinct | apply example_empty_init].
Qed.

Lemma example_table_inv : table_inv example_table.
Proof.
  assert (example_table
          = (Table.insert [VInt 2; VInt 20]
               (Table.insert [VInt 1; VInt 10] example_empty).1).1)
    as -> by reflexivity.
  apply table_inv_insert, table_inv_insert, example_empty_inv.
Qed.

Lemma example_id_index :
  Dict.get "id" (Table.indexes example_table)
  = Some {| Index.column_name := "id";
            Index._index := [(VInt 1, 0); (VInt 2, 1)];
            Index._reverse_index := [(0, VInt 1); (1, VInt 2)] |}.
Proof. reflexivity. Qed.

(** The concrete scenario of the specification, run on the embedding. *)
Example users_scenario :
  DatabaseEngine.select_from "users" None (Some [("id", VInt 1)]) users_engine
  = (users_engine,
     Ok [[("id", VInt 1); ("email", VStr "a@x.com"); ("name", VStr "A")]])
  /\ (DatabaseEngine.update_table "users" [("name", VStr "A2")]
        (Some [("id", VInt 1)]) users_engine).2 = Ok 1
  /\ DatabaseEngine.select_from "users" None (Some [("id", VInt 1)]) users_renamed
     = (users_renamed,
        Ok [[("id", VInt 1); ("email", VStr "a@x.com"); ("name", VStr "A2")]])
  /\ DatabaseEngine.insert_into "users" [VInt 1; VStr "c@x.com"; VStr "C"]
       users_renamed
     = (users_renamed, Raise ConstraintViolation)
  /\ (DatabaseEngine.delete_from "users" (Some [("id", VInt 1)]) users_renamed).2
     = Ok 1
  /\ DatabaseEngine.select_from "users" None None users_deleted
     = (users_deleted,
        Ok [[("id", VInt 2); ("email", VStr "b@x.com"); ("name", VStr "B")]])
  /\ (exists table index,
        DatabaseEngine.tables users_deleted !! "users" = Some table
        /\ Dict.get "id" (Table.indexes table) = Some index
        /\ Index.get index (VInt 2) = Some 0).
Proof.
  split_and!; try (vm_compute; reflexivity).
  eexists _, _. split_and!; vm_compute; reflexivity.
Qed.

(** C1: update atomicity (an [update] that fails, be it by a uniqueness
    conflict between two of its target rows or by a type error on a
    non-indexed assignment, leaves every row and every index untouched)
    does not hold of the code.  On a table holding the rows [id = 1] and
    [id = 2], [update({"id": 5})] with no condition passes the validation
    pass (5 is in no index entry), rewrites row 0, then raises from
    [Index.add] while rewriting row 1: both rows now carry [id = 5] and
    the index has lost the entry of row 1.  Likewise
    [update({"id": 7, "age": "abc"}, {"id": 1})] raises [TypeError] on
    the non-indexed assignment after [id] was rewritten in the row and
    in the index. *)
Theorem update_mutates_before_raising :
  Table.update [("id", VInt 5)] None example_table
  = (example_corrupt, Raise ConstraintViolation)
  /\ example_corrupt <> example_table
  /\ Table.update [("id", VInt 7); ("age", VStr "abc")]
       (Some [("id", VInt 1)]) example_table
     = (example_half_updated, Raise TypeError)
  /\ example_half_updated <> example_table.
Proof. split_and!; [reflexivity | discriminate | reflexivity | discriminate]. Qed.

(** C3: the index invariant (one entry per row, mapping the row's value
    to the row's slot) in every state reachable from the empty table by
    [insert], [update] and [delete], failed calls included, does not hold
    of the code.  The table reached by two inserts and the update above,
    which raises, holds two rows while the index of [id] holds one entry,
    and no entry maps the value of row 1 to slot 1. *)
Theorem index_invariant_lost_by_failed_update :
  Table.init "t" example_columns = Ok example_empty
  /\ run_ops [OpInsert [VInt 1; VInt 10]; OpInsert [VInt 2; VInt 20];
              OpUpdate [("id", VInt 5)] None] example_empty
     = example_corrupt
  /\ length (Table.rows example_corrupt) = 2
  /\ exists index,
       Dict.get "id" (Table.indexes example_corrupt) = Some index
       /\ length (Index._index index) = 1
       /\ ~ index_inv (Table.rows example_corrupt) "id" index.
Proof.
  split_and!; [reflexivity | reflexivity | reflexivity |].
  eexists. split_and!; [reflexivity | reflexivity |].
  intros (_ & _ & Hfwd & _).
  assert (Hrow1 : Dict.get (VInt 5)
                    (Index._index {| Index.column_name := "id";
                                     Index._index := [(VInt 5, 0)];
                                     Index._reverse_index := [(0, VInt 5)] |})
                  = Some 1).
  { apply Hfwd. by exists [("id", VInt 5); ("age", VInt 20)]. }
  discriminate.
Qed.

(** C4: [select] without condition returning value-copies (writing to a
    returned row leaves the stored rows unchanged) does not hold of the
    code.  The result is a new list of the table's own row objects;
    writing to the first returned row changes the row the table stores
    at slot 0. *)
Theorem select_all_shares_row_objects :
  ObjTable.select example_obj_table None example_heap
  = (example_heap, Ok (ObjTable.rows example_obj_table))
  /\ Heap.view example_heap (ObjTable.rows example_obj_table)
     = Table.rows example_table
  /\ Heap.view (Heap.setitem 0 "age" (VInt 99) example_heap)
       (ObjTable.rows example_obj_table)
     = [[("id", VInt 1); ("age", VInt 99)]; [("id", VInt 2); ("age", VInt 20)]]
  /\ Heap.view (Heap.setitem 0 "age" (VInt 99) example_heap)
       (ObjTable.rows example_obj_table)
     <> Heap.view example_heap (ObjTable.rows example_obj_table).
Proof. split_and!; [reflexivity | reflexivity | reflexivity | discriminate]. Qed.

(** C2: uniqueness of the primary key on [insert] (a row whose
    primary-key value equals an existing row's is refused with
    [ConstraintViolation], the row count unchanged) fails on a table an
    [update] that raised has left behind.  [update({"age": "abc",
    "id": 7})] on the rows [(1, 10)], [(2, 20)] passes the validation
    pass, removes the index entry of row 0 and raises [TypeError] on
    [age]; the rows are unchanged and the index no longer knows [id = 1],
    so that [insert([1, 99])] returns and the table holds two rows with
    [id = 1]. *)
Theorem insert_accepts_duplicate_key_after_failed_update :
  run_ops [OpInsert [VInt 1; VInt 10]; OpInsert [VInt 2; VInt 20];
           OpUpdate [("age", VStr "abc"); ("id", VInt 7)] None] example_empty
  = example_stale
  /\ Table.update [("age", VStr "abc"); ("id", VInt 7)] None example_table
     = (example_stale, Raise TypeError)
  /\ Table.rows example_stale !! 0 = Some [("id", VInt 1); ("age", VInt 10)]
  /\ Table.insert [VInt 1; VInt 99] example_stale = (example_doubled, Ok tt)
  /\ length (Table.rows example_doubled) = S (length (Table.rows example_stale))
  /\ Table.rows example_doubled !! 2 = Some [("id", VInt 1); ("age", VInt 99)].
Proof. by split_and!. Qed.

(** C5: the index path and the scan path of [select] disagree on the
    table the failed [update({"id": 5})] has left behind: both rows
    carry [id = 5], the index knows one of them, and [select({"id": 5})]
    returns one row where the full scan under [row["id"] == 5] keeps
    two. *)
Theorem select_index_path_misses_row_after_failed_update :
  run_ops [OpInsert [VInt 1; VInt 10]; OpInsert [VInt 2; VInt 20];
           OpUpdate [("id", VInt 5)] None] example_empty
  = example_corrupt
  /\ Table.select example_corrupt (Some [("id", VInt 5)])
     = Ok [[("id", VInt 5); ("age", VInt 10)]]
  /\ full_scan_filter (Table.rows example_corrupt) "id" (VInt 5)
     = [[("id", VInt 5); ("age", VInt 10)]; [("id", VInt 5); ("age", VInt 20)]]
  /\ Table.scan (Table.rows example_corrupt) [("id", VInt 5)]
     = [[("id", VInt 5); ("age", VInt 10)]; [("id", VInt 5); ("age", VInt 20)]]
  /\ Table.select example_corrupt (Some [("id", VInt 5)])
     <> Ok (full_scan_filter (Table.rows example_corrupt) "id" (VInt 5)).
Proof. by split_and!. Qed.

(** C6: deletion compaction fails on the same table: [delete({"id": 5})]
    deletes the row at slot 0 and returns 1; the row [(5, 20)] moves
    from slot 1 to slot 0, and the lookup of its [id] in the index gives
    [None], not slot 0. *)
Theorem delete_loses_index_entry_after_failed_update :
  Table.target_indices example_corrupt (Some [("id", VInt 5)]) = Ok [0]
  /\ Table.delete (Some [("id", VInt 5)]) example_corrupt = (example_orphaned, Ok 1)
  /\ Table.rows example_corrupt !! 1 = Some [("id", VInt 5); ("age", VInt 20)]
  /\ Table.rows example_orphaned !! 0 = Some [("id", VInt 5); ("age", VInt 20)]
  /\ exists index,
       Dict.get "id" (Table.indexes example_orphaned) = Some index
       /\ Index.get index (VInt 5) = None
       /\ Index.get index (VInt 5) <> Some (shifted 0 1).
Proof.
  split_and!; [done | done | done | done |]. eexists. by split_and!.
Qed.

(** ** The theorems at work on the example tables *)

Lemma insert_all_or_nothing_witness :
  Table.insert [VInt 1; VInt 30] example_table
  = (example_table, Raise ConstraintViolation)
  /\ Table.insert [VInt 3] example_table = (example_table, Raise ValueCountError)
  /\ Table.insert [VInt 3; VInt 30] example_table
     = (inserted [("id", VInt 3); ("age", VInt 30)] example_table, Ok tt).
Proof.
  destruct (insert_all_or_nothing example_table (proj1 example_table_inv))
    as (_ & Hcount & _ & Hdup & _ & Hok).
  split_and!.
  - eapply (Hdup [VInt 1; VInt 30] [VInt 1; VInt 30] 0
              (Column.init "id" INT true false) (VInt 1) _ 0).
    + split; [| reflexivity]. repeat constructor.
    + reflexivity.
    + reflexivity.
    + reflexivity.
    + apply example_id_index.
    + apply (proj2 (proj2 example_table_inv)), example_id_index.
    + reflexivity.
    + reflexivity.
  - apply Hcount. simpl. lia.
  - apply (Hok [VInt 3; VInt 30] [VInt 3; VInt 30]).
    + split; [| reflexivity]. repeat constructor.
    + intros i ci wi index Hci Hwi Hg.
      destruct i as [|[|i]]; simpl in Hci, Hwi; [| | done].
      * injection Hci as <-. injection Hwi as <-. injection Hg as <-. reflexivity.
      * injection Hci as <-. done.
Defined.

Lemma select_index_scan_equiv_witness :
  Table.select example_table (Some [("id", VInt 2)])
  = Ok (full_scan_filter (Table.rows example_table) "id" (VInt 2)).
Proof.
  exact (proj1 (select_index_scan_equiv example_table "id" (VInt 2) _
                  example_id_index
                  (proj2 (proj2 example_table_inv) _ _ example_id_index))).
Defined.

Lemma delete_compaction_witness :
  exists gone,
    Table.rows example_table !! 0 = Some gone
    /\ Table.delete (Some [("id", VInt 1)]) example_table
       = (deleted_at 0 gone example_table, Ok 1).
Proof.
  destruct (delete_compaction example_table (Some [("id", VInt 1)]) 0
              example_table_inv eq_refl) as (gone & Hgone & Hdel & _).
  by exists gone.
Defined.

Lemma coercion_idempotent_roundtrip_witness :
  exists w rs row,
    Column.validate_value (Column.init "id" INT true false) (VStr "3") = Ok w
    /\ Table.select (Table.insert [VStr "3"; VInt 30] example_table).1 None = Ok rs
    /\ rs !! 2 = Some row
    /\ Dict.get "id" row = Some w
    /\ Column.validate_value (Column.init "id" INT true false) w = Ok w.
Proof.
  exact (proj2 (proj2
    (coercion_idempotent_roundtrip example_table
       (Table.insert [VStr "3"; VInt 30] example_table).1
       [VStr "3"; VInt 30] 0 (Column.init "id" INT true false) (VStr "3")
       (proj1 example_table_inv) eq_refl eq_refl eq_refl))).
Defined.

Lemma null_is_unique_witness :
  exists row index',
    Table.insert [VNone; VInt 10] example_empty = (inserted row example_empty, Ok tt)
    /\ Table.rows (inserted row example_empty) !! 0 = Some row
    /\ Dict.get "id" row = Some VNone
    /\ Dict.get "id" (Table.indexes (inserted row example_empty)) = Some index'
    /\ Index.get index' VNone = Some 0
    /\ Table.insert [VNone; VInt 20] (inserted row example_empty)
       = (inserted row example_empty, Raise ConstraintViolation).
Proof.
  refine (proj2 (null_is_unique example_empty 0 (Column.init "id" INT true false)
            [VNone; VInt 10] [VNone; VInt 10] [VNone; VInt 20] [VNone; VInt 20]
            (proj1 example_empty_inv) eq_refl eq_refl eq_refl eq_refl _ _ _)).
  - split; [| reflexivity]. repeat constructor.
  - split; [| reflexivity]. repeat constructor.
  - intros i ci wi index _ _. simpl.
    case_decide; [| done]. by intros [= <-].
Defined.

Lemma engine_frame_witness :
  DatabaseEngine.tables
    (DatabaseEngine.update_table "users" [("id", VInt 5)] None example_engine).1
    !! "orders"
  = DatabaseEngine.tables example_engine !! "orders".
Proof.
  refine (proj1 (proj2 (proj2 (engine_frame example_engine "users" "orders" _)))
            [("id", VInt 5)] None).
  discriminate.
Defined.

(** ** The further properties at work on the example tables *)

Lemma example_table_reachable : reachable example_table.
Proof.
  assert (example_table
          = (Table.insert [VInt 2; VInt 20]
               (Table.insert [VInt 1; VInt 10] example_empty).1).1) as ->
    by reflexivity.
  apply reachable_insert, reachable_insert.
  apply (reachable_init "t" example_columns);
    [apply example_columns_distinct | apply example_empty_init].
Qed.

Lemma example_table_distinct : NoDup (Table.rows example_table).
Proof. apply table_inv_rows_distinct; [apply example_table_inv | done]. Qed.

Lemma example_bag_inv : table_inv example_bag.
Proof.
  split_and!.
  - split; [| done]. simpl. apply NoDup_cons. split; [apply not_elem_of_nil |].
    apply NoDup_nil_2.
  - unfold rows_ok. simpl. repeat constructor.
  - intros C index Hg. done.
Qed.

(** [str(col)] for the three kinds of column. *)
Example column_repr_examples :
  Column.repr (Column.init "id" INT true false) = "Column(id INT PRIMARY KEY)"
  /\ Column.repr (Column.init "email" TEXT false true) = "Column(email TEXT UNIQUE)"
  /\ Column.repr (Column.init "name" TEXT false false) = "Column(name TEXT)".
Proof. by split_and!. Qed.

(** [select_from] with a column list: the rows cut down to the listed
    columns that exist, in the order of the list. *)
Example select_from_columns :
  DatabaseEngine.select_from "users" (Some ["age"; "nope"; "id"]) None example_engine
  = (example_engine,
     Ok [[("age", VInt 10); ("id", VInt 1)]; [("age", VInt 20); ("id", VInt 2)]]).
Proof. reflexivity. Qed.

(** [get_table_info] on the catalog of two tables. *)
Example table_info_example :
  DatabaseEngine.get_table_info example_engine !! "users"
  = Some {| DatabaseEngine.info_columns :=
              ["Column(id INT PRIMARY KEY)"; "Column(age INT)"];
            DatabaseEngine.row_count := 2 |}
  /\ DatabaseEngine.get_table_info example_engine !! "orders"
     = Some {| DatabaseEngine.info_columns :=
                 ["Column(id INT PRIMARY KEY)"; "Column(age INT)"];
               DatabaseEngine.row_count := 0 |}
  /\ DatabaseEngine.get_table_info example_engine !! "nope" = None.
Proof. by split_and!. Qed.

(** On [example_bag], [delete({"age": 10})] resolves both targets to
    slot 0: it removes the rows at slots 0 and 1 and keeps the second
    row with [age = 10]. *)
Example delete_equal_rows :
  Table.delete (Some [("age", VInt 10)]) example_bag
  = (Table.set_rows [[("age", VInt 10)]] example_bag, Ok 2).
Proof. reflexivity. Qed.

Lemma index_remove_undoes_add_witness :
  (Index.remove (VInt 3) 2 (Index.add (VInt 3) 2 example_index).1).1
  = example_index.
Proof.
  exact (proj2 (index_remove_undoes_add (VInt 3) 2 example_index eq_refl eq_refl)).
Defined.

Lemma index_update_moves_slot_witness :
  Index.get (Index.update (VInt 1) (VInt 5) 0 example_index).1 (VInt 5) = Some 0
  /\ Index.get (Index.update (VInt 1) (VInt 5) 0 example_index).1 (VInt 1) = None.
Proof.
  destruct (index_update_moves_slot (VInt 1) (VInt 5) 0 example_index eq_refl
              (or_intror eq_refl)) as (_ & Hnew & Hold & _).
  split; [exact Hnew | by apply Hold].
Defined.

Lemma index_adjust_rebuilds_inverse_witness :
  Index._index (Index.adjust_for_deletion 0 example_index).1 = [(VInt 2, 0)]
  /\ Index._reverse_index (Index.adjust_for_deletion 0 example_index).1
     = [(0, VInt 2)].
Proof.
  destruct (index_adjust_rebuilds_inverse 0 example_index) as (_ & _ & _ & Hf & Hr).
  - apply NoDup_cons. split; [by intros ?%list_elem_of_singleton |].
    apply NoDup_cons. split; [apply not_elem_of_nil | apply NoDup_nil_2].
  - intros v1 v2 s. unfold Index.get. simpl. repeat case_decide; congruence.
  - split; [exact Hf | exact Hr].
Defined.

Lemma engine_unknown_table_witness :
  DatabaseEngine.insert_into "nope" [VInt 1] example_engine
  = (example_engine, Raise SchemaError)
  /\ DatabaseEngine.drop_table "nope" example_engine
     = (example_engine, Raise SchemaError).
Proof.
  destruct (engine_unknown_table example_engine "nope" eq_refl)
    as (_ & Hins & _ & _ & _ & Hdrop).
  split; [apply Hins | exact Hdrop].
Defined.

Lemma select_returns_matching_rows_witness :
  Table.select example_table (Some [("id", VInt 2); ("age", VInt 20)])
  = Ok [[("id", VInt 2); ("age", VInt 20)]].
Proof.
  exact (proj1 (select_returns_matching_rows example_table
                  (Some [("id", VInt 2); ("age", VInt 20)]) example_table_inv)).
Defined.

Lemma select_undeclared_column_witness :
  Table.select example_table (Some [("nope", VNone)]) = Ok (Table.rows example_table)
  /\ Table.select example_table (Some [("nope", VInt 1)]) = Ok [].
Proof.
  destruct (select_undeclared_column example_table "nope" example_table_inv)
    as [Hall Hnone].
  - simpl. rewrite !not_elem_of_cons. split_and!; [done | done |].
    apply not_elem_of_nil.
  - split; [exact Hall | by apply Hnone].
Defined.

Lemma delete_removes_matching_rows_witness :
  exists t',
    Table.delete (Some [("age", VInt 10)]) example_table = (t', Ok 1)
    /\ Table.rows t' = [[("id", VInt 2); ("age", VInt 20)]].
Proof.
  destruct (delete_removes_matching_rows example_table (Some [("age", VInt 10)])
              example_table_inv example_table_distinct)
    as (t' & Hdel & Hrows & _).
  exists t'. split; [exact Hdel | exact Hrows].
Defined.

Lemma delete_returns_count_witness :
  exists t',
    Table.delete (Some [("age", VInt 10)]) example_bag = (t', Ok 2)
    /\ length (Table.rows t') = 1.
Proof.
  destruct (delete_returns_count example_bag (Some [("age", VInt 10)])
              example_bag_inv) as (t' & Hdel & Hlen & _).
  exists t'. split; [exact Hdel | exact Hlen].
Defined.

Lemma stored_values_typed_witness :
  let t := run_ops [OpInsert [VStr "1"; VInt 10]; OpInsert [VInt 2; VInt 20];
                    OpUpdate [("id", VInt 5)] None] example_empty in
  Table.columns t = example_columns
  /\ forall row C w col,
       row ∈ Table.rows t -> Dict.get C row = Some w ->
       Dict.get C (Table.column_dict t) = Some col ->
       value_typed (Column.data_type col) w.
Proof.
  exact (stored_values_typed "t" example_columns example_empty
           [OpInsert [VStr "1"; VInt 10]; OpInsert [VInt 2; VInt 20];
            OpUpdate [("id", VInt 5)] None] example_empty_init).
Defined.

Lemma update_plain_columns_witness :
  Table.update [("age", VStr "30")] (Some [("id", VInt 1)]) example_table
  = (Table.set_rows [[("id", VInt 1); ("age", VInt 30)];
                     [("id", VInt 2); ("age", VInt 20)]] example_table, Ok 1).
Proof.
  refine (proj1 (update_plain_columns example_table [("age", VStr "30")]
                   (Some [("id", VInt 1)]) example_table_inv
                   example_table_distinct _ _)).
  - apply NoDup_cons. split; [apply not_elem_of_nil | apply NoDup_nil_2].
  - constructor; [| constructor]. split; [reflexivity |].
    eexists _, _. split; reflexivity.
Defined.

Lemma no_target_is_noop_witness :
  Table.update [("nope", VStr "x")] (Some [("id", VInt 9)]) example_table
  = (example_table, Ok 0).
Proof.
  exact (proj2 (no_target_is_noop example_table ("id", VInt 9) [] eq_refl)
           [("nope", VStr "x")]).
Defined.

Lemma unique_constraint_holds_witness :
  Dict.get "id" [("id", VInt 1); ("age", VInt 10)]
  <> Dict.get "id" [("id", VInt 2); ("age", VInt 20)].
Proof.
  refine (proj1 (proj2 (unique_constraint_holds example_table
                          (Column.init "id" INT true false) 0 1
                          [("id", VInt 1); ("age", VInt 10)]
                          [("id", VInt 2); ("age", VInt 20)]
                          example_table_reachable _ eq_refl eq_refl eq_refl _))).
  - apply list_elem_of_here.
  - lia.
Defined.

Lemma insert_then_select_witness :
  exists row,
    Table.select (Table.insert [VStr "3"; VInt 30] example_table).1
      (Some [("id", VInt 3)]) = Ok [row]
    /\ Dict.get "id" row = Some (VInt 3)
    /\ Table.select example_table (Some [("id", VInt 3)]) = Ok [].
Proof.
  destruct (insert_then_select example_table
              (Table.insert [VStr "3"; VInt 30] example_table).1
              [VStr "3"; VInt 30] 0 (Column.init "id" INT true false)
              (VStr "3") (VInt 3) example_table_inv)
    as (row & Hsel & _ & Hget & Hbefore); try reflexivity.
  exists row. split_and!; [exact Hsel | exact Hget | exact Hbefore].
Defined.

Lemma select_from_projection_witness :
  exists out,
    DatabaseEngine.select_from "users" (Some ["age"; "nope"]) None example_engine
    = (example_engine, Ok out)
    /\ length out = 2.
Proof.
  destruct (select_from_projection example_engine "users" None example_table
              (Table.rows example_table) eq_refl eq_refl) as (_ & _ & Hproj).
  destruct (Hproj ["age"; "nope"]) as (out & Hsel & Hlen & _); [done |].
  exists out. split; [exact Hsel | exact Hlen].
Defined.

Lemma update_one_row_witness :
  exists t',
    Table.update [("id", VInt 5)] (Some [("id", VInt 1)]) example_table = (t', Ok 1)
    /\ Table.rows t' = [[("id", VInt 5); ("age", VInt 10)];
                        [("id", VInt 2); ("age", VInt 20)]].
Proof.
  destruct (update_one_row example_table [("id", VInt 5)] (Some [("id", VInt 1)]) 0
              example_table_inv) as (t' & Hupd & Hrows & _).
  - apply NoDup_cons. split; [apply not_elem_of_nil | apply NoDup_nil_2].
  - reflexivity.
  - constructor; [| constructor]. eexists _, _. split_and!; [reflexivity | reflexivity |].
    intros _ s row Hs Hrow. destruct s as [|[|s]]; [done | | done].
    injection Hrow as <-. simpl. congruence.
  - exists t'. split; [exact Hupd | exact Hrows].
Defined.

Lemma select_where_copies_witness :
  Table.select (ObjTable.to_table "t" example_columns example_heap example_obj_table)
    (Some [("age", VInt 10)])
  = Ok [[("id", VInt 1); ("age", VInt 10)]]
  /\ Heap.view (Heap.setitem 2 "age" (VInt 99)
                  (example_heap ++ [[("id", VInt 1); ("age", VInt 10)]]))
       (ObjTable.rows example_obj_table)
     = Heap.view example_heap (ObjTable.rows example_obj_table).
Proof.
  destruct (select_where_copies example_obj_table "t" example_columns
              ("age", VInt 10) [] example_heap
              (example_heap ++ [[("id", VInt 1); ("age", VInt 10)]]) [2])
    as (Hsel & _ & Hfresh).
  - repeat constructor.
  - reflexivity.
  - split; [exact Hsel |]. apply Hfresh, list_elem_of_here.
Defined.

Lemma update_conflict_refused_witness :
  Table.update [("id", VInt 2)] (Some [("id", VInt 1)]) example_table
  = (example_table, Raise ConstraintViolation).
Proof.
  apply (update_conflict_refused example_table "id" (VInt 2) (VInt 2)
           (Column.init "id" INT true false) example_index 1
           (Some [("id", VInt 1)]) [0]);
    [reflexivity | reflexivity | reflexivity | reflexivity | reflexivity |].
  exists 0. split; [apply list_elem_of_here | lia].
Defined.

Lemma insert_error_kinds_witness :
  exists j c v,
    Table.columns example_table !! j = Some c
    /\ [VStr "abc"; VInt 1] !! j = Some v
    /\ Column.validate_value c v = Raise TypeError.
Proof.
  assert (Hins : Table.insert [VStr "abc"; VInt 1] example_table
                 = (example_table, Raise TypeError)) by reflexivity.
  destruct (insert_error_kinds example_table example_table [VStr "abc"; VInt 1]
              TypeError (proj1 example_table_inv) Hins)
    as (_ & [[Hcount _]|(_ & j & c & v & Hc & Hv & _ & [[_ Hfail]|[He _]])]);
    [done | | done].
  exists j, c, v. split_and!; [exact Hc | exact Hv | exact Hfail].
Defined.

Lemma update_undeclared_column_witness :
  Table.update [("nope", VInt 1)] None example_table
  = (example_table, Raise KeyError).
Proof.
  apply (update_undeclared_column example_table "nope" (VInt 1) None 0 [1]
           example_table_inv); [| reflexivity].
  simpl. rewrite !not_elem_of_cons. split_and!; [done | done |].
  apply not_elem_of_nil.
Defined.
